(** * glox: a bytecode compiler and stack VM for Lox expressions

    A shallow embedding of the Go sources

      - value.go    (tagged run-time values and their operators),
      - scanner.go  (the lexical scanner),
      - the compiler (Pratt parser emitting bytecode),
      - the chunk, operand stack and VM loop,
      - the [interpret] entry point,

    followed by the properties of the specification that were checked
    against them.

    Conventions.  A Go [string] is a sequence of bytes: it is modelled by
    [string], whose characters are the 8-bit [ascii].  A [rune] and a [byte]
    are integers in [Z]; offsets, lengths and line counters never go below
    zero and are bounded by the length of the source, they are in [nat].
    A [float64] is a primitive binary64 float.  A Go function that returns
    [(T, error)], or that may panic, or whose loop may spin for ever,
    returns an [outcome T]. *)

From Stdlib Require Import ZArith List String Ascii Bool Lia.
From Stdlib Require Import PrimFloat SpecFloat FloatOps.
From Stdlib Require Import DecimalString.
Import ListNotations.

Local Open Scope string_scope.
Local Open Scope Z_scope.

(** ** Results of Go calls *)

(** The run-time panics the program can raise.  An index expression
    [a[i]] outside [0 <= i < len(a)] reports the index and the length; a
    slice expression [a[low:high]] outside [low <= high <= len(a)] reports
    its bounds and the length; a failed type assertion [x.(T)] and a call
    through a nil function value are the other two. *)
Inductive panic : Type :=
| IndexOutOfRange (index : Z) (len : nat)
| InterfaceConversion (held wanted : string)
| NilFunction
| SliceOutOfRange (low high len : nat).

Inductive outcome (A : Type) : Type :=
| Ok (a : A)
| Err (msg : string)
| Panic (p : panic)
| OutOfFuel.

Arguments Ok {A} a.
Arguments Err {A} msg.
Arguments Panic {A} p.
Arguments OutOfFuel {A}.

Definition bind {A B : Type} (m : outcome A) (k : A -> outcome B) : outcome B :=
  match m with
  | Ok a => k a
  | Err msg => Err msg
  | Panic p => Panic p
  | OutOfFuel => OutOfFuel
  end.

Notation "x <- m ;; k" := (bind m (fun x => k))
  (at level 61, m at next level, right associativity).
Notation "' p <- m ;; k" := (bind m (fun p => k))
  (at level 61, p pattern, m at next level, right associativity).

(** ** Decimal text of integers ([%d] and its padded forms) *)

Definition itoa (n : nat) : string :=
  NilZero.string_of_uint (Nat.to_uint n).

Definition Z_itoa (n : Z) : string :=
  NilZero.string_of_uint (N.to_uint (Z.to_N n)).

Fixpoint replicate (n : nat) (c : ascii) : string :=
  match n with
  | O => EmptyString
  | S n' => String c (replicate n' c)
  end.

(** [%0wd] and [%wd]: pad on the left up to width [w]. *)
Definition pad_left (w : nat) (c : ascii) (s : string) : string :=
  replicate (w - String.length s) c ++ s.

(** ** value.go *)

Inductive ValueType : Type := ValueNil | ValueBool | ValueNumber.

Definition ValueType_eqb (a b : ValueType) : bool :=
  match a, b with
  | ValueNil, ValueNil | ValueBool, ValueBool | ValueNumber, ValueNumber => true
  | _, _ => false
  end.

(** What an [interface{}] field of a [Value] holds: nothing, a [bool] or a
    [float64]. *)
Inductive iface : Type :=
| INil
| IBool (b : bool)
| IFloat (f : float).

(** The dynamic type a failed assertion reports. *)
Definition iface_type (d : iface) : string :=
  match d with
  | INil => "nil"
  | IBool _ => "bool"
  | IFloat _ => "float64"
  end.

Record Value : Type := mkValue { v_typ : ValueType; v_data : iface }.

(** [Value{}], the zero value returned beside an error. *)
Definition zeroValue : Value := mkValue ValueNil INil.

Definition nilValue : Value := mkValue ValueNil INil.
Definition boolValue (b : bool) : Value := mkValue ValueBool (IBool b).
Definition numberValue (f : float) : Value := mkValue ValueNumber (IFloat f).

(** [fmt.Sprintf("%f", x)] for a float64: six digits after the point, the
    exact binary value rounded to nearest, ties to even. *)
Definition format_f (f : float) : string :=
  match Prim2SF f with
  | S754_nan => "NaN"
  | S754_infinity s => if s then "-Inf" else "+Inf"
  | S754_zero s => (if s then "-" else "") ++ "0.000000"
  | S754_finite s m e =>
      let num := Zpos m * 10 ^ 6 * 2 ^ Z.max e 0 in
      let den := 2 ^ Z.max (- e) 0 in
      let q := num / den in
      let r := num mod den in
      let q' := if (den <? 2 * r) || ((den =? 2 * r) && Z.odd q) then q + 1 else q in
      (if s then "-" else "")
        ++ Z_itoa (q' / 10 ^ 6) ++ "."
        ++ pad_left 6 "0" (Z_itoa (q' mod 10 ^ 6))
  end.

(** [fmt.Sprintf("%f", v.data)]: the verb applied to an operand that is not
    a float prints the bad-verb form. *)
Definition Sprintf_f (d : iface) : string :=
  match d with
  | IFloat f => format_f f
  | IBool b => "%!f(bool=" ++ (if b then "true" else "false") ++ ")"
  | INil => "%!f(<nil>)"
  end.

Definition Value_String (v : Value) : outcome string :=
  match v_typ v with
  | ValueNil => Ok "nil"
  | ValueBool =>
      match v_data v with
      | IBool b => Ok (if b then "true" else "false")
      | d => Panic (InterfaceConversion (iface_type d) "bool")
      end
  | ValueNumber => Ok (Sprintf_f (v_data v))
  end.

Definition asBool (v : Value) : outcome bool :=
  match v_typ v with
  | ValueBool =>
      match v_data v with
      | IBool b => Ok b
      | d => Panic (InterfaceConversion (iface_type d) "bool")
      end
  | ValueNil =>
      Ok (match v_data v with INil => false | _ => true end)
  | ValueNumber => Ok true
  end.

Definition asNumber (v : Value) : outcome float :=
  match v_data v with
  | IFloat f => Ok f
  | d => Panic (InterfaceConversion (iface_type d) "float64")
  end.

Definition negateValue (v : Value) : outcome Value :=
  f <- asNumber v ;; Ok (numberValue (- f)%float).

Definition notValue (v : Value) : outcome Value :=
  b <- asBool v ;; Ok (boolValue (negb b)).

Definition bothNumbers (v w : Value) : bool :=
  ValueType_eqb (v_typ v) ValueNumber && ValueType_eqb (v_typ w) ValueNumber.

Definition addValues (v w : Value) : outcome Value :=
  if bothNumbers v w then
    a <- asNumber v ;; b <- asNumber w ;; Ok (numberValue (a + b)%float)
  else Err "type mismatch".

Definition subtractValues (v w : Value) : outcome Value :=
  if bothNumbers v w then
    a <- asNumber v ;; b <- asNumber w ;; Ok (numberValue (a - b)%float)
  else Err "type mismatch".

Definition multiplyValues (v w : Value) : outcome Value :=
  if bothNumbers v w then
    a <- asNumber v ;; b <- asNumber w ;; Ok (numberValue (a * b)%float)
  else Err "type mismatch".

Definition divideValues (v w : Value) : outcome Value :=
  if bothNumbers v w then
    a <- asNumber v ;; b <- asNumber w ;; Ok (numberValue (a / b)%float)
  else Err "type mismatch".

Definition valuesEqual (v w : Value) : outcome Value :=
  if ValueType_eqb (v_typ v) (v_typ w) then
    match v_typ v with
    | ValueNil => Ok (boolValue true)
    | ValueBool =>
        a <- asBool v ;; b <- asBool w ;; Ok (boolValue (Bool.eqb a b))
    | ValueNumber =>
        a <- asNumber v ;; b <- asNumber w ;; Ok (boolValue (a =? b)%float)
    end
  else Ok (boolValue false).

Definition valueGreater (v w : Value) : outcome Value :=
  if bothNumbers v w then
    a <- asNumber v ;; b <- asNumber w ;; Ok (boolValue (b <? a)%float)
  else Err "type mismatch".

Definition valueLess (v w : Value) : outcome Value :=
  if bothNumbers v w then
    a <- asNumber v ;; b <- asNumber w ;; Ok (boolValue (a <? b)%float)
  else Err "type mismatch".

(** ** The Go library under the scanner: package [unicode/utf8] *)

Definition byte_val (c : ascii) : Z := Z.of_N (N_of_ascii c).

(** [s[n:]] for [n <= len(s)]. *)
Fixpoint string_drop (n : nat) (s : string) : string :=
  match n, s with
  | O, _ => s
  | S n', String _ t => string_drop n' t
  | S _, EmptyString => EmptyString
  end.

Definition RuneError : Z := 0xFFFD.

(** The table [first]: what the first byte of an encoding announces.  The
    low three bits are the length, the high four select the range the
    second byte must lie in; [0xF0] marks ASCII and [0xF1] an invalid
    first byte. *)
Definition first (b : Z) : Z :=
  if b <? 0x80 then 0xF0
  else if b <? 0xC2 then 0xF1
  else if b <? 0xE0 then 0x02
  else if b =? 0xE0 then 0x13
  else if b <? 0xED then 0x03
  else if b =? 0xED then 0x23
  else if b <? 0xF0 then 0x03
  else if b =? 0xF0 then 0x34
  else if b <? 0xF4 then 0x04
  else if b =? 0xF4 then 0x44
  else 0xF1.

Definition acceptRanges (i : Z) : Z * Z :=
  if i =? 0 then (0x80, 0xBF)
  else if i =? 1 then (0xA0, 0xBF)
  else if i =? 2 then (0x80, 0x9F)
  else if i =? 3 then (0x90, 0xBF)
  else (0x80, 0x8F).

Definition continuation (b : Z) : bool := (0x80 <=? b) && (b <=? 0xBF).

(** [utf8.DecodeRuneInString]: the first rune of [s] and its width in
    bytes; [(RuneError, 0)] on the empty string and [(RuneError, 1)] on an
    encoding that is invalid or cut short. *)
Definition DecodeRuneInString (s : string) : Z * nat :=
  match s with
  | EmptyString => (RuneError, 0%nat)
  | String c0 t0 =>
      let s0 := byte_val c0 in
      let x := first s0 in
      if 0xF0 <=? x then
        let mask := if Z.testbit x 0 then (-1) else 0 in
        (Z.lor (Z.land s0 (Z.lnot mask)) (Z.land RuneError mask), 1%nat)
      else
        let sz := Z.to_nat (Z.land x 7) in
        let '(lo, hi) := acceptRanges (Z.shiftr x 4) in
        if (String.length s <? sz)%nat then (RuneError, 1%nat)
        else
          match t0 with
          | EmptyString => (RuneError, 1%nat)
          | String c1 t1 =>
              let s1 := byte_val c1 in
              if (s1 <? lo) || (hi <? s1) then (RuneError, 1%nat)
              else if (sz <=? 2)%nat then
                (Z.lor (Z.shiftl (Z.land s0 0x1F) 6) (Z.land s1 0x3F), 2%nat)
              else
                match t1 with
                | EmptyString => (RuneError, 1%nat)
                | String c2 t2 =>
                    let s2 := byte_val c2 in
                    if negb (continuation s2) then (RuneError, 1%nat)
                    else if (sz <=? 3)%nat then
                      (Z.lor (Z.shiftl (Z.land s0 0x0F) 12)
                         (Z.lor (Z.shiftl (Z.land s1 0x3F) 6) (Z.land s2 0x3F)),
                       3%nat)
                    else
                      match t2 with
                      | EmptyString => (RuneError, 1%nat)
                      | String c3 _ =>
                          let s3 := byte_val c3 in
                          if negb (continuation s3) then (RuneError, 1%nat)
                          else
                            (Z.lor (Z.shiftl (Z.land s0 0x07) 18)
                               (Z.lor (Z.shiftl (Z.land s1 0x3F) 12)
                                  (Z.lor (Z.shiftl (Z.land s2 0x3F) 6)
                                     (Z.land s3 0x3F))),
                             4%nat)
                      end
                end
          end
  end.

(** [utf8.RuneCountInString]: the number of runes of [s], an invalid or
    short encoding counting as one rune of width one.  That is the number
    of decoding steps that walk through [s]; [fuel] bounds them, and
    [String.length s] steps always suffice since each takes a byte or
    more. *)
Fixpoint countRunes (fuel : nat) (s : string) : nat :=
  match fuel with
  | O => O
  | S fuel' =>
      match s with
      | EmptyString => O
      | _ => S (countRunes fuel' (string_drop (snd (DecodeRuneInString s)) s))
      end
  end.

Definition RuneCountInString (s : string) : nat :=
  countRunes (String.length s) s.

(** ** The Go library under the scanner: package [unicode] *)

(** The range tables [unicode.Digit] and [unicode.Letter] beyond Latin-1
    are data of the Go distribution, not of this program: they are a
    parameter of the development.  [IsDigit] and [IsLetter] answer for
    runes up to U+00FF on their own. *)
Class UnicodeTables : Type := {
  isExcludingLatin_Digit : Z -> bool;
  isExcludingLatin_Letter : Z -> bool
}.

Definition MaxLatin1 : Z := 0xFF.

(** The letters of Latin-1 (property [pLmask] of [unicode.properties]). *)
Definition latin1_letter (r : Z) : bool :=
  ((0x41 <=? r) && (r <=? 0x5A)) || ((0x61 <=? r) && (r <=? 0x7A))
  || (r =? 0xAA) || (r =? 0xB5) || (r =? 0xBA)
  || ((0xC0 <=? r) && (r <=? 0xD6)) || ((0xD8 <=? r) && (r <=? 0xF6))
  || ((0xF8 <=? r) && (r <=? 0xFF)).

Section Unicode.
Context {U : UnicodeTables}.

Definition unicode_IsDigit (r : Z) : bool :=
  if r <=? MaxLatin1 then (48 <=? r) && (r <=? 57)
  else isExcludingLatin_Digit r.

(** [IsLetter] tests [uint32(r) <= MaxLatin1]: a negative rune is sent to
    the range tables, which hold no negative entry. *)
Definition unicode_IsLetter (r : Z) : bool :=
  if r <? 0 then false
  else if r <=? MaxLatin1 then latin1_letter r
  else isExcludingLatin_Letter r.

End Unicode.

(** ** scanner.go *)

Inductive TokenType : Type :=
| TokenError | TokenEOF
| TokenLeftParen | TokenRightParen | TokenLeftBrace | TokenRightBrace
| TokenComma | TokenDot | TokenPlus | TokenMinus | TokenStar | TokenSlash
| TokenEqual | TokenEqualEqual | TokenBang | TokenBangEqual
| TokenLess | TokenLessEqual | TokenGreater | TokenGreaterEqual
| TokenSemicolon | TokenString | TokenNumber | TokenIdentifier
| TokenAnd | TokenClass | TokenElse | TokenFalse | TokenFor | TokenFun
| TokenIf | TokenNil | TokenOr | TokenPrint | TokenReturn | TokenSuper
| TokenTrue | TokenVar | TokenWhile.

(** The byte each constant stands for ([iota]). *)
Definition TokenType_byte (t : TokenType) : Z :=
  match t with
  | TokenError => 0 | TokenEOF => 1
  | TokenLeftParen => 2 | TokenRightParen => 3
  | TokenLeftBrace => 4 | TokenRightBrace => 5
  | TokenComma => 6 | TokenDot => 7 | TokenPlus => 8 | TokenMinus => 9
  | TokenStar => 10 | TokenSlash => 11
  | TokenEqual => 12 | TokenEqualEqual => 13
  | TokenBang => 14 | TokenBangEqual => 15
  | TokenLess => 16 | TokenLessEqual => 17
  | TokenGreater => 18 | TokenGreaterEqual => 19
  | TokenSemicolon => 20 | TokenString => 21 | TokenNumber => 22
  | TokenIdentifier => 23
  | TokenAnd => 24 | TokenClass => 25 | TokenElse => 26 | TokenFalse => 27
  | TokenFor => 28 | TokenFun => 29 | TokenIf => 30 | TokenNil => 31
  | TokenOr => 32 | TokenPrint => 33 | TokenReturn => 34 | TokenSuper => 35
  | TokenTrue => 36 | TokenVar => 37 | TokenWhile => 38
  end.

Definition TokenType_eqb (a b : TokenType) : bool :=
  TokenType_byte a =? TokenType_byte b.

(** The [String] method of [TokenType].  Its file is generated ([go:generate
    stringer -type=TokenType], at the end of scanner.go) and is not among
    the sources: as [stringer] does, it gives the name of the constant. *)
Definition TokenType_String (t : TokenType) : string :=
  match t with
  | TokenError => "TokenError" | TokenEOF => "TokenEOF"
  | TokenLeftParen => "TokenLeftParen" | TokenRightParen => "TokenRightParen"
  | TokenLeftBrace => "TokenLeftBrace" | TokenRightBrace => "TokenRightBrace"
  | TokenComma => "TokenComma" | TokenDot => "TokenDot"
  | TokenPlus => "TokenPlus" | TokenMinus => "TokenMinus"
  | TokenStar => "TokenStar" | TokenSlash => "TokenSlash"
  | TokenEqual => "TokenEqual" | TokenEqualEqual => "TokenEqualEqual"
  | TokenBang => "TokenBang" | TokenBangEqual => "TokenBangEqual"
  | TokenLess => "TokenLess" | TokenLessEqual => "TokenLessEqual"
  | TokenGreater => "TokenGreater" | TokenGreaterEqual => "TokenGreaterEqual"
  | TokenSemicolon => "TokenSemicolon" | TokenString => "TokenString"
  | TokenNumber => "TokenNumber" | TokenIdentifier => "TokenIdentifier"
  | TokenAnd => "TokenAnd" | TokenClass => "TokenClass"
  | TokenElse => "TokenElse" | TokenFalse => "TokenFalse"
  | TokenFor => "TokenFor" | TokenFun => "TokenFun" | TokenIf => "TokenIf"
  | TokenNil => "TokenNil" | TokenOr => "TokenOr" | TokenPrint => "TokenPrint"
  | TokenReturn => "TokenReturn" | TokenSuper => "TokenSuper"
  | TokenTrue => "TokenTrue" | TokenVar => "TokenVar"
  | TokenWhile => "TokenWhile"
  end.

Record scanner : Type := mkScanner {
  s_source : string;
  s_start : nat;
  s_current : nat;
  s_line : nat
}.

Record Token : Type := mkToken {
  t_typ : TokenType;
  t_line : nat;
  t_data : string
}.

(** The zero [Token] a fresh compiler holds. *)
Definition zeroToken : Token := mkToken TokenError 0 "".

(** A rune literal such as ['+']. *)
Definition rune (c : ascii) : Z := byte_val c.

Definition rune_newline : Z := 10.
Definition rune_return : Z := 13.
Definition rune_tab : Z := 9.
Definition rune_quote : Z := 34.

Module Scanner.

Definition newScanner (source : string) : scanner := mkScanner source 0 0 0.

(** [s.current += size] *)
Definition bump (s : scanner) (size : nat) : scanner :=
  mkScanner (s_source s) (s_start s) (s_current s + size) (s_line s).

(** How many turns a loop of the scanner is given.  A turn that goes on
    leaves [current] where it is (then the Go loop never ends) or moves it
    forward, by one byte or more, inside the source. *)
Definition scanFuel (s : scanner) : nat := S (String.length (s_source s)).

(** [s.source[s.start:s.current]] panics unless
    [start <= current <= len(source)]. *)
Definition makeToken (s : scanner) (typ : TokenType) : outcome Token :=
  if (s_current s <? s_start s)%nat
     || (String.length (s_source s) <? s_current s)%nat
  then
    Panic (SliceOutOfRange (s_start s) (s_current s)
             (String.length (s_source s)))
  else
    Ok (mkToken typ (s_line s + 1)
          (substring (s_start s) (s_current s - s_start s) (s_source s))).

(** [return s.makeToken(typ)]: the token, and the scanner as the call
    leaves it. *)
Definition return_token (s : scanner) (typ : TokenType)
  : outcome (Token * scanner) :=
  t <- makeToken s typ ;; Ok (t, s).

Definition isEOF (s : scanner) : bool :=
  (String.length (s_source s) <=? s_current s)%nat.

(** The guard compares the byte offset [index] with the number of runes;
    past it, [index] is below the rune count, hence below the length, and
    slicing cannot fail. *)
Definition runeAt (s : scanner) (index : nat) : Z * nat :=
  if (RuneCountInString (s_source s) <=? index)%nat then (-1, 0%nat)
  else DecodeRuneInString (string_drop index (s_source s)).

Definition currentRune (s : scanner) : Z * nat := runeAt s (s_current s).

Definition match_ (s : scanner) (expected : Z) : bool * scanner :=
  if isEOF s then (false, s)
  else
    let '(r, size) := currentRune s in
    if negb (r =? expected) then (false, s) else (true, bump s size).

Fixpoint skipUntilNewLine_loop (fuel : nat) (s : scanner) : outcome scanner :=
  match fuel with
  | O => OutOfFuel
  | S fuel' =>
      let '(r, size) := currentRune s in
      if negb (r =? rune_newline) && negb (isEOF s)
      then skipUntilNewLine_loop fuel' (bump s size)
      else Ok s
  end.

Definition skipUntilNewLine (s : scanner) : outcome scanner :=
  skipUntilNewLine_loop (scanFuel s) s.

(** After [skipUntilNewLine] the [switch] is left and the [break] that
    follows it ends the loop: whitespace after a comment is not skipped. *)
Fixpoint skipWhitespace_loop (fuel : nat) (s : scanner) : outcome scanner :=
  match fuel with
  | O => OutOfFuel
  | S fuel' =>
      let '(r, size) := currentRune s in
      if (r =? rune " ") || (r =? rune_return) || (r =? rune_tab) then
        skipWhitespace_loop fuel' (bump s size)
      else if r =? rune_newline then
        skipWhitespace_loop fuel'
          (bump (mkScanner (s_source s) (s_start s) (s_current s) (s_line s + 1)) size)
      else if r =? rune "/" then
        let '(n, _) := runeAt s (s_current s + size) in
        if n =? rune "/" then skipUntilNewLine s else Ok s
      else Ok s
  end.

Definition skipWhitespace (s : scanner) : outcome scanner :=
  skipWhitespace_loop (scanFuel s) s.

Section WithUnicode.
Context {U : UnicodeTables}.

Definition isDigit (r : Z) : bool := unicode_IsDigit r.

Definition isAlpha (r : Z) : bool := unicode_IsLetter r || (r =? rune "_").

Fixpoint string_loop (fuel : nat) (s : scanner) : outcome scanner :=
  match fuel with
  | O => OutOfFuel
  | S fuel' =>
      let '(r, size) := currentRune s in
      if (r =? rune_quote) || isEOF s then Ok s
      else string_loop fuel' (bump s size)
  end.

Definition string_ (s : scanner) : outcome (Token * scanner) :=
  s <- string_loop (scanFuel s) s ;;
  if isEOF s then return_token s TokenError
  else
    let '(_, size) := currentRune s in
    let s := bump s size in
    return_token s TokenString.

(** [for isDigit(r) { s.current += size; r, size = s.currentRune() }] *)
Fixpoint digits_loop (fuel : nat) (s : scanner) : outcome scanner :=
  match fuel with
  | O => OutOfFuel
  | S fuel' =>
      let '(r, size) := currentRune s in
      if isDigit r then digits_loop fuel' (bump s size) else Ok s
  end.

Fixpoint number_loop (fuel : nat) (s : scanner) : outcome scanner :=
  match fuel with
  | O => OutOfFuel
  | S fuel' =>
      let '(r, size) := currentRune s in
      if isDigit r then number_loop fuel' (bump s size)
      else if r =? rune "." then digits_loop (scanFuel s) (bump s size)
      else Ok s
  end.

Definition number (s : scanner) : outcome (Token * scanner) :=
  s <- number_loop (scanFuel s) s ;;
  return_token s TokenNumber.

Fixpoint identifier_loop (fuel : nat) (s : scanner) : outcome scanner :=
  match fuel with
  | O => OutOfFuel
  | S fuel' =>
      let '(r, size) := currentRune s in
      if isAlpha r || isDigit r then identifier_loop fuel' (bump s size)
      else Ok s
  end.

Definition keyword (data : string) : TokenType :=
  if String.eqb data "and" then TokenAnd
  else if String.eqb data "class" then TokenClass
  else if String.eqb data "else" then TokenElse
  else if String.eqb data "false" then TokenFalse
  else if String.eqb data "for" then TokenFor
  else if String.eqb data "fun" then TokenFun
  else if String.eqb data "if" then TokenIf
  else if String.eqb data "nil" then TokenNil
  else if String.eqb data "or" then TokenOr
  else if String.eqb data "print" then TokenPrint
  else if String.eqb data "return" then TokenReturn
  else if String.eqb data "super" then TokenSuper
  else if String.eqb data "true" then TokenTrue
  else if String.eqb data "var" then TokenVar
  else if String.eqb data "while" then TokenWhile
  else TokenIdentifier.

Definition identifier (s : scanner) : outcome (Token * scanner) :=
  s <- identifier_loop (scanFuel s) s ;;
  token <- makeToken s TokenIdentifier ;;
  Ok (mkToken (keyword (t_data token)) (t_line token) (t_data token), s).

Definition nextToken (s : scanner) : outcome (Token * scanner) :=
  s <- skipWhitespace s ;;
  let s := mkScanner (s_source s) (s_current s) (s_current s) (s_line s) in
  if isEOF s then return_token s TokenEOF
  else
    let '(r, size) := currentRune s in
    let s := bump s size in
    if isDigit r then number s
    else if isAlpha r then identifier s
    else if r =? rune "(" then return_token s TokenLeftParen
    else if r =? rune ")" then return_token s TokenRightParen
    else if r =? rune "{" then return_token s TokenLeftBrace
    else if r =? rune "}" then return_token s TokenRightBrace
    else if r =? rune "," then return_token s TokenComma
    else if r =? rune "." then return_token s TokenDot
    else if r =? rune "+" then return_token s TokenPlus
    else if r =? rune "-" then return_token s TokenMinus
    else if r =? rune "*" then return_token s TokenStar
    else if r =? rune "/" then return_token s TokenSlash
    else if r =? rune "=" then
      let '(m, s) := match_ s (rune "=") in
      return_token s (if m then TokenEqualEqual else TokenEqual)
    else if r =? rune "!" then
      let '(m, s) := match_ s (rune "=") in
      return_token s (if m then TokenBangEqual else TokenBang)
    else if r =? rune "<" then
      let '(m, s) := match_ s (rune "=") in
      return_token s (if m then TokenLessEqual else TokenLess)
    else if r =? rune ">" then
      let '(m, s) := match_ s (rune "=") in
      return_token s (if m then TokenGreaterEqual else TokenGreater)
    else if r =? rune ";" then return_token s TokenSemicolon
    else if r =? rune_quote then string_ s
    else return_token s TokenError.

(** The tokens of a source, up to and with the first [TokenEOF]: what a
    caller gets from [nextToken] called again and again. *)
Fixpoint tokens_from (fuel : nat) (s : scanner) : outcome (list Token) :=
  match fuel with
  | O => OutOfFuel
  | S fuel' =>
      '(t, s') <- nextToken s ;;
      if TokenType_eqb (t_typ t) TokenEOF then Ok [t]
      else ts <- tokens_from fuel' s' ;; Ok (t :: ts)
  end.

Definition tokens (fuel : nat) (source : string) : outcome (list Token) :=
  tokens_from fuel (newScanner source).

End WithUnicode.
End Scanner.

(** ** The chunk, the operand stack and the VM *)

Inductive Op : Type :=
| OpConstant | OpNil | OpFalse | OpTrue | OpNegate | OpNot
| OpAdd | OpSubtract | OpMultiply | OpDivide
| OpEqual | OpGreater | OpLess | OpReturn.

Definition Op_byte (op : Op) : Z :=
  match op with
  | OpConstant => 0 | OpNil => 1 | OpFalse => 2 | OpTrue => 3
  | OpNegate => 4 | OpNot => 5
  | OpAdd => 6 | OpSubtract => 7 | OpMultiply => 8 | OpDivide => 9
  | OpEqual => 10 | OpGreater => 11 | OpLess => 12 | OpReturn => 13
  end.

(** [Op(b)] for a byte of the code: one of the constants, or none. *)
Definition Op_of_byte (b : Z) : option Op :=
  if b =? 0 then Some OpConstant else if b =? 1 then Some OpNil
  else if b =? 2 then Some OpFalse else if b =? 3 then Some OpTrue
  else if b =? 4 then Some OpNegate else if b =? 5 then Some OpNot
  else if b =? 6 then Some OpAdd else if b =? 7 then Some OpSubtract
  else if b =? 8 then Some OpMultiply else if b =? 9 then Some OpDivide
  else if b =? 10 then Some OpEqual else if b =? 11 then Some OpGreater
  else if b =? 12 then Some OpLess else if b =? 13 then Some OpReturn
  else None.

(** The [String] method of [Op], generated as well ([go:generate stringer
    -type=Op]): the name of the constant, or [Op(n)] for a byte [n] that
    is none. *)
Definition Op_String (b : Z) : string :=
  match Op_of_byte b with
  | Some OpConstant => "OpConstant" | Some OpNil => "OpNil"
  | Some OpFalse => "OpFalse" | Some OpTrue => "OpTrue"
  | Some OpNegate => "OpNegate" | Some OpNot => "OpNot"
  | Some OpAdd => "OpAdd" | Some OpSubtract => "OpSubtract"
  | Some OpMultiply => "OpMultiply" | Some OpDivide => "OpDivide"
  | Some OpEqual => "OpEqual" | Some OpGreater => "OpGreater"
  | Some OpLess => "OpLess" | Some OpReturn => "OpReturn"
  | None => "Op(" ++ Z_itoa b ++ ")"
  end.

(** The operand stack: a slice, its top at the end. *)
Definition Stack : Type := list Value.

Definition newStack : Stack := [].

Definition push (s : Stack) (val : Value) : Stack := (s ++ [val])%list.

(** [n := len(s.vals) - 1; val := s.vals[n]; s.vals = s.vals[:n]]: on the
    empty stack the index is [-1] and the index expression panics. *)
Definition pop (s : Stack) : outcome (Value * Stack) :=
  let n := Z.of_nat (List.length s) - 1 in
  if n <? 0 then Panic (IndexOutOfRange n (List.length s))
  else
    match nth_error s (Z.to_nat n) with
    | Some val => Ok (val, firstn (Z.to_nat n) s)
    | None => Panic (IndexOutOfRange n (List.length s))
    end.

Record Chunk : Type := mkChunk {
  ch_code : list Z;
  ch_vals : list Value
}.

Definition emptyChunk : Chunk := mkChunk [] [].

Definition addByte (c : Chunk) (b : Z) : Chunk :=
  mkChunk (ch_code c ++ [b])%list (ch_vals c).

Definition addOp (c : Chunk) (op : Op) : Chunk := addByte c (Op_byte op).

(** The chunk with the value appended, and the index it got. *)
Definition addVal (c : Chunk) (val : Value) : Chunk * Z :=
  let vals := (ch_vals c ++ [val])%list in
  (mkChunk (ch_code c) vals, Z.of_nat (List.length vals) - 1).

(** [a[i]] on a slice. *)
Definition index {A : Type} (a : list A) (i : Z) : outcome A :=
  if i <? 0 then Panic (IndexOutOfRange i (List.length a))
  else
    match nth_error a (Z.to_nat i) with
    | Some x => Ok x
    | None => Panic (IndexOutOfRange i (List.length a))
    end.

(** What the program writes on standard output, line by line: the
    disassembly of each instruction the VM is about to execute, and the
    values that [OpReturn] prints. *)
Inductive output : Type :=
| Trace (line : string)
| Printed (line : string).

(** [fmt] recovers a panic of a [String] method and prints it in place of
    the text. *)
Definition panic_text (p : panic) : string :=
  match p with
  | IndexOutOfRange i n =>
      "runtime error: index out of range [" ++ (if i <? 0 then "-" ++ Z_itoa (- i) else Z_itoa i) ++ "]"
      ++ (if i <? 0 then "" else " with length " ++ itoa n)
  | InterfaceConversion held wanted =>
      "interface conversion: interface {} is " ++ held ++ ", not " ++ wanted
  | NilFunction => "runtime error: invalid memory address or nil pointer dereference"
  | SliceOutOfRange low high n =>
      "runtime error: slice bounds out of range ["
      ++ (if (n <? high)%nat then "" else itoa low) ++ ":" ++ itoa high ++ "]"
      ++ (if (n <? high)%nat then " with length " ++ itoa n else "")
  end.

Definition fmt_Value (verb : string) (v : Value) : string :=
  match Value_String v with
  | Ok s => s
  | Panic p => "%!" ++ verb ++ "(PANIC=String method: " ++ panic_text p ++ ")"
  | Err _ | OutOfFuel => ""
  end.

(** A computation that writes to a log [L] as it goes: the log written so
    far comes back however the computation ends. *)
Definition logged (L A : Type) : Type := L * outcome A.

Definition bind_logged {L A B : Type} (log : L) (m : outcome A)
  (k : A -> logged L B) : logged L B :=
  match m with
  | Ok a => k a
  | Err msg => (log, Err msg)
  | Panic p => (log, Panic p)
  | OutOfFuel => (log, OutOfFuel)
  end.

Notation "x <- m 'logging' log ;; k" := (bind_logged log m (fun x => k))
  (at level 61, m at next level, log at next level, right associativity).
Notation "' p <- m 'logging' log ;; k" := (bind_logged log m (fun p => k))
  (at level 61, p pattern, m at next level, log at next level,
   right associativity).

(** [dumpOp]: the line it prints, the deferred [Println] included, and
    the width of the instruction, or the panic of an index expression. *)
Definition dumpOp (c : Chunk) (offset : nat) : logged string nat :=
  op <- index (ch_code c) (Z.of_nat offset) logging "" ;;
  let line := pad_left 4 "0" (itoa offset) ++ " " ++ Op_String op in
  match Op_of_byte op with
  | Some OpConstant =>
      val <- index (ch_code c) (Z.of_nat offset + 1) logging line ;;
      v <- index (ch_vals c) val logging line ;;
      (line ++ " " ++ pad_left 3 " " (Z_itoa val) ++ " [" ++ fmt_Value "s" v ++ "]",
       Ok 2%nat)
  | _ => (line, Ok 1%nat)
  end.

(** [dumpChunk]: the title, then [dumpOp] at each instruction, [dumpOp]
    telling how far the next one is.  The result is the lines printed
    and how the listing ended. *)
Fixpoint dumpChunk_loop (fuel : nat) (c : Chunk) (i : nat) (out : list string)
  {struct fuel} : logged (list string) unit :=
  if (List.length (ch_code c) <=? i)%nat then (out, Ok tt)
  else
    match fuel with
    | O => (out, OutOfFuel)
    | S fuel' =>
        let '(line, width) := dumpOp c i in
        let out := (out ++ [line])%list in
        w <- width logging out ;;
        dumpChunk_loop fuel' c (i + w) out
    end.

Definition dumpChunk (c : Chunk) (title : string) : logged (list string) unit :=
  dumpChunk_loop (List.length (ch_code c)) c 0 ["== " ++ title].

Module VM.

Definition literal (stack : Stack) (v : Value) : outcome Stack :=
  Ok (push stack v).

Definition unary (stack : Stack) (fn : Value -> outcome Value) : outcome Stack :=
  '(v, stack) <- pop stack ;;
  res <- fn v ;;
  Ok (push stack res).

Definition binary (stack : Stack) (fn : Value -> Value -> outcome Value)
  : outcome Stack :=
  '(b, stack) <- pop stack ;;
  '(a, stack) <- pop stack ;;
  res <- fn a b ;;
  Ok (push stack res).

(** The body of the loop after the trace: the [switch] on the opcode at
    [ip].  It gives back [ip] (moved onto the operand by [OpConstant]),
    the stack, and the line [OpReturn] prints. *)
Definition dispatch (chunk : Chunk) (ip : nat) (stack : Stack)
  : outcome (nat * Stack * list string) :=
  op <- index (ch_code chunk) (Z.of_nat ip) ;;
  match Op_of_byte op with
  | Some OpConstant =>
      let ip := (ip + 1)%nat in
      operand <- index (ch_code chunk) (Z.of_nat ip) ;;
      v <- index (ch_vals chunk) operand ;;
      s <- literal stack v ;; Ok (ip, s, [])
  | Some OpNil => s <- literal stack nilValue ;; Ok (ip, s, [])
  | Some OpFalse => s <- literal stack (boolValue false) ;; Ok (ip, s, [])
  | Some OpTrue => s <- literal stack (boolValue true) ;; Ok (ip, s, [])
  | Some OpNegate => s <- unary stack negateValue ;; Ok (ip, s, [])
  | Some OpNot => s <- unary stack notValue ;; Ok (ip, s, [])
  | Some OpAdd => s <- binary stack addValues ;; Ok (ip, s, [])
  | Some OpSubtract => s <- binary stack subtractValues ;; Ok (ip, s, [])
  | Some OpMultiply => s <- binary stack multiplyValues ;; Ok (ip, s, [])
  | Some OpDivide => s <- binary stack divideValues ;; Ok (ip, s, [])
  | Some OpEqual => s <- binary stack valuesEqual ;; Ok (ip, s, [])
  | Some OpGreater => s <- binary stack valueGreater ;; Ok (ip, s, [])
  | Some OpLess => s <- binary stack valueLess ;; Ok (ip, s, [])
  | Some OpReturn =>
      '(v, s) <- pop stack ;;
      Ok (ip, s, [fmt_Value "v" v])
  | None =>
      Err ("unknown op: " ++ String (ascii_of_nat 34) (Op_String op)
             ++ String (ascii_of_nat 34) (String (ascii_of_nat 10) ""))
  end.

(** [for ip := 0; ip < len(chunk.code); ip++ { dumpOp(chunk, ip); ... }].
    Every turn moves [ip] forward, so [len(chunk.code)] turns are enough
    (lemma [run_loop_fuel]).  The result is what was written on standard
    output and how the run ended. *)
Fixpoint run_loop (fuel : nat) (chunk : Chunk) (ip : nat) (stack : Stack)
  (out : list output) {struct fuel} : logged (list output) unit :=
  if (List.length (ch_code chunk) <=? ip)%nat then (out, Ok tt)
  else
    match fuel with
    | O => (out, OutOfFuel)
    | S fuel' =>
        let '(line, width) := dumpOp chunk ip in
        let out := (out ++ [Trace line])%list in
        _ <- width logging out ;;
        '(ip, stack, printed) <- dispatch chunk ip stack logging out ;;
        run_loop fuel' chunk (ip + 1) stack (out ++ map Printed printed)%list
    end.

Definition run (chunk : Chunk) : logged (list output) unit :=
  run_loop (List.length (ch_code chunk)) chunk 0 newStack [].

(** The values printed by [OpReturn], without the trace. *)
Definition printed (out : list output) : list string :=
  flat_map (fun o => match o with Printed s => [s] | Trace _ => [] end) out.

End VM.

(** ** The Go library under the compiler: [strconv.ParseFloat] *)

(** The nearest binary64 to [m / d] for positive integers, ties to even;
    infinite when the quotient is beyond the largest finite float. *)
Definition nearest_float (m d : Z) : float :=
  let '(mz, ez, lz) := SFdiv_core_binary prec emax m 0 d 0 in
  SF2Prim (binary_round_aux prec emax false mz ez lz).

(** The digits of a decimal literal with at most one point: the integer
    the digits spell and the number of digits after the point; [None]
    when another byte occurs or no digit does. *)
Fixpoint readDecimal (s : string) (sawdot sawdigits : bool) (mant : Z)
  (frac : nat) : option (Z * nat) :=
  match s with
  | EmptyString => if sawdigits then Some (mant, frac) else None
  | String c t =>
      let b := byte_val c in
      if b =? rune "." then
        if sawdot then None else readDecimal t true sawdigits mant frac
      else if (48 <=? b) && (b <=? 57) then
        readDecimal t sawdot true (10 * mant + (b - 48))
          (if sawdot then S frac else frac)
      else None
  end.

Definition quote (s : string) : string :=
  String (ascii_of_nat 34) (s ++ String (ascii_of_nat 34) "").

(** [strconv.ParseFloat(s, 64)] on the texts made of decimal digits and
    points, the only ASCII bytes a Number token of the scanner holds:
    the nearest float, a range error when it is infinite, a syntax error
    on any other text.  Signs, exponents, hexadecimal forms, underscores
    and the names of the infinities and NaN, which the library also
    reads, are left out: each needs a byte that no Number token has. *)
Definition ParseFloat (s : string) : outcome float :=
  match readDecimal s false false 0 0 with
  | None => Err ("strconv.ParseFloat: parsing " ++ quote s ++ ": invalid syntax")
  | Some (mant, frac) =>
      if mant =? 0 then Ok 0%float
      else
        let f := nearest_float mant (10 ^ Z.of_nat frac) in
        if is_infinity f
        then Err ("strconv.ParseFloat: parsing " ++ quote s ++ ": value out of range")
        else Ok f
  end.

(** ** The compiler *)

Definition precNone : Z := 0.
Definition precAssignment : Z := 1.
Definition precOr : Z := 2.
Definition precAnd : Z := 3.
Definition precEquality : Z := 4.
Definition precComparison : Z := 5.
Definition precTerm : Z := 6.
Definition precFactor : Z := 7.
Definition precUnary : Z := 8.
Definition precCall : Z := 9.
Definition precPrimary : Z := 10.

(** The methods a parse rule may hold. *)
Inductive parseFn : Type :=
| fn_literal | fn_grouping | fn_unary | fn_binary | fn_number.

(** A [nil] function is [None]. *)
Record parseRule : Type := mkRule {
  prefix : option parseFn;
  infix : option parseFn;
  precedence : Z
}.

Record compiler : Type := mkCompiler {
  c_scanner : scanner;
  c_current : Token;
  c_previous : Token
}.

(** The map [c.parseRules] that [newCompiler] builds. *)
Definition parseRules (typ : TokenType) : option parseRule :=
  match typ with
  | TokenEOF => Some (mkRule None None precNone)
  | TokenNil => Some (mkRule (Some fn_literal) None precNone)
  | TokenFalse => Some (mkRule (Some fn_literal) None precNone)
  | TokenTrue => Some (mkRule (Some fn_literal) None precNone)
  | TokenLeftParen => Some (mkRule (Some fn_grouping) None precNone)
  | TokenRightParen => Some (mkRule None None precNone)
  | TokenPlus => Some (mkRule (Some fn_unary) (Some fn_binary) precTerm)
  | TokenMinus => Some (mkRule (Some fn_unary) (Some fn_binary) precTerm)
  | TokenStar => Some (mkRule (Some fn_unary) (Some fn_binary) precFactor)
  | TokenSlash => Some (mkRule (Some fn_unary) (Some fn_binary) precFactor)
  | TokenEqualEqual => Some (mkRule None (Some fn_binary) precEquality)
  | TokenGreater => Some (mkRule None (Some fn_binary) precComparison)
  | TokenLess => Some (mkRule None (Some fn_binary) precComparison)
  | TokenBang => Some (mkRule (Some fn_unary) None precNone)
  | TokenNumber => Some (mkRule (Some fn_number) None precNone)
  | _ => None
  end.

Definition literalOps (typ : TokenType) : option Op :=
  match typ with
  | TokenNil => Some OpNil
  | TokenFalse => Some OpFalse
  | TokenTrue => Some OpTrue
  | _ => None
  end.

Definition unaryOps (typ : TokenType) : option Op :=
  match typ with
  | TokenMinus => Some OpNegate
  | TokenBang => Some OpNot
  | _ => None
  end.

Definition binaryOps (typ : TokenType) : option Op :=
  match typ with
  | TokenPlus => Some OpAdd
  | TokenMinus => Some OpSubtract
  | TokenStar => Some OpMultiply
  | TokenSlash => Some OpDivide
  | TokenEqualEqual => Some OpEqual
  | TokenGreater => Some OpGreater
  | TokenLess => Some OpLess
  | _ => None
  end.

Module Compiler.

(** The state the methods work on: the compiler and the chunk they are
    handed. *)
Definition state : Type := (compiler * Chunk)%type.

Definition newCompiler : compiler :=
  mkCompiler (Scanner.newScanner "") zeroToken zeroToken.

Definition getParseRule (typ : TokenType) : outcome parseRule :=
  match parseRules typ with
  | Some rule => Ok rule
  | None => Err ("unknown token type: " ++ TokenType_String typ)
  end.

Definition literal (st : state) : outcome state :=
  let '(c, chunk) := st in
  let typ := t_typ (c_previous c) in
  match literalOps typ with
  | None => Err ("unknown literal token: " ++ TokenType_String typ)
  | Some op => Ok (c, addOp chunk op)
  end.

Definition number (st : state) : outcome state :=
  let '(c, chunk) := st in
  f <- ParseFloat (t_data (c_previous c)) ;;
  let val := numberValue f in
  let '(chunk, index) := addVal chunk val in
  if 255 <? index then Err "too many constants"
  else
    let chunk := addOp chunk OpConstant in
    let chunk := addByte chunk (index mod 256) in
    Ok (c, chunk).

Section WithUnicode.
Context {U : UnicodeTables}.

Definition advance (c : compiler) : outcome compiler :=
  '(t, s) <- Scanner.nextToken (c_scanner c) ;;
  Ok (mkCompiler s t (c_current c)).

Definition consume (typ : TokenType) (c : compiler) : outcome compiler :=
  if negb (TokenType_eqb (t_typ (c_current c)) typ) then
    Err ("expected " ++ TokenType_String typ ++ ", got "
           ++ TokenType_String (t_typ (c_current c)))
  else advance c.

Section Handlers.
(** [c.parse], for the methods that call it back. *)
Variable parse : Z -> state -> outcome state.

Definition expression (st : state) : outcome state :=
  parse precAssignment st.

Definition grouping (st : state) : outcome state :=
  '(c, chunk) <- expression st ;;
  c <- consume TokenRightParen c ;;
  Ok (c, chunk).

Definition unary (st : state) : outcome state :=
  let typ := t_typ (c_previous (fst st)) in
  '(c, chunk) <- parse precUnary st ;;
  match unaryOps typ with
  | None => Err ("unknown unary op: " ++ TokenType_String typ)
  | Some op => Ok (c, addOp chunk op)
  end.

Definition binary (st : state) : outcome state :=
  let typ := t_typ (c_previous (fst st)) in
  rule <- getParseRule typ ;;
  '(c, chunk) <- parse ((precedence rule + 1) mod 256) st ;;
  match binaryOps typ with
  | None => Err ("unknown binary op: " ++ TokenType_String typ)
  | Some op => Ok (c, addOp chunk op)
  end.

(** Calling the function a rule holds. *)
Definition call (fn : parseFn) (st : state) : outcome state :=
  match fn with
  | fn_literal => literal st
  | fn_grouping => grouping st
  | fn_unary => unary st
  | fn_binary => binary st
  | fn_number => number st
  end.

End Handlers.

(** [parse] and the [for] loop that ends it.  [fuel] bounds the depth of
    the calls and the turns of the loops together. *)
Fixpoint parse (fuel : nat) (prec : Z) (st : state) {struct fuel}
  : outcome state :=
  match fuel with
  | O => OutOfFuel
  | S fuel' =>
      let '(c, chunk) := st in
      c <- advance c ;;
      rule <- getParseRule (t_typ (c_previous c)) ;;
      match prefix rule with
      | None => Err "syntax error"
      | Some fn =>
          st <- call (parse fuel') fn (c, chunk) ;;
          parse_loop fuel' prec st
      end
  end
with parse_loop (fuel : nat) (prec : Z) (st : state) {struct fuel}
  : outcome state :=
  match fuel with
  | O => OutOfFuel
  | S fuel' =>
      let '(c, chunk) := st in
      rule <- getParseRule (t_typ (c_current c)) ;;
      if precedence rule <? prec then Ok st
      else
        c <- advance c ;;
        match infix rule with
        | None => Panic NilFunction
        | Some fn =>
            st <- call (parse fuel') fn (c, chunk) ;;
            parse_loop fuel' prec st
        end
  end.

(** The loop of [compile]: [turns] bounds its turns, [fuel] is handed to
    each [expression]. *)
Fixpoint compile_loop (turns fuel : nat) (st : state) : outcome state :=
  match turns with
  | O => OutOfFuel
  | S turns' =>
      let t := c_current (fst st) in
      match t_typ t with
      | TokenError => Err (itoa (t_line t) ++ ": " ++ t_data t)
      | TokenEOF => Ok st
      | _ =>
          st <- expression (parse fuel) st ;;
          compile_loop turns' fuel st
      end
  end.

Definition compile (fuel : nat) (source : string) : outcome Chunk :=
  let chunk := emptyChunk in
  let c := mkCompiler (Scanner.newScanner source) zeroToken zeroToken in
  c <- advance c ;;
  '(_, chunk) <- compile_loop fuel fuel (c, chunk) ;;
  Ok (addOp chunk OpReturn).

(** [interpret] of the entry point: compile, then run. *)
Definition interpret (fuel : nat) (source : string)
  : logged (list output) unit :=
  chunk <- compile fuel source logging [] ;;
  VM.run chunk.

End WithUnicode.
End Compiler.

(** ** Notions the properties are stated with *)

(** Every [OpConstant] of the code is followed by its operand byte, and
    the operand is an index of the constant pool of [n] values.  The code
    is read as the VM reads it: an [OpConstant] takes two bytes, any other
    byte one. *)
Fixpoint constants_in_range (n : nat) (code : list Z) : bool :=
  match code with
  | [] => true
  | op :: rest =>
      match Op_of_byte op with
      | Some OpConstant =>
          match rest with
          | [] => false
          | operand :: rest' =>
              (0 <=? operand) && (operand <? Z.of_nat n)
              && constants_in_range n rest'
          end
      | _ => constants_in_range n rest
      end
  end.

Definition chunk_constants_ok (c : Chunk) : bool :=
  constants_in_range (List.length (ch_vals c)) (ch_code c).

(** The same, as the instructions are laid down one after the other. *)
Inductive code_ok (n : nat) : list Z -> Prop :=
| code_ok_nil : code_ok n []
| code_ok_op (op : Z) (rest : list Z) :
    Op_of_byte op <> Some OpConstant ->
    code_ok n rest -> code_ok n (op :: rest)
| code_ok_constant (operand : Z) (rest : list Z) :
    0 <= operand < Z.of_nat n ->
    code_ok n rest -> code_ok n (Op_byte OpConstant :: operand :: rest).

Definition chunk_ok (c : Chunk) : Prop :=
  code_ok (List.length (ch_vals c)) (ch_code c).

(** The source [0 1 2 ... (n-1)]: [n] different number literals. *)
Fixpoint numerals (n : nat) : string :=
  match n with
  | O => ""
  | S k => numerals k ++ itoa k ++ " "
  end.

(** The compiler of a source after the two [advance] that put its first
    token in [previous]: where a prefix method starts. *)
Definition after_first_token {U : UnicodeTables} (source : string)
  : outcome compiler :=
  c <- Compiler.advance
         (mkCompiler (Scanner.newScanner source) zeroToken zeroToken) ;;
  Compiler.advance c.

(** The source of two bytes [0xC3 0xA9] (U+00E9) followed by [1]: three
    bytes, two runes. *)
Definition e_acute_one : string :=
  String (ascii_of_nat 195) (String (ascii_of_nat 169) "1").

(** A line comment, a newline, and a number. *)
Definition comment_then_one : string :=
  "//c" ++ String (ascii_of_nat 10) "1".

(** Range tables with nothing above Latin-1, to run closed examples on
    ASCII sources, which never consult them. *)
Definition latin1_tables : UnicodeTables :=
  {| isExcludingLatin_Digit := fun _ => false;
     isExcludingLatin_Letter := fun _ => false |}.

(** An operator that answers by the guard [v.typ == ValueNumber && w.typ ==
    ValueNumber]: the shape shared by the four arithmetic operators and the
    two comparisons. *)
Definition guarded (A : Type) (wrap : A -> Value) (f : float -> float -> A)
  (v w : Value) : outcome Value :=
  if bothNumbers v w then
    a <- asNumber v ;; b <- asNumber w ;; Ok (wrap (f a b))
  else Err "type mismatch".

(** A method of the compiler keeps the chunk well formed. *)
Definition preserves (f : Compiler.state -> outcome Compiler.state) : Prop :=
  forall st st' : Compiler.state,
    f st = Ok st' -> chunk_ok (snd st) -> chunk_ok (snd st').

(** The depth of the operand stack after one instruction run at depth
    [d]; [None] when it would pop more than the stack holds. *)
Definition op_effect (op : Op) (d : nat) : option nat :=
  match op with
  | OpConstant | OpNil | OpFalse | OpTrue => Some (S d)
  | OpNegate | OpNot => if (1 <=? d)%nat then Some d else None
  | OpAdd | OpSubtract | OpMultiply | OpDivide | OpEqual | OpGreater | OpLess =>
      if (2 <=? d)%nat then Some (d - 1)%nat else None
  | OpReturn => if (1 <=? d)%nat then Some (d - 1)%nat else None
  end.

(** The depth of the operand stack after [code], run from depth [d]
    against a pool of [n] constants; [None] when an instruction would pop
    more than the stack holds, when an [OpConstant] lacks its operand or
    points outside the pool, and on a byte that is no opcode. *)
Fixpoint stack_effect (n : nat) (code : list Z) (d : nat) : option nat :=
  match code with
  | [] => Some d
  | b :: rest =>
      match Op_of_byte b with
      | None => None
      | Some OpConstant =>
          match rest with
          | [] => None
          | operand :: rest' =>
              if (0 <=? operand) && (operand <? Z.of_nat n)
              then stack_effect n rest' (S d)
              else None
          end
      | Some op =>
          match op_effect op d with
          | Some d' => stack_effect n rest d'
          | None => None
          end
      end
  end.

(** An outcome other than a panic of an index expression. *)
Definition no_index_panic {A : Type} (m : outcome A) : Prop :=
  forall (i : Z) (k : nat), m <> Panic (IndexOutOfRange i k).

(** An outcome that is a result, an error, or the panic of a type
    assertion. *)
Definition benign {A : Type} (m : outcome A) : Prop :=
  match m with
  | Ok _ | Err _ | Panic (InterfaceConversion _ _) => True
  | _ => False
  end.

(** An outcome as the operators give it on well-formed values: a result
    that satisfies [P], the error "type mismatch", or the panic of a
    failed assertion to [float64] on a [nil] or on a [bool].  The panics
    of index expressions and the want of fuel are left to [benign]. *)
Definition within {A : Type} (P : A -> Prop) (m : outcome A) : Prop :=
  match m with
  | Ok a => P a
  | Err msg => msg = "type mismatch"
  | Panic (InterfaceConversion held wanted) =>
      (held = "nil" \/ held = "bool") /\ wanted = "float64"
  | Panic _ | OutOfFuel => True
  end.

(** An outcome other than running out of fuel. *)
Definition total {A : Type} (m : outcome A) : Prop := m <> OutOfFuel.

(** The operators of [binaryOps] take two values and leave one. *)
Definition is_binary (op : Op) : Prop :=
  match op with
  | OpAdd | OpSubtract | OpMultiply | OpDivide | OpEqual | OpGreater | OpLess =>
      True
  | _ => False
  end.

(** Code that pushes one value, whatever the depth it starts from: the
    code of an expression. *)
Definition pushes (n : nat) (e : list Z) : Prop :=
  forall d : nat, stack_effect n e d = Some (S d).

(** Code that runs with a value on the stack and leaves one: what the
    loop of [parse] adds after a left operand. *)
Definition keeps (n : nat) (e : list Z) : Prop :=
  forall d : nat, stack_effect n e (S d) = Some (S d).

(** A method of the compiler only appends to the code, a code that has
    the property [P] against the constant pool it leaves, and never
    shrinks the pool. *)
Definition appends (P : nat -> list Z -> Prop)
  (f : Compiler.state -> outcome Compiler.state) : Prop :=
  forall st st' : Compiler.state,
    f st = Ok st' ->
    exists e : list Z,
      ch_code (snd st') = (ch_code (snd st) ++ e)%list
      /\ (List.length (ch_vals (snd st)) <= List.length (ch_vals (snd st')))%nat
      /\ P (List.length (ch_vals (snd st'))) e.

(** A value as [nilValue], [boolValue] and [numberValue] build it: the
    payload is what the tag announces. *)
Definition wellformed (v : Value) : Prop :=
  match v_typ v, v_data v with
  | ValueNil, INil | ValueBool, IBool _ | ValueNumber, IFloat _ => True
  | _, _ => False
  end.

(** The cursor of a scanner is inside its source. *)
Definition inbounds (s : scanner) : Prop :=
  (s_current s <= String.length (s_source s))%nat.

(** [s'] is [s] moved forward: the same source and token start, the
    cursor and the line not before where they were, the cursor still
    inside the source. *)
Definition extends (s s' : scanner) : Prop :=
  s_source s' = s_source s
  /\ s_start s' = s_start s
  /\ (s_current s <= s_current s')%nat
  /\ (s_current s' <= String.length (s_source s))%nat
  /\ (s_line s <= s_line s')%nat.

(** A source of ASCII bytes only. *)
Fixpoint is_ascii (s : string) : bool :=
  match s with
  | EmptyString => true
  | String c t => (byte_val c <? 0x80) && is_ascii t
  end.

(** The token is cut out of the source between the token start and the
    cursor of [s'], on the line of [s']. *)
Definition token_of (t : Token) (s' : scanner) : Prop :=
  t_line t = (s_line s' + 1)%nat
  /\ t_data t
     = substring (s_start s') (s_current s' - s_start s') (s_source s').

(** The number of [OpReturn] instructions of a code, read as the VM reads
    it. *)
Fixpoint returns_in (code : list Z) : nat :=
  match code with
  | [] => 0%nat
  | b :: rest =>
      match Op_of_byte b with
      | Some OpConstant =>
          match rest with
          | [] => 0%nat
          | _ :: rest' => returns_in rest'
          end
      | Some OpReturn => S (returns_in rest)
      | _ => returns_in rest
      end
  end.

(** The constant pool as the compiler fills it: at most 256 values, all
    of them numbers. *)
Definition pool_ok (c : Chunk) : Prop :=
  (List.length (ch_vals c) <= 256)%nat
  /\ Forall (fun v => exists f : float, v = numberValue f) (ch_vals c).

(** The chunk while it is compiled: well-formed code without [OpReturn],
    over a pool as above. *)
Definition building (c : Chunk) : Prop :=
  chunk_ok c /\ returns_in (ch_code c) = 0%nat /\ pool_ok c.

(** A method of the compiler keeps the chunk as [building] wants it. *)
Definition builds (f : Compiler.state -> outcome Compiler.state) : Prop :=
  forall st st' : Compiler.state,
    f st = Ok st' -> building (snd st) -> building (snd st').

(** The number of instructions of a code, read as the VM reads it. *)
Fixpoint instructions (code : list Z) : nat :=
  match code with
  | [] => 0%nat
  | b :: rest =>
      match Op_of_byte b with
      | Some OpConstant =>
          match rest with
          | [] => 1%nat
          | _ :: rest' => S (instructions rest')
          end
      | _ => S (instructions rest)
      end
  end.

(** The source [//] followed by U+00E9 twice: six bytes, four runes. *)
Definition comment_of_two_e_acute : string :=
  "//" ++ String (ascii_of_nat 195) (String (ascii_of_nat 169)
            (String (ascii_of_nat 195) (String (ascii_of_nat 169) ""))).

(** ** Properties of the value model *)

Lemma ValueType_eqb_eq (a b : ValueType) : ValueType_eqb a b = true <-> a = b.
Proof. destruct a, b; simpl; split; intro H; try reflexivity; discriminate H. Qed.

Lemma bothNumbers_true (v w : Value) :
  bothNumbers v w = true <-> v_typ v = ValueNumber /\ v_typ w = ValueNumber.
Proof.
  unfold bothNumbers. rewrite andb_true_iff, !ValueType_eqb_eq. tauto.
Qed.

Lemma guarded_mismatch (A : Type) (wrap : A -> Value) (f : float -> float -> A)
  (v w : Value) :
  guarded A wrap f v w = Err "type mismatch"
  <-> ~ (v_typ v = ValueNumber /\ v_typ w = ValueNumber).
Proof.
  unfold guarded. rewrite <- bothNumbers_true.
  destruct (bothNumbers v w).
  - split; [| intro H; exfalso; apply H; reflexivity ].
    unfold asNumber.
    destruct (v_data v); simpl; try discriminate;
      destruct (v_data w); simpl; discriminate.
  - split; [ intros _ H; discriminate H | reflexivity ].
Qed.

Lemma guarded_numbers (A : Type) (wrap : A -> Value) (f : float -> float -> A)
  (x y : float) :
  guarded A wrap f (numberValue x) (numberValue y) = Ok (wrap (f x y)).
Proof. reflexivity. Qed.

(** C3, as amended.  [negateValue] asserts the payload to be a float64
    and never looks at the tag.  On a Number as [numberValue] builds it,
    and on every well-formed value tagged Number, it succeeds and gives
    the payload negated; it does the same on a float64 payload under any
    other tag, its result is the same whatever the tag, it succeeds
    exactly when the payload is a float64 and panics on the assertion
    otherwise; on a value of any tag it never returns an error. *)
Theorem negateValue_number_only :
  (forall f : float, negateValue (numberValue f) = Ok (numberValue (- f)%float))
  /\ (forall v : Value,
        wellformed v -> v_typ v = ValueNumber ->
        exists f : float,
          v = numberValue f /\ negateValue v = Ok (numberValue (- f)%float))
  /\ (forall (t : ValueType) (f : float),
        negateValue (mkValue t (IFloat f)) = Ok (numberValue (- f)%float))
  /\ (forall (t t' : ValueType) (d : iface),
        negateValue (mkValue t d) = negateValue (mkValue t' d))
  /\ (forall v : Value,
        (exists r : Value, negateValue v = Ok r)
        <-> (exists f : float, v_data v = IFloat f))
  /\ (forall v : Value,
        (forall f : float, v_data v <> IFloat f) ->
        negateValue v
        = Panic (InterfaceConversion (iface_type (v_data v)) "float64"))
  /\ (forall (v : Value) (msg : string), negateValue v <> Err msg).
Proof.
  split; [ intro f; reflexivity | ].
  split.
  { intros [t d] Hwf Ht. simpl in Ht. subst t.
    destruct d as [| b | f]; try contradiction.
    exists f. split; reflexivity. }
  split; [ intros t f; reflexivity | ].
  split; [ intros t t' d; reflexivity | ].
  split.
  { intro v. unfold negateValue, asNumber. split.
    - intros [r H]. destruct (v_data v) as [| b | f]; try discriminate H.
      exists f. reflexivity.
    - intros [f ->]. eexists. reflexivity. }
  split.
  { intros v H. unfold negateValue, asNumber.
    destruct (v_data v) as [| b | f]; try reflexivity.
    exfalso. exact (H f eq_refl). }
  intros v msg. unfold negateValue, asNumber.
  destruct (v_data v); simpl; discriminate.
Qed.

(** C3, refuted as stated: on [nil] and on a boolean the assertion
    [v.data.(float64)] panics, so [negateValue] gives no number. *)
Lemma negateValue_nil_panics :
  negateValue nilValue = Panic (InterfaceConversion "nil" "float64")
  /\ negateValue (boolValue true) = Panic (InterfaceConversion "bool" "float64")
  /\ ~ (exists r : Value, negateValue nilValue = Ok r).
Proof.
  split; [ reflexivity | split; [ reflexivity | ] ].
  intros [r H]. discriminate H.
Qed.

(** C6.  Each of [addValues], [subtractValues], [multiplyValues],
    [divideValues], [valueGreater] and [valueLess] returns the error
    "type mismatch" exactly when one of its operands is not tagged as a
    Number; [divideValues] of two Numbers is the float quotient, an
    infinity or a NaN when the divisor is zero, and never an error. *)
Theorem binary_operators_type_mismatch :
  (forall a b : Value,
      let mismatch := ~ (v_typ a = ValueNumber /\ v_typ b = ValueNumber) in
      (addValues a b = Err "type mismatch" <-> mismatch)
      /\ (subtractValues a b = Err "type mismatch" <-> mismatch)
      /\ (multiplyValues a b = Err "type mismatch" <-> mismatch)
      /\ (divideValues a b = Err "type mismatch" <-> mismatch)
      /\ (valueGreater a b = Err "type mismatch" <-> mismatch)
      /\ (valueLess a b = Err "type mismatch" <-> mismatch))
  /\ (forall x y : float,
        divideValues (numberValue x) (numberValue y) = Ok (numberValue (x / y)%float))
  /\ divideValues (numberValue 1) (numberValue 0) = Ok (numberValue infinity)
  /\ divideValues (numberValue 0) (numberValue 0) = Ok (numberValue nan).
Proof.
  split; [ | split; [ | split ] ]; try reflexivity.
  intros a b mismatch. subst mismatch.
  repeat split;
    first
      [ apply (proj1 (guarded_mismatch _ numberValue _ a b))
      | apply (proj2 (guarded_mismatch _ numberValue _ a b))
      | apply (proj1 (guarded_mismatch _ boolValue (fun x y => (y <? x)%float) a b))
      | apply (proj2 (guarded_mismatch _ boolValue (fun x y => (y <? x)%float) a b))
      | apply (proj1 (guarded_mismatch _ boolValue (fun x y => (x <? y)%float) a b))
      | apply (proj2 (guarded_mismatch _ boolValue (fun x y => (x <? y)%float) a b)) ].
Qed.

(** ** Properties of the scanner *)

(** The rune count never exceeds the byte count: past the guard of
    [runeAt] the slice [s.source[index:]] is within bounds. *)
Lemma countRunes_le (fuel : nat) (s : string) :
  (countRunes fuel s <= fuel)%nat.
Proof.
  revert s. induction fuel as [| fuel IH]; intro s; simpl.
  - lia.
  - destruct s; [ lia | ].
    specialize (IH (string_drop (snd (DecodeRuneInString (String a s))) (String a s))).
    lia.
Qed.

Lemma RuneCountInString_le_length (s : string) :
  (RuneCountInString s <= String.length s)%nat.
Proof. apply countRunes_le. Qed.

(** C7.  The guard of [runeAt] compares a byte offset with a count of
    runes.  In the three-byte source [e_acute_one] the offset 2 is inside
    the source, [isEOF] says so, and [runeAt] already reports the end of
    the input there: the rune [1] at that offset is never read. *)
Theorem runeAt_guard_mixes_units :
  exists (source : string) (offset : nat),
    let s := mkScanner source 0 offset 0 in
    (offset < String.length source)%nat
    /\ (RuneCountInString source < String.length source)%nat
    /\ Scanner.isEOF s = false
    /\ Scanner.runeAt s offset = (-1, 0%nat)
    /\ DecodeRuneInString (string_drop offset source) = (rune "1", 1%nat).
Proof.
  exists e_acute_one, 2%nat. vm_compute. repeat split; lia.
Qed.

Section ScannerProperties.
Context {U : UnicodeTables}.

(** C2, on the source [comment_then_one].  The comment is skipped up to
    the newline, then the loop of [skipWhitespace] is left: the newline
    is not skipped and comes out as an Error token, on line 1, before the
    number; the compiler fails on it.  In general, on a comment the loop
    of [skipWhitespace] does [skipUntilNewLine] and nothing after it. *)
Theorem comment_then_newline_is_error_token :
  Scanner.tokens 5 comment_then_one
  = Ok [ mkToken TokenError 1 (String (ascii_of_nat 10) "");
         mkToken TokenNumber 1 "1";
         mkToken TokenEOF 1 "" ]
  /\ Scanner.skipWhitespace (Scanner.newScanner comment_then_one)
     = Ok (mkScanner comment_then_one 0 3 0)
  /\ Compiler.compile 5 comment_then_one
     = Err ("1: " ++ String (ascii_of_nat 10) "")
  /\ (forall (s : scanner) (fuel size size' : nat),
        Scanner.currentRune s = (rune "/", size) ->
        Scanner.runeAt s (s_current s + size) = (rune "/", size') ->
        Scanner.skipWhitespace_loop (S fuel) s = Scanner.skipUntilNewLine s).
Proof.
  do 3 (split; [ vm_compute; reflexivity | ]).
  intros s fuel size size' H H'.
  cbn [Scanner.skipWhitespace_loop]. rewrite H. cbv beta iota.
  change (rune "/" =? rune " ") with false.
  change (rune "/" =? rune_return) with false.
  change (rune "/" =? rune_tab) with false.
  change (rune "/" =? rune_newline) with false.
  change (rune "/" =? rune "/") with true.
  cbn [orb]. cbv iota. rewrite H'. reflexivity.
Qed.

(** A comment that runs to the end of the source is skipped. *)
Example comment_at_end_is_skipped :
  Scanner.tokens 5 "1 //c"
  = Ok [ mkToken TokenNumber 1 "1"; mkToken TokenEOF 1 "" ].
Proof. vm_compute. reflexivity. Qed.

End ScannerProperties.

(** ** The constants of a compiled chunk *)

Lemma code_ok_app_op (n : nat) (code : list Z) (op : Op) :
  op <> OpConstant -> code_ok n code -> code_ok n (code ++ [Op_byte op])%list.
Proof.
  intros Hop H. induction H; simpl.
  - apply code_ok_op; [ | constructor ].
    destruct op; [ congruence | .. ]; intro E; vm_compute in E; discriminate E.
  - apply code_ok_op; assumption.
  - apply code_ok_constant; assumption.
Qed.

Lemma code_ok_app_constant (n : nat) (code : list Z) (operand : Z) :
  0 <= operand < Z.of_nat n -> code_ok n code ->
  code_ok n (code ++ [Op_byte OpConstant; operand])%list.
Proof.
  intros Hi H. induction H; simpl.
  - apply code_ok_constant; [ assumption | constructor ].
  - apply code_ok_op; assumption.
  - apply code_ok_constant; assumption.
Qed.

Lemma code_ok_weaken (n m : nat) (code : list Z) :
  (n <= m)%nat -> code_ok n code -> code_ok m code.
Proof.
  intros Hnm H. induction H.
  - constructor.
  - apply code_ok_op; assumption.
  - apply code_ok_constant; [ lia | assumption ].
Qed.

Lemma code_ok_constants_in_range (n : nat) (code : list Z) :
  code_ok n code -> constants_in_range n code = true.
Proof.
  intro H. induction H; simpl.
  - reflexivity.
  - destruct (Op_of_byte op) as [[]|]; try assumption. congruence.
  - rewrite IHcode_ok.
    destruct (Z.leb_spec 0 operand); [ | lia ].
    destruct (Z.ltb_spec operand (Z.of_nat n)); [ reflexivity | lia ].
Qed.

(** Splitting [x <- m ;; k = Ok r] into its two steps. *)
Lemma bind_Ok {A B : Type} (m : outcome A) (k : A -> outcome B) (r : B) :
  bind m k = Ok r -> exists a : A, m = Ok a /\ k a = Ok r.
Proof.
  destruct m; simpl; intro H; try discriminate H.
  exists a. split; [ reflexivity | assumption ].
Qed.

Ltac bind_inv H :=
  let a := fresh "a" in
  let Ha := fresh "Ha" in
  apply bind_Ok in H; destruct H as [a [Ha H]].

Lemma addOp_ok (chunk : Chunk) (op : Op) :
  op <> OpConstant -> chunk_ok chunk -> chunk_ok (addOp chunk op).
Proof.
  intros Hop H. unfold chunk_ok, addOp, addByte. simpl.
  apply code_ok_app_op; assumption.
Qed.

Lemma literal_preserves : preserves Compiler.literal.
Proof.
  intros [c chunk] st' H Hok. unfold Compiler.literal in H.
  destruct (literalOps (t_typ (c_previous c))) as [op |] eqn:Eop;
    [ | discriminate H ].
  injection H as <-. simpl.
  apply addOp_ok; [ | assumption ].
  destruct (t_typ (c_previous c)); simpl in Eop; congruence.
Qed.

Lemma number_preserves : preserves Compiler.number.
Proof.
  intros [c chunk] st' H Hok. unfold Compiler.number in H.
  bind_inv H. unfold addVal in H.
  set (vals := (ch_vals chunk ++ [numberValue a])%list) in H.
  set (index := Z.of_nat (List.length vals) - 1) in H.
  destruct (Z.ltb_spec 255 index) as [Hbig | Hsmall]; [ discriminate H | ].
  injection H as <-.
  assert (Hlen : List.length vals = S (List.length (ch_vals chunk))).
  { unfold vals. rewrite length_app. simpl. lia. }
  assert (Hidx : 0 <= index < Z.of_nat (List.length vals)) by (unfold index; lia).
  unfold chunk_ok, addOp, addByte. simpl.
  rewrite <- app_assoc. simpl.
  rewrite Z.mod_small by lia.
  apply (code_ok_app_constant (List.length vals) (ch_code chunk) index Hidx).
  apply (code_ok_weaken (List.length (ch_vals chunk))); [ lia | exact Hok ].
Qed.

Section CompilerInvariant.
Context {U : UnicodeTables}.

Section HandlersPreserve.
Variable parse : Z -> Compiler.state -> outcome Compiler.state.
Hypothesis parse_preserves : forall prec : Z, preserves (parse prec).

Lemma grouping_preserves : preserves (Compiler.grouping parse).
Proof.
  intros st st' H Hok. unfold Compiler.grouping, Compiler.expression in H.
  bind_inv H. destruct a as [c chunk].
  bind_inv H. injection H as <-. simpl.
  exact (parse_preserves _ _ _ Ha Hok).
Qed.

Lemma unary_preserves : preserves (Compiler.unary parse).
Proof.
  intros st st' H Hok. unfold Compiler.unary in H.
  bind_inv H. destruct a as [c chunk].
  destruct (unaryOps (t_typ (c_previous (fst st)))) as [op |] eqn:Eop;
    [ | discriminate H ].
  injection H as <-. simpl.
  apply addOp_ok.
  - destruct (t_typ (c_previous (fst st))); simpl in Eop; congruence.
  - exact (parse_preserves _ _ _ Ha Hok).
Qed.

Lemma binary_preserves : preserves (Compiler.binary parse).
Proof.
  intros st st' H Hok. unfold Compiler.binary in H.
  bind_inv H. bind_inv H. destruct a0 as [c chunk].
  destruct (binaryOps (t_typ (c_previous (fst st)))) as [op |] eqn:Eop;
    [ | discriminate H ].
  injection H as <-. simpl.
  apply addOp_ok.
  - destruct (t_typ (c_previous (fst st))); simpl in Eop; congruence.
  - exact (parse_preserves _ _ _ Ha0 Hok).
Qed.

Lemma call_preserves (fn : parseFn) : preserves (Compiler.call parse fn).
Proof.
  destruct fn; simpl.
  - exact literal_preserves.
  - exact grouping_preserves.
  - exact unary_preserves.
  - exact binary_preserves.
  - exact number_preserves.
Qed.

End HandlersPreserve.

Lemma parse_and_loop_preserve (fuel : nat) :
  (forall prec : Z, preserves (Compiler.parse fuel prec))
  /\ (forall prec : Z, preserves (Compiler.parse_loop fuel prec)).
Proof.
  induction fuel as [| fuel [IHparse IHloop]].
  - split; intros prec st st' H; discriminate H.
  - split; intros prec [c chunk] st' H Hok; simpl in H.
    + bind_inv H. bind_inv H.
      destruct (prefix a0) as [fn |]; [ | discriminate H ].
      bind_inv H.
      apply (IHloop prec _ _ H).
      exact (call_preserves (Compiler.parse fuel) IHparse fn _ _ Ha1 Hok).
    + bind_inv H.
      destruct (precedence a <? prec).
      * injection H as <-. exact Hok.
      * bind_inv H.
        destruct (infix a) as [fn |]; [ | discriminate H ].
        bind_inv H.
        apply (IHloop prec _ _ H).
        exact (call_preserves (Compiler.parse fuel) IHparse fn _ _ Ha1 Hok).
Qed.

Lemma compile_loop_preserves (turns fuel : nat) :
  preserves (Compiler.compile_loop turns fuel).
Proof.
  induction turns as [| turns IH]; intros st st' H Hok; simpl in H.
  - discriminate H.
  - destruct (t_typ (c_current (fst st)));
      try discriminate H;
      try (injection H as <-; exact Hok);
      (unfold Compiler.expression in H; bind_inv H;
       apply (IH _ _ H);
       exact (proj1 (parse_and_loop_preserve fuel) _ _ _ Ha Hok)).
Qed.

Lemma compile_chunk_ok (fuel : nat) (source : string) (chunk : Chunk) :
  Compiler.compile fuel source = Ok chunk -> chunk_ok chunk.
Proof.
  unfold Compiler.compile. intro H.
  bind_inv H. bind_inv H. destruct a0 as [c chunk'].
  injection H as <-.
  apply addOp_ok; [ discriminate | ].
  apply (compile_loop_preserves fuel fuel _ _ Ha0).
  constructor.
Qed.

End CompilerInvariant.

(** ** The VM on a chunk whose stack effect is defined *)

Lemma index_Ok {A : Type} (a : list A) (i : nat) (x : A) :
  nth_error a i = Some x -> index a (Z.of_nat i) = Ok x.
Proof.
  intro H. unfold index.
  destruct (Z.ltb_spec (Z.of_nat i) 0); [ lia | ].
  rewrite Nat2Z.id, H. reflexivity.
Qed.

Lemma index_in_range {A : Type} (a : list A) (i : Z) :
  0 <= i < Z.of_nat (List.length a) -> exists x : A, index a i = Ok x.
Proof.
  intro H. unfold index.
  destruct (Z.ltb_spec i 0); [ lia | ].
  destruct (nth_error a (Z.to_nat i)) as [x |] eqn:E.
  - exists x. reflexivity.
  - apply nth_error_None in E. lia.
Qed.

Lemma index_total {A : Type} (a : list A) (i : Z) : index a i <> OutOfFuel.
Proof.
  unfold index. destruct (i <? 0); [ discriminate | ].
  destruct (nth_error a (Z.to_nat i)); discriminate.
Qed.

Lemma skipn_cons (code : list Z) (ip : nat) (b : Z) (rest : list Z) :
  skipn ip code = b :: rest ->
  nth_error code ip = Some b /\ skipn (ip + 1) code = rest
  /\ (ip < List.length code)%nat.
Proof.
  revert code. induction ip as [| ip IH]; intros code H.
  - destruct code as [| c code]; simpl in H; [ discriminate H | ].
    injection H as -> ->. simpl. repeat split. lia.
  - destruct code as [| c code]; simpl in H; [ discriminate H | ].
    destruct (IH code H) as [H1 [H2 H3]].
    simpl. repeat split; [ assumption | assumption | lia ].
Qed.

Lemma pop_nonempty (s : Stack) :
  (1 <= List.length s)%nat ->
  exists (v : Value) (s' : Stack),
    pop s = Ok (v, s') /\ List.length s' = (List.length s - 1)%nat.
Proof.
  intro H. unfold pop.
  destruct (Z.ltb_spec (Z.of_nat (List.length s) - 1) 0); [ lia | ].
  destruct (nth_error s (Z.to_nat (Z.of_nat (List.length s) - 1))) as [v |] eqn:E.
  - exists v, (firstn (Z.to_nat (Z.of_nat (List.length s) - 1)) s).
    split; [ reflexivity | ].
    rewrite length_firstn. lia.
  - apply nth_error_None in E. lia.
Qed.

Lemma push_length (s : Stack) (v : Value) :
  List.length (push s v) = S (List.length s).
Proof. unfold push. rewrite length_app. simpl. lia. Qed.

Lemma asNumber_benign (v : Value) : benign (asNumber v).
Proof. unfold asNumber. destruct (v_data v); exact I. Qed.

Lemma asBool_benign (v : Value) : benign (asBool v).
Proof.
  unfold asBool. destruct (v_typ v); try exact I.
  destruct (v_data v); exact I.
Qed.

Lemma bind_benign {A B : Type} (m : outcome A) (k : A -> outcome B) :
  benign m -> (forall a : A, benign (k a)) -> benign (bind m k).
Proof.
  intros Hm Hk. destruct m as [a | msg | p |]; simpl in *.
  - apply Hk.
  - exact I.
  - destruct p; [ contradiction | exact I | contradiction | contradiction ].
  - contradiction.
Qed.

Create HintDb benign.
#[local] Hint Resolve asNumber_benign asBool_benign : benign.
#[local] Hint Extern 1 (benign (Ok _)) => exact I : benign.
#[local] Hint Extern 1 (benign (Err _)) => exact I : benign.
#[local] Hint Extern 2 (benign (bind _ _)) =>
  apply bind_benign; [ | intro ] : benign.
#[local] Hint Extern 2 (benign (if ?c then _ else _)) => destruct c : benign.

Lemma negateValue_benign (v : Value) : benign (negateValue v).
Proof. unfold negateValue. auto with benign. Qed.

Lemma notValue_benign (v : Value) : benign (notValue v).
Proof. unfold notValue. auto with benign. Qed.

Lemma guarded_benign (A : Type) (wrap : A -> Value) (f : float -> float -> A)
  (v w : Value) : benign (guarded A wrap f v w).
Proof. unfold guarded. auto 6 with benign. Qed.

Lemma valuesEqual_benign (v w : Value) : benign (valuesEqual v w).
Proof.
  unfold valuesEqual.
  destruct (ValueType_eqb (v_typ v) (v_typ w)); [ | exact I ].
  destruct (v_typ v); auto 6 with benign.
Qed.

Lemma unary_safe (stack : Stack) (fn : Value -> outcome Value) :
  (forall v : Value, benign (fn v)) ->
  (1 <= List.length stack)%nat ->
  benign (VM.unary stack fn)
  /\ (forall s' : Stack,
        VM.unary stack fn = Ok s' -> List.length s' = List.length stack).
Proof.
  intros Hfn Hlen. unfold VM.unary.
  destruct (pop_nonempty stack Hlen) as [v [s1 [Hpop Hs1]]].
  rewrite Hpop. simpl.
  specialize (Hfn v). destruct (fn v) as [res | msg | p |]; simpl in *;
    try contradiction.
  - split; [ exact I | ]. intros s' H. injection H as <-.
    rewrite push_length. lia.
  - split; [ exact I | discriminate ].
  - split; [ exact Hfn | discriminate ].
Qed.

Lemma binary_safe (stack : Stack) (fn : Value -> Value -> outcome Value) :
  (forall a b : Value, benign (fn a b)) ->
  (2 <= List.length stack)%nat ->
  benign (VM.binary stack fn)
  /\ (forall s' : Stack,
        VM.binary stack fn = Ok s' ->
        List.length s' = (List.length stack - 1)%nat).
Proof.
  intros Hfn Hlen. unfold VM.binary.
  destruct (pop_nonempty stack) as [b [s1 [Hpop1 Hs1]]]; [ lia | ].
  destruct (pop_nonempty s1) as [a [s2 [Hpop2 Hs2]]]; [ lia | ].
  rewrite Hpop1. simpl. rewrite Hpop2. simpl.
  specialize (Hfn a b). destruct (fn a b) as [res | msg | p |]; simpl in *;
    try contradiction.
  - split; [ exact I | ]. intros s' H. injection H as <-.
    rewrite push_length. lia.
  - split; [ exact I | discriminate ].
  - split; [ exact Hfn | discriminate ].
Qed.

Lemma dispatch_safe (chunk : Chunk) (ip : nat) (stack : Stack)
  (b : Z) (rest : list Z) (d' : nat) :
  skipn ip (ch_code chunk) = b :: rest ->
  stack_effect (List.length (ch_vals chunk)) (b :: rest) (List.length stack)
  = Some d' ->
  benign (VM.dispatch chunk ip stack)
  /\ (forall (ip' : nat) (stack' : Stack) (printed : list string),
        VM.dispatch chunk ip stack = Ok (ip', stack', printed) ->
        stack_effect (List.length (ch_vals chunk))
          (skipn (ip' + 1) (ch_code chunk)) (List.length stack')
        = Some d').
Proof.
  intros Hskip Heff.
  destruct (skipn_cons _ _ _ _ Hskip) as [Hnth [Hrest _]].
  unfold VM.dispatch. rewrite (index_Ok _ _ _ Hnth).
  cbn [bind]. cbn [stack_effect] in Heff.
  destruct (Op_of_byte b) as [op |]; [ | discriminate Heff ].
  destruct op; cbn [op_effect] in Heff;
    try (destruct (1 <=? List.length stack)%nat eqn:Hd;
         [ apply Nat.leb_le in Hd | discriminate Heff ]);
    try (destruct (2 <=? List.length stack)%nat eqn:Hd;
         [ apply Nat.leb_le in Hd | discriminate Heff ]).
  - (* OpConstant *)
    destruct rest as [| operand rest']; [ discriminate Heff | ].
    destruct ((0 <=? operand) && (operand <? Z.of_nat (List.length (ch_vals chunk))))
      eqn:Hrange; [ | discriminate Heff ].
    apply andb_true_iff in Hrange. destruct Hrange as [Hlo Hhi].
    apply Z.leb_le in Hlo. apply Z.ltb_lt in Hhi.
    destruct (skipn_cons _ _ _ _ Hrest) as [Hnth1 [Hrest1 _]].
    rewrite (index_Ok _ _ _ Hnth1). cbn [bind].
    destruct (index_in_range (ch_vals chunk) operand (conj Hlo Hhi)) as [v Hv].
    rewrite Hv. cbn [bind VM.literal].
    split; [ exact I | ].
    intros ip' stack' printed H. injection H as <- <- _.
    rewrite push_length, Hrest1. exact Heff.
  - split; [ exact I | ].
    intros ip' stack' printed H. injection H as <- <- _.
    rewrite push_length, Hrest. exact Heff.
  - split; [ exact I | ].
    intros ip' stack' printed H. injection H as <- <- _.
    rewrite push_length, Hrest. exact Heff.
  - split; [ exact I | ].
    intros ip' stack' printed H. injection H as <- <- _.
    rewrite push_length, Hrest. exact Heff.
  - destruct (unary_safe stack negateValue negateValue_benign Hd) as [Hb Hl].
    split; [ apply bind_benign; [ exact Hb | intro; exact I ] | ].
    intros ip' stack' printed H. bind_inv H. injection H as <- <- _.
    rewrite (Hl _ Ha), Hrest. exact Heff.
  - destruct (unary_safe stack notValue notValue_benign Hd) as [Hb Hl].
    split; [ apply bind_benign; [ exact Hb | intro; exact I ] | ].
    intros ip' stack' printed H. bind_inv H. injection H as <- <- _.
    rewrite (Hl _ Ha), Hrest. exact Heff.
  - destruct (binary_safe stack addValues
                (guarded_benign _ numberValue _) Hd) as [Hb Hl].
    split; [ apply bind_benign; [ exact Hb | intro; exact I ] | ].
    intros ip' stack' printed H. bind_inv H. injection H as <- <- _.
    rewrite (Hl _ Ha), Hrest. exact Heff.
  - destruct (binary_safe stack subtractValues
                (guarded_benign _ numberValue _) Hd) as [Hb Hl].
    split; [ apply bind_benign; [ exact Hb | intro; exact I ] | ].
    intros ip' stack' printed H. bind_inv H. injection H as <- <- _.
    rewrite (Hl _ Ha), Hrest. exact Heff.
  - destruct (binary_safe stack multiplyValues
                (guarded_benign _ numberValue _) Hd) as [Hb Hl].
    split; [ apply bind_benign; [ exact Hb | intro; exact I ] | ].
    intros ip' stack' printed H. bind_inv H. injection H as <- <- _.
    rewrite (Hl _ Ha), Hrest. exact Heff.
  - destruct (binary_safe stack divideValues
                (guarded_benign _ numberValue _) Hd) as [Hb Hl].
    split; [ apply bind_benign; [ exact Hb | intro; exact I ] | ].
    intros ip' stack' printed H. bind_inv H. injection H as <- <- _.
    rewrite (Hl _ Ha), Hrest. exact Heff.
  - destruct (binary_safe stack valuesEqual valuesEqual_benign Hd) as [Hb Hl].
    split; [ apply bind_benign; [ exact Hb | intro; exact I ] | ].
    intros ip' stack' printed H. bind_inv H. injection H as <- <- _.
    rewrite (Hl _ Ha), Hrest. exact Heff.
  - destruct (binary_safe stack valueGreater
                (guarded_benign _ boolValue (fun x y => (y <? x)%float)) Hd)
      as [Hb Hl].
    split; [ apply bind_benign; [ exact Hb | intro; exact I ] | ].
    intros ip' stack' printed H. bind_inv H. injection H as <- <- _.
    rewrite (Hl _ Ha), Hrest. exact Heff.
  - destruct (binary_safe stack valueLess
                (guarded_benign _ boolValue (fun x y => (x <? y)%float)) Hd)
      as [Hb Hl].
    split; [ apply bind_benign; [ exact Hb | intro; exact I ] | ].
    intros ip' stack' printed H. bind_inv H. injection H as <- <- _.
    rewrite (Hl _ Ha), Hrest. exact Heff.
  - (* OpReturn *)
    destruct (pop_nonempty stack Hd) as [v [s1 [Hpop Hs1]]].
    rewrite Hpop. cbn [bind].
    split; [ exact I | ].
    intros ip' stack' printed H. injection H as <- <- _.
    rewrite Hs1, Hrest. exact Heff.
Qed.

Lemma dumpOp_safe (chunk : Chunk) (ip : nat) (b : Z) (rest : list Z)
  (d d' : nat) :
  skipn ip (ch_code chunk) = b :: rest ->
  stack_effect (List.length (ch_vals chunk)) (b :: rest) d = Some d' ->
  exists (line : string) (width : nat), dumpOp chunk ip = (line, Ok width).
Proof.
  intros Hskip Heff.
  destruct (skipn_cons _ _ _ _ Hskip) as [Hnth [Hrest _]].
  unfold dumpOp. rewrite (index_Ok _ _ _ Hnth). cbn [bind_logged].
  cbn [stack_effect] in Heff.
  destruct (Op_of_byte b) as [op |]; [ | discriminate Heff ].
  destruct op; try (eexists; eexists; reflexivity).
  destruct rest as [| operand rest']; [ discriminate Heff | ].
  destruct ((0 <=? operand) && (operand <? Z.of_nat (List.length (ch_vals chunk))))
    eqn:Hrange; [ | discriminate Heff ].
  apply andb_true_iff in Hrange. destruct Hrange as [Hlo Hhi].
  apply Z.leb_le in Hlo. apply Z.ltb_lt in Hhi.
  destruct (skipn_cons _ _ _ _ Hrest) as [Hnth1 _].
  replace (Z.of_nat ip + 1) with (Z.of_nat (ip + 1)) by lia.
  rewrite (index_Ok _ _ _ Hnth1). cbn [bind_logged].
  destruct (index_in_range (ch_vals chunk) operand (conj Hlo Hhi)) as [v Hv].
  rewrite Hv. cbn [bind_logged].
  eexists; eexists; reflexivity.
Qed.

Lemma benign_total {A : Type} (m : outcome A) : benign m -> total m.
Proof. intros H E. rewrite E in H. exact H. Qed.

Lemma pop_total (s : Stack) : total (pop s).
Proof.
  unfold total, pop. destruct (Z.of_nat (List.length s) - 1 <? 0);
    [ discriminate | ].
  destruct (nth_error s (Z.to_nat (Z.of_nat (List.length s) - 1)));
    discriminate.
Qed.

Lemma bind_total {A B : Type} (m : outcome A) (k : A -> outcome B) :
  total m -> (forall a : A, total (k a)) -> total (bind m k).
Proof.
  intros Hm Hk. destruct m as [a | msg | p |]; simpl.
  - apply Hk.
  - discriminate.
  - discriminate.
  - exfalso. apply Hm. reflexivity.
Qed.

Lemma unary_total (stack : Stack) (fn : Value -> outcome Value) :
  (forall v : Value, benign (fn v)) -> total (VM.unary stack fn).
Proof.
  intro Hfn. unfold VM.unary.
  apply bind_total; [ apply pop_total | intros [v s] ].
  apply bind_total; [ apply benign_total, Hfn | intro; discriminate ].
Qed.

Lemma binary_total (stack : Stack) (fn : Value -> Value -> outcome Value) :
  (forall a b : Value, benign (fn a b)) -> total (VM.binary stack fn).
Proof.
  intro Hfn. unfold VM.binary.
  apply bind_total; [ apply pop_total | intros [b s] ].
  apply bind_total; [ apply pop_total | intros [a s'] ].
  apply bind_total; [ apply benign_total, Hfn | intro; discriminate ].
Qed.

Ltac total_step :=
  first
    [ match goal with
      | |- total (Ok _) => unfold total; discriminate
      | |- total (Err _) => unfold total; discriminate
      end
    | apply index_total
    | apply pop_total
    | apply unary_total;
      first [ exact negateValue_benign | exact notValue_benign ]
    | apply binary_total;
      first [ exact valuesEqual_benign
            | exact (guarded_benign _ numberValue _)
            | exact (guarded_benign _ boolValue (fun x y => (y <? x)%float))
            | exact (guarded_benign _ boolValue (fun x y => (x <? y)%float)) ]
    | apply bind_total
    | match goal with |- forall _ : _ * _, _ => intros [? ?] end
    | match goal with |- forall _, _ => intro end
    | progress cbv beta iota ].

(** The [switch] ends, and leaves [ip] where it was or one further. *)
Lemma dispatch_total (chunk : Chunk) (ip : nat) (stack : Stack) :
  total (VM.dispatch chunk ip stack).
Proof.
  unfold VM.dispatch, VM.literal.
  apply bind_total; [ apply index_total | intro op ].
  destruct (Op_of_byte op) as [[] |]; repeat total_step.
Qed.

Lemma dispatch_ip (chunk : Chunk) (ip ip' : nat) (stack stack' : Stack)
  (printed : list string) :
  VM.dispatch chunk ip stack = Ok (ip', stack', printed) -> (ip <= ip')%nat.
Proof.
  unfold VM.dispatch. intro H. bind_inv H.
  destruct (Op_of_byte a) as [[] |]; try discriminate H;
    repeat (let x := fresh "x" in
            let Hx := fresh "Hx" in
            apply bind_Ok in H; destruct H as [x [Hx H]];
            try (destruct x as [? ?]));
    injection H as <- _ _; lia.
Qed.

Lemma dumpOp_total (chunk : Chunk) (ip : nat) :
  total (snd (dumpOp chunk ip)).
Proof.
  unfold dumpOp, total.
  destruct (index (ch_code chunk) (Z.of_nat ip)) as [op | | |] eqn:E0;
    cbn [bind_logged snd]; try discriminate.
  - destruct (Op_of_byte op) as [[] |]; cbn [snd]; try discriminate.
    destruct (index (ch_code chunk) (Z.of_nat ip + 1)) as [val | | |] eqn:E1;
      cbn [bind_logged snd]; try discriminate.
    + destruct (index (ch_vals chunk) val) as [v | | |] eqn:E2;
        cbn [bind_logged snd]; try discriminate.
      exfalso. exact (index_total _ _ E2).
    + exfalso. exact (index_total _ _ E1).
  - exfalso. exact (index_total _ _ E0).
Qed.

(** [len(chunk.code) - ip] turns are enough for the loop of [run]: it
    never stops for want of fuel. *)
Lemma run_loop_fuel (chunk : Chunk) (fuel : nat) :
  forall (ip : nat) (stack : Stack) (out : list output),
    (List.length (ch_code chunk) - ip <= fuel)%nat ->
    total (snd (VM.run_loop fuel chunk ip stack out)).
Proof.
  induction fuel as [| fuel IH]; intros ip stack out Hfuel.
  - simpl. destruct (Nat.leb_spec (List.length (ch_code chunk)) ip);
      [ discriminate | lia ].
  - cbn [VM.run_loop].
    destruct (Nat.leb_spec (List.length (ch_code chunk)) ip) as [Hend | Hin];
      [ discriminate | ].
    pose proof (dumpOp_total chunk ip) as Hdump.
    destruct (dumpOp chunk ip) as [line [w | msg | p |]];
      cbn [bind_logged snd] in *; try discriminate;
      [ | exfalso; apply Hdump; reflexivity ].
    pose proof (dispatch_total chunk ip stack) as Hdisp.
    pose proof (fun ip' s' p => dispatch_ip chunk ip ip' stack s' p) as Hip.
    destruct (VM.dispatch chunk ip stack) as [[[ip' stack'] printed] | msg | p |];
      cbn [bind_logged snd]; try discriminate;
      [ | exfalso; apply Hdisp; reflexivity ].
    specialize (Hip ip' stack' printed eq_refl).
    apply IH. lia.
Qed.

(** X2.  The loop of [run] ends on every chunk, compiled or not: each turn
    moves [ip] forward, so the run stops with a result, an error or a
    panic, never for want of turns. *)
Theorem run_total (chunk : Chunk) : total (snd (VM.run chunk)).
Proof. unfold VM.run. apply run_loop_fuel. lia. Qed.

(** With its stack effect defined, the code from [ip] on runs to its end,
    to a run-time error of an operator, or to the panic of a type
    assertion: no index expression fails, no pop finds the stack empty. *)
Lemma run_loop_safe (chunk : Chunk) (fuel : nat) :
  forall (ip : nat) (stack : Stack) (out : list output) (d' : nat),
    (List.length (ch_code chunk) - ip <= fuel)%nat ->
    stack_effect (List.length (ch_vals chunk)) (skipn ip (ch_code chunk))
      (List.length stack) = Some d' ->
    benign (snd (VM.run_loop fuel chunk ip stack out)).
Proof.
  induction fuel as [| fuel IH]; intros ip stack out d' Hfuel Heff.
  - simpl. destruct (Nat.leb_spec (List.length (ch_code chunk)) ip);
      [ exact I | lia ].
  - cbn [VM.run_loop].
    destruct (Nat.leb_spec (List.length (ch_code chunk)) ip) as [Hend | Hin];
      [ exact I | ].
    destruct (skipn ip (ch_code chunk)) as [| b rest] eqn:Hskip.
    { apply (f_equal (@List.length Z)) in Hskip.
      rewrite length_skipn in Hskip. simpl in Hskip. lia. }
    destruct (dumpOp_safe chunk ip b rest _ _ Hskip Heff) as [line [w Hdump]].
    rewrite Hdump. cbn [bind_logged].
    destruct (dispatch_safe chunk ip stack b rest d' Hskip Heff) as [Hb Hnext].
    pose proof (fun ip' s' p => dispatch_ip chunk ip ip' stack s' p) as Hip.
    destruct (VM.dispatch chunk ip stack) as [[[ip' stack'] printed] | msg | p |];
      cbn [bind_logged snd]; try exact Hb.
    specialize (Hip ip' stack' printed eq_refl).
    apply (IH (ip' + 1)%nat stack' _ d'); [ lia | ].
    exact (Hnext ip' stack' printed eq_refl).
Qed.

(** ** The stack effect of compiled code *)

Lemma stack_effect_app_bounded (n k : nat) :
  forall (c1 c2 : list Z) (d d1 : nat),
    (List.length c1 <= k)%nat ->
    stack_effect n c1 d = Some d1 ->
    stack_effect n (c1 ++ c2) d = stack_effect n c2 d1.
Proof.
  induction k as [| k IH]; intros c1 c2 d d1 Hlen H.
  - destruct c1; [ | simpl in Hlen; lia ].
    simpl in H. injection H as <-. reflexivity.
  - destruct c1 as [| b rest]; [ simpl in H; injection H as <-; reflexivity | ].
    simpl in Hlen. cbn [stack_effect app] in *.
    destruct (Op_of_byte b) as [op |]; [ | discriminate H ].
    destruct op;
      try (destruct (op_effect _ d) as [d0 |]; [ | discriminate H ];
           apply IH; [ lia | exact H ]).
    destruct rest as [| operand rest']; [ discriminate H | ].
    cbn [app]. simpl in Hlen.
    destruct ((0 <=? operand) && (operand <? Z.of_nat n));
      [ | discriminate H ].
    apply IH; [ lia | exact H ].
Qed.

Lemma stack_effect_app (n : nat) (c1 c2 : list Z) (d d1 : nat) :
  stack_effect n c1 d = Some d1 ->
  stack_effect n (c1 ++ c2) d = stack_effect n c2 d1.
Proof. apply (stack_effect_app_bounded n (List.length c1)). lia. Qed.

Lemma stack_effect_mono_bounded (n m k : nat) :
  (n <= m)%nat ->
  forall (c : list Z) (d d1 : nat),
    (List.length c <= k)%nat ->
    stack_effect n c d = Some d1 -> stack_effect m c d = Some d1.
Proof.
  intro Hnm. induction k as [| k IH]; intros c d d1 Hlen H.
  - destruct c; [ exact H | simpl in Hlen; lia ].
  - destruct c as [| b rest]; [ exact H | ].
    simpl in Hlen. cbn [stack_effect] in *.
    destruct (Op_of_byte b) as [op |]; [ | discriminate H ].
    destruct op;
      try (destruct (op_effect _ d) as [d0 |]; [ | discriminate H ];
           apply IH; [ lia | exact H ]).
    destruct rest as [| operand rest']; [ discriminate H | ].
    simpl in Hlen.
    destruct ((0 <=? operand) && (operand <? Z.of_nat n)) eqn:Hrange;
      [ | discriminate H ].
    apply andb_true_iff in Hrange. destruct Hrange as [Hlo Hhi].
    apply Z.ltb_lt in Hhi.
    rewrite Hlo. replace (operand <? Z.of_nat m) with true
      by (symmetry; apply Z.ltb_lt; lia).
    cbn [andb]. apply IH; [ lia | exact H ].
Qed.

Lemma stack_effect_mono (n m : nat) (c : list Z) (d d1 : nat) :
  (n <= m)%nat ->
  stack_effect n c d = Some d1 -> stack_effect m c d = Some d1.
Proof.
  intros Hnm. apply (stack_effect_mono_bounded n m (List.length c) Hnm). lia.
Qed.

Lemma pushes_then_keeps (n m : nat) (e1 e2 : list Z) :
  (n <= m)%nat -> pushes n e1 -> keeps m e2 -> pushes m (e1 ++ e2).
Proof.
  intros Hnm H1 H2 d.
  rewrite (stack_effect_app m e1 e2 d (S d)).
  - apply H2.
  - apply (stack_effect_mono n m); [ exact Hnm | apply H1 ].
Qed.

Lemma keeps_then_keeps (n m : nat) (e1 e2 : list Z) :
  (n <= m)%nat -> keeps n e1 -> keeps m e2 -> keeps m (e1 ++ e2).
Proof.
  intros Hnm H1 H2 d.
  rewrite (stack_effect_app m e1 e2 (S d) (S d)).
  - apply H2.
  - apply (stack_effect_mono n m); [ exact Hnm | apply H1 ].
Qed.

Lemma pushes_then_unary (n : nat) (e : list Z) (op : Op) :
  op = OpNegate \/ op = OpNot -> pushes n e -> pushes n (e ++ [Op_byte op]).
Proof.
  intros Hop H d. rewrite (stack_effect_app n e _ d (S d) (H d)).
  destruct Hop as [-> | ->]; reflexivity.
Qed.

Lemma pushes_then_binary (n : nat) (e : list Z) (op : Op) :
  is_binary op -> pushes n e -> keeps n (e ++ [Op_byte op]).
Proof.
  intros Hop H d. rewrite (stack_effect_app n e _ (S d) (S (S d)) (H (S d))).
  destruct op; try contradiction; reflexivity.
Qed.

Lemma literalOps_pushes (typ : TokenType) (op : Op) (n : nat) :
  literalOps typ = Some op -> pushes n [Op_byte op].
Proof.
  intros H d. destruct typ; simpl in H; try discriminate H;
    injection H as <-; reflexivity.
Qed.

Lemma unaryOps_unary (typ : TokenType) (op : Op) :
  unaryOps typ = Some op -> op = OpNegate \/ op = OpNot.
Proof.
  intro H. destruct typ; simpl in H; try discriminate H;
    injection H as <-; [ left | right ]; reflexivity.
Qed.

Lemma binaryOps_binary (typ : TokenType) (op : Op) :
  binaryOps typ = Some op -> is_binary op.
Proof.
  intro H. destruct typ; simpl in H; try discriminate H;
    injection H as <-; exact I.
Qed.

(** In the table of [newCompiler] a prefix method is never [binary], and
    an infix method is always [binary]. *)
Lemma prefix_is_not_binary (typ : TokenType) (rule : parseRule) :
  parseRules typ = Some rule -> prefix rule <> Some fn_binary.
Proof.
  intro H. destruct typ; simpl in H; try discriminate H;
    injection H as <-; simpl; discriminate.
Qed.

Lemma infix_is_binary (typ : TokenType) (rule : parseRule) (fn : parseFn) :
  parseRules typ = Some rule -> infix rule = Some fn -> fn = fn_binary.
Proof.
  intros H Hfn. destruct typ; simpl in H; try discriminate H;
    injection H as <-; simpl in Hfn; try discriminate Hfn;
    injection Hfn as <-; reflexivity.
Qed.

Lemma getParseRule_Ok (typ : TokenType) (rule : parseRule) :
  Compiler.getParseRule typ = Ok rule -> parseRules typ = Some rule.
Proof.
  unfold Compiler.getParseRule.
  destruct (parseRules typ); intro H; [ | discriminate H ].
  injection H as <-. reflexivity.
Qed.

Lemma literal_appends : appends pushes Compiler.literal.
Proof.
  intros [c chunk] st' H. unfold Compiler.literal in H.
  destruct (literalOps (t_typ (c_previous c))) as [op |] eqn:Eop;
    [ | discriminate H ].
  injection H as <-. exists [Op_byte op]. simpl.
  split; [ reflexivity | split; [ lia | ] ].
  exact (literalOps_pushes _ _ _ Eop).
Qed.

Lemma number_appends : appends pushes Compiler.number.
Proof.
  intros [c chunk] st' H. unfold Compiler.number in H.
  bind_inv H. unfold addVal in H.
  set (vals := (ch_vals chunk ++ [numberValue a])%list) in H.
  set (index := Z.of_nat (List.length vals) - 1) in H.
  destruct (Z.ltb_spec 255 index) as [Hbig | Hsmall]; [ discriminate H | ].
  injection H as <-.
  assert (Hlen : List.length vals = S (List.length (ch_vals chunk))).
  { unfold vals. rewrite length_app. simpl. lia. }
  exists [Op_byte OpConstant; index]. simpl.
  split; [ | split; [ lia | ] ].
  - rewrite <- app_assoc. simpl. rewrite Z.mod_small by (unfold index; lia).
    reflexivity.
  - intro d. cbn [stack_effect]. change (Op_of_byte (Op_byte OpConstant))
      with (Some OpConstant). cbv iota.
    replace ((0 <=? index) && (index <? Z.of_nat (List.length vals))) with true;
      [ reflexivity | ].
    symmetry. apply andb_true_iff. split.
    + apply Z.leb_le. unfold index. lia.
    + apply Z.ltb_lt. unfold index. lia.
Qed.

Section CompilerStackEffect.
Context {U : UnicodeTables}.

Section HandlersAppend.
Variable parse : Z -> Compiler.state -> outcome Compiler.state.
Hypothesis parse_appends : forall prec : Z, appends pushes (parse prec).

Lemma grouping_appends : appends pushes (Compiler.grouping parse).
Proof.
  intros st st' H. unfold Compiler.grouping, Compiler.expression in H.
  bind_inv H. destruct a as [c chunk].
  bind_inv H. injection H as <-. simpl.
  exact (parse_appends _ _ _ Ha).
Qed.

Lemma unary_appends : appends pushes (Compiler.unary parse).
Proof.
  intros st st' H. unfold Compiler.unary in H.
  bind_inv H. destruct a as [c chunk].
  destruct (unaryOps (t_typ (c_previous (fst st)))) as [op |] eqn:Eop;
    [ | discriminate H ].
  injection H as <-.
  destruct (parse_appends _ _ _ Ha) as [e [Hcode [Hvals He]]].
  simpl in *. exists (e ++ [Op_byte op])%list.
  split; [ rewrite Hcode, app_assoc; reflexivity | split; [ exact Hvals | ] ].
  exact (pushes_then_unary _ _ _ (unaryOps_unary _ _ Eop) He).
Qed.

Lemma binary_appends : appends keeps (Compiler.binary parse).
Proof.
  intros st st' H. unfold Compiler.binary in H.
  bind_inv H. bind_inv H. destruct a0 as [c chunk].
  destruct (binaryOps (t_typ (c_previous (fst st)))) as [op |] eqn:Eop;
    [ | discriminate H ].
  injection H as <-.
  destruct (parse_appends _ _ _ Ha0) as [e [Hcode [Hvals He]]].
  simpl in *. exists (e ++ [Op_byte op])%list.
  split; [ rewrite Hcode, app_assoc; reflexivity | split; [ exact Hvals | ] ].
  exact (pushes_then_binary _ _ _ (binaryOps_binary _ _ Eop) He).
Qed.

Lemma call_prefix_appends (fn : parseFn) :
  fn <> fn_binary -> appends pushes (Compiler.call parse fn).
Proof.
  intro Hfn. destruct fn; simpl.
  - exact literal_appends.
  - exact grouping_appends.
  - exact unary_appends.
  - contradiction.
  - exact number_appends.
Qed.

End HandlersAppend.

Lemma parse_and_loop_append (fuel : nat) :
  (forall prec : Z, appends pushes (Compiler.parse fuel prec))
  /\ (forall prec : Z, appends keeps (Compiler.parse_loop fuel prec)).
Proof.
  induction fuel as [| fuel [IHparse IHloop]].
  - split; intros prec st st' H; discriminate H.
  - split; intros prec [c chunk] st' H; simpl in H.
    + bind_inv H. bind_inv H.
      destruct (prefix a0) as [fn |] eqn:Efn; [ | discriminate H ].
      bind_inv H.
      assert (Hfn : fn <> fn_binary).
      { intros ->. exact (prefix_is_not_binary _ _ (getParseRule_Ok _ _ Ha0) Efn). }
      destruct (call_prefix_appends (Compiler.parse fuel) IHparse fn Hfn _ _ Ha1)
        as [e1 [Hcode1 [Hvals1 He1]]].
      destruct (IHloop prec _ _ H) as [e2 [Hcode2 [Hvals2 He2]]].
      simpl in *. exists (e1 ++ e2)%list.
      split; [ rewrite Hcode2, Hcode1, app_assoc; reflexivity | ].
      split; [ lia | ].
      exact (pushes_then_keeps _ _ _ _ Hvals2 He1 He2).
    + bind_inv H.
      destruct (precedence a <? prec).
      * injection H as <-. exists []. simpl.
        split; [ rewrite app_nil_r; reflexivity | split; [ lia | ] ].
        intro d. reflexivity.
      * bind_inv H.
        destruct (infix a) as [fn |] eqn:Efn; [ | discriminate H ].
        bind_inv H.
        rewrite (infix_is_binary _ _ _ (getParseRule_Ok _ _ Ha) Efn) in Ha1.
        destruct (binary_appends (Compiler.parse fuel) IHparse _ _ Ha1)
          as [e1 [Hcode1 [Hvals1 He1]]].
        destruct (IHloop prec _ _ H) as [e2 [Hcode2 [Hvals2 He2]]].
        simpl in *. exists (e1 ++ e2)%list.
        split; [ rewrite Hcode2, Hcode1, app_assoc; reflexivity | ].
        split; [ lia | ].
        exact (keeps_then_keeps _ _ _ _ Hvals2 He1 He2).
Qed.

(** The loop of [compile] appends the code of [k] expressions: run from
    depth [d] it ends at depth [k + d]. *)
Lemma compile_loop_appends (turns fuel : nat) :
  forall st st' : Compiler.state,
    Compiler.compile_loop turns fuel st = Ok st' ->
    exists (e : list Z) (k : nat),
      ch_code (snd st') = (ch_code (snd st) ++ e)%list
      /\ (List.length (ch_vals (snd st)) <= List.length (ch_vals (snd st')))%nat
      /\ (forall d : nat,
            stack_effect (List.length (ch_vals (snd st'))) e d = Some (k + d)%nat)
      /\ (k = 0%nat -> e = []).
Proof.
  induction turns as [| turns IH]; intros st st' H; simpl in H.
  - discriminate H.
  - destruct (t_typ (c_current (fst st))) eqn:Etyp;
      try discriminate H;
      try (injection H as <-; exists [], 0%nat;
           split; [ rewrite app_nil_r; reflexivity
                  | split; [ lia | split; [ intro d; reflexivity | reflexivity ] ] ]);
      (unfold Compiler.expression in H; bind_inv H;
       destruct (proj1 (parse_and_loop_append fuel) _ _ _ Ha)
         as [e1 [Hcode1 [Hvals1 He1]]];
       destruct (IH _ _ H) as [e2 [k [Hcode2 [Hvals2 [He2 _]]]]];
       exists (e1 ++ e2)%list, (S k);
       split; [ rewrite Hcode2, Hcode1, app_assoc; reflexivity | ];
       split; [ lia | ];
       split; [ | discriminate ];
       intro d;
       rewrite (stack_effect_app _ e1 e2 d (S d))
         by (apply (stack_effect_mono _ _ _ _ _ Hvals2); apply He1);
       rewrite He2; f_equal; lia).
Qed.

(** A compiled chunk other than the lone [OpReturn] has a stack effect:
    from the empty stack its code never pops more than was pushed. *)
Lemma compile_stack_effect (fuel : nat) (source : string) (chunk : Chunk) :
  Compiler.compile fuel source = Ok chunk ->
  ch_code chunk <> [Op_byte OpReturn] ->
  exists d : nat,
    stack_effect (List.length (ch_vals chunk)) (ch_code chunk) 0 = Some d.
Proof.
  unfold Compiler.compile. intros H Hne.
  bind_inv H. bind_inv H. destruct a0 as [c chunk'].
  injection H as <-.
  destruct (compile_loop_appends fuel fuel _ _ Ha0) as [e [k [Hcode [_ [He Hk]]]]].
  simpl in *. rewrite Hcode in *. simpl in *.
  destruct k as [| k].
  - exfalso. apply Hne. rewrite (Hk eq_refl). reflexivity.
  - exists k. rewrite (stack_effect_app _ e _ 0%nat (S k + 0)%nat (He 0%nat)).
    simpl. f_equal. lia.
Qed.

End CompilerStackEffect.

(** ** Properties of compiled programs *)

Section Programs.
Context {U : UnicodeTables}.

(** C4.  [numerals 256] compiles, to a chunk of 256 constants;
    [numerals 257] fails with "too many constants"; a number literal is
    refused with that error exactly when the pool already holds 256
    constants, and accepted exactly when it holds fewer; and in every
    chunk that [compile] returns, each [OpConstant] has its operand byte
    and the operand is an index of the constant pool. *)
Theorem constants_boundary_and_range :
  (exists chunk : Chunk,
      Compiler.compile 300 (numerals 256) = Ok chunk
      /\ List.length (ch_vals chunk) = 256%nat)
  /\ Compiler.compile 300 (numerals 257) = Err "too many constants"
  /\ (forall (c : compiler) (chunk : Chunk) (f : float),
        ParseFloat (t_data (c_previous c)) = Ok f ->
        (Compiler.number (c, chunk) = Err "too many constants"
         <-> (256 <= List.length (ch_vals chunk))%nat)
        /\ ((exists st : Compiler.state, Compiler.number (c, chunk) = Ok st)
            <-> (List.length (ch_vals chunk) < 256)%nat))
  /\ (forall (fuel : nat) (source : string) (chunk : Chunk),
        Compiler.compile fuel source = Ok chunk ->
        chunk_constants_ok chunk = true).
Proof.
  split; [ | split; [ | split ] ].
  - assert (H : match Compiler.compile 300 (numerals 256) with
                | Ok c => (List.length (ch_vals c) =? 256)%nat
                | _ => false
                end = true) by (vm_compute; reflexivity).
    destruct (Compiler.compile 300 (numerals 256)) as [c | | |];
      try discriminate H.
    exists c. split; [ reflexivity | ].
    apply Nat.eqb_eq. exact H.
  - vm_compute. reflexivity.
  - intros c chunk f Hf. unfold Compiler.number. rewrite Hf.
    cbn [bind]. unfold addVal. cbn [ch_vals].
    rewrite length_app. cbn [List.length].
    destruct (Z.ltb_spec 255
                (Z.of_nat (List.length (ch_vals chunk) + 1) - 1)) as [Hbig | Hsmall].
    + split; split; intro H; try reflexivity; try lia.
      destruct H as [st H]. discriminate H.
    + split; split; intro H; try discriminate H; try lia.
      eexists. reflexivity.
  - intros fuel source chunk H.
    apply code_ok_constants_in_range.
    exact (compile_chunk_ok fuel source chunk H).
Qed.

(** C5.  Multiplication binds tighter than addition, parentheses
    override it, and subtraction associates to the left: the code that is
    emitted, and the value that the run prints.  The right operand of an
    infix operator is parsed one level above the operator's own. *)
Theorem precedence_and_associativity :
  (Compiler.compile 20 "2 + 3 * 4"
   = Ok (mkChunk [0; 0; 0; 1; 0; 2; 8; 6; 13]
           [numberValue 2; numberValue 3; numberValue 4])
   /\ VM.printed (fst (Compiler.interpret 20 "2 + 3 * 4")) = ["14.000000"]
   /\ snd (Compiler.interpret 20 "2 + 3 * 4") = Ok tt)
  /\ (Compiler.compile 20 "(2 + 3) * 4"
      = Ok (mkChunk [0; 0; 0; 1; 6; 0; 2; 8; 13]
              [numberValue 2; numberValue 3; numberValue 4])
      /\ VM.printed (fst (Compiler.interpret 20 "(2 + 3) * 4")) = ["20.000000"]
      /\ snd (Compiler.interpret 20 "(2 + 3) * 4") = Ok tt)
  /\ (Compiler.compile 20 "8 - 3 - 2"
      = Ok (mkChunk [0; 0; 0; 1; 7; 0; 2; 7; 13]
              [numberValue 8; numberValue 3; numberValue 2])
      /\ VM.printed (fst (Compiler.interpret 20 "8 - 3 - 2")) = ["3.000000"]
      /\ snd (Compiler.interpret 20 "8 - 3 - 2") = Ok tt)
  /\ (forall (parse : Z -> Compiler.state -> outcome Compiler.state)
        (st : Compiler.state) (rule : parseRule),
        parseRules (t_typ (c_previous (fst st))) = Some rule ->
        Compiler.binary parse st
        = ('(c, chunk) <- parse ((precedence rule + 1) mod 256) st ;;
           match binaryOps (t_typ (c_previous (fst st))) with
           | None => Err ("unknown binary op: "
                            ++ TokenType_String (t_typ (c_previous (fst st))))
           | Some op => Ok (c, addOp chunk op)
           end)).
Proof.
  split; [ | split; [ | split ] ].
  - vm_compute. repeat split.
  - vm_compute. repeat split.
  - vm_compute. repeat split.
  - intros parse st rule Hrule.
    unfold Compiler.binary, Compiler.getParseRule. rewrite Hrule. reflexivity.
Qed.

(** C8.  A leading [+], [*] or [/] has a prefix rule, [unary]: the
    operand [5] is parsed and compiled, and only then is the operator
    missed in [unaryOps].  A token without prefix rule, such as [)] or
    [==], fails in [parse] with "syntax error" before any method runs.
    The order shows where the operand is wrong: [unary] hands back the
    failure of its operand as it is, so [+)] and a lone [+] fail with the
    operand's "syntax error" and [+(1] with the error of [consume], and
    the missing operator is reported only after an operand that parsed,
    as in [+nil]; where the operator is known, as in [-5], its opcode is
    written after the code of the operand. *)
Theorem unary_quirk_two_stages :
  (Compiler.compile 20 "+5" = Err "unknown unary op: TokenPlus"
   /\ Compiler.compile 20 "*5" = Err "unknown unary op: TokenStar"
   /\ Compiler.compile 20 "/5" = Err "unknown unary op: TokenSlash")
  /\ (exists c0 c1 : compiler,
         after_first_token "+5" = Ok c0
         /\ t_typ (c_previous c0) = TokenPlus
         /\ Compiler.parse 19 precUnary (c0, emptyChunk)
            = Ok (c1, mkChunk [0; 0] [numberValue 5])
         /\ t_typ (c_current c1) = TokenEOF
         /\ Compiler.unary (Compiler.parse 19) (c0, emptyChunk)
            = Err "unknown unary op: TokenPlus")
  /\ (option_map prefix (parseRules TokenPlus) = Some (Some fn_unary)
      /\ option_map prefix (parseRules TokenStar) = Some (Some fn_unary)
      /\ option_map prefix (parseRules TokenSlash) = Some (Some fn_unary)
      /\ unaryOps TokenPlus = None
      /\ unaryOps TokenStar = None
      /\ unaryOps TokenSlash = None)
  /\ (option_map prefix (parseRules TokenRightParen) = Some None
      /\ option_map prefix (parseRules TokenEqualEqual) = Some None
      /\ Compiler.compile 20 ")" = Err "syntax error"
      /\ Compiler.compile 20 "== 5" = Err "syntax error")
  /\ (forall (parse : Z -> Compiler.state -> outcome Compiler.state)
             (st : Compiler.state),
        let typ := t_typ (c_previous (fst st)) in
        (forall msg : string,
            parse precUnary st = Err msg ->
            Compiler.unary parse st = Err msg)
        /\ (forall p : panic,
               parse precUnary st = Panic p ->
               Compiler.unary parse st = Panic p)
        /\ (forall (c : compiler) (chunk : Chunk),
               parse precUnary st = Ok (c, chunk) ->
               Compiler.unary parse st
               = match unaryOps typ with
                 | None => Err ("unknown unary op: " ++ TokenType_String typ)
                 | Some op => Ok (c, addOp chunk op)
                 end))
  /\ (Compiler.compile 20 "+)" = Err "syntax error"
      /\ Compiler.compile 20 "+" = Err "syntax error"
      /\ Compiler.compile 20 "*==" = Err "syntax error"
      /\ Compiler.compile 20 "+(1" = Err "expected TokenRightParen, got TokenEOF"
      /\ Compiler.compile 20 "+nil" = Err "unknown unary op: TokenPlus"
      /\ Compiler.compile 20 "/(1)" = Err "unknown unary op: TokenSlash"
      /\ Compiler.compile 20 "-5" = Ok (mkChunk [0; 0; 4; 13] [numberValue 5]))
  /\ (forall (fuel : nat) (prec : Z) (c c' : compiler) (chunk : Chunk)
             (rule : parseRule),
        Compiler.advance c = Ok c' ->
        parseRules (t_typ (c_previous c')) = Some rule ->
        prefix rule = None ->
        Compiler.parse (S fuel) prec (c, chunk) = Err "syntax error").
Proof.
  split; [ | split; [ | split; [ | split; [ | split; [ | split ] ] ] ] ].
  - vm_compute. repeat split.
  - exists (mkCompiler (mkScanner "+5" 1 2 0)
              (mkToken TokenNumber 1 "5") (mkToken TokenPlus 1 "+")),
           (mkCompiler (mkScanner "+5" 2 2 0)
              (mkToken TokenEOF 1 "") (mkToken TokenNumber 1 "5")).
    vm_compute.
    repeat split.
  - vm_compute. repeat split.
  - vm_compute. repeat split.
  - intros parse st typ. unfold Compiler.unary. fold typ.
    split; [ | split ].
    + intros msg H. rewrite H. reflexivity.
    + intros p H. rewrite H. reflexivity.
    + intros c chunk H. rewrite H. reflexivity.
  - vm_compute. repeat split.
  - intros fuel prec c c' chunk rule Hadv Hrule Hpre.
    cbn [Compiler.parse]. rewrite Hadv. cbn [bind].
    unfold Compiler.getParseRule. rewrite Hrule. cbn [bind].
    rewrite Hpre. reflexivity.
Qed.

(** C10.  In the source [1.] the point is taken into the Number token
    although no digit follows; [ParseFloat] reads that text as 1; the
    program compiles and prints [1.000000].  In general the loop of
    [number] steps over a point after the digits without looking at what
    follows it. *)
Theorem number_with_trailing_point :
  Scanner.tokens 5 "1."
  = Ok [ mkToken TokenNumber 1 "1."; mkToken TokenEOF 1 "" ]
  /\ ParseFloat "1." = Ok 1%float
  /\ Compiler.compile 20 "1." = Ok (mkChunk [0; 0; 13] [numberValue 1])
  /\ VM.printed (fst (Compiler.interpret 20 "1.")) = ["1.000000"]
  /\ snd (Compiler.interpret 20 "1.") = Ok tt
  /\ (forall (s : scanner) (fuel size : nat),
        Scanner.currentRune s = (rune ".", size) ->
        Scanner.number_loop (S fuel) s
        = Scanner.digits_loop (Scanner.scanFuel s) (Scanner.bump s size)).
Proof.
  do 5 (split; [ vm_compute; reflexivity | ]).
  intros s fuel size H. cbn [Scanner.number_loop]. rewrite H. reflexivity.
Qed.

(** C9.  [valuesEqual] never returns an error; on different tags it is
    false; on equal tags it compares the payloads: two [nil] are equal,
    booleans by value, numbers as floats.  So [nil == false] prints
    [false] and [true == true] prints [true]. *)
Theorem valuesEqual_total_on_tags :
  (forall (a b : Value) (msg : string), valuesEqual a b <> Err msg)
  /\ (forall a b : Value,
        v_typ a <> v_typ b -> valuesEqual a b = Ok (boolValue false))
  /\ valuesEqual nilValue nilValue = Ok (boolValue true)
  /\ (forall x y : bool,
        valuesEqual (boolValue x) (boolValue y) = Ok (boolValue (Bool.eqb x y)))
  /\ (forall x y : float,
        valuesEqual (numberValue x) (numberValue y)
        = Ok (boolValue (x =? y)%float))
  /\ (VM.printed (fst (Compiler.interpret 20 "nil == false")) = ["false"]
      /\ snd (Compiler.interpret 20 "nil == false") = Ok tt)
  /\ (VM.printed (fst (Compiler.interpret 20 "true == true")) = ["true"]
      /\ snd (Compiler.interpret 20 "true == true") = Ok tt).
Proof.
  repeat match goal with |- _ /\ _ => split end;
    try (vm_compute; reflexivity); try reflexivity.
  - intros a b msg. unfold valuesEqual, asBool, asNumber.
    destruct (ValueType_eqb (v_typ a) (v_typ b)) eqn:E; [ | discriminate ].
    apply ValueType_eqb_eq in E. rewrite <- E.
    destruct (v_typ a); simpl; try discriminate;
      destruct (v_data a); simpl; try discriminate;
      destruct (v_data b); simpl; discriminate.
  - intros a b Hne. unfold valuesEqual.
    destruct (ValueType_eqb (v_typ a) (v_typ b)) eqn:E; [ | reflexivity ].
    apply ValueType_eqb_eq in E. contradiction.
Qed.

(** C1, on the empty source.  [compile] succeeds and the chunk is the
    lone [OpReturn] it appends; [run] pops for it an operand stack that is
    empty, and the index expression of [pop] panics.  The same holds of a
    source made of blanks.  Every other compiled chunk is safe
    ([compiled_program_never_underflows]). *)
Theorem empty_source_pops_empty_stack :
  Compiler.compile 5 "" = Ok (mkChunk [Op_byte OpReturn] [])
  /\ pop newStack = Panic (IndexOutOfRange (-1) 0)
  /\ VM.run (mkChunk [Op_byte OpReturn] [])
     = ([Trace "0000 OpReturn"], Panic (IndexOutOfRange (-1) 0))
  /\ Compiler.interpret 5 ""
     = ([Trace "0000 OpReturn"], Panic (IndexOutOfRange (-1) 0))
  /\ Compiler.interpret 5 "   "
     = ([Trace "0000 OpReturn"], Panic (IndexOutOfRange (-1) 0)).
Proof. vm_compute. repeat split. Qed.

End Programs.

(** C4 at work on the source [1]. *)
Lemma constants_in_range_of_one :
  Compiler.compile (U := latin1_tables) 5 "1"
  = Ok (mkChunk [0; 0; 13] [numberValue 1])
  /\ chunk_constants_ok (mkChunk [0; 0; 13] [numberValue 1]) = true.
Proof.
  split; [ reflexivity | ].
  apply (proj2 (proj2 (proj2 (@constants_boundary_and_range latin1_tables)))
           5%nat "1").
  reflexivity.
Defined.

(** * Further properties of the code *)

(** ** The operand stack and the constant pool *)

Lemma pop_push (s : Stack) (v : Value) : pop (push s v) = Ok (v, s).
Proof.
  unfold pop, push.
  rewrite length_app. cbn [List.length].
  destruct (Z.ltb_spec (Z.of_nat (List.length s + 1) - 1) 0); [ lia | ].
  replace (Z.to_nat (Z.of_nat (List.length s + 1) - 1)) with (List.length s)
    by lia.
  rewrite nth_error_app2 by lia. rewrite Nat.sub_diag. cbn [nth_error].
  rewrite firstn_app, Nat.sub_diag, firstn_all. cbn [firstn].
  rewrite app_nil_r. reflexivity.
Qed.

(** X3.  [pop] undoes [push]: it gives back the value pushed last and the
    stack as it was before; on the empty stack it panics, on the index
    [-1]. *)
Theorem pop_after_push :
  (forall (s : Stack) (v : Value), pop (push s v) = Ok (v, s))
  /\ (forall (s : Stack) (v w : Value),
        (r <- pop (push (push s v) w) ;; pop (snd r)) = Ok (v, s))
  /\ pop newStack = Panic (IndexOutOfRange (-1) 0).
Proof.
  split; [ exact pop_push | split; [ | reflexivity ] ].
  intros s v w. rewrite pop_push. cbn [bind snd]. apply pop_push.
Qed.

(** X4.  The operators of the VM take their operands from the top of the
    stack and leave the rest alone: [binary] pops the right operand
    first and calls the operator on (left, right); on an error or a panic
    of the operator nothing is pushed. *)
Theorem operands_come_from_the_top :
  (forall (s : Stack) (a b : Value) (fn : Value -> Value -> outcome Value),
      VM.binary (push (push s a) b) fn = (res <- fn a b ;; Ok (push s res)))
  /\ (forall (s : Stack) (v : Value) (fn : Value -> outcome Value),
        VM.unary (push s v) fn = (res <- fn v ;; Ok (push s res)))
  /\ (forall (s : Stack) (v : Value) (fn : Value -> Value -> outcome Value),
        VM.binary (push newStack v) fn = Panic (IndexOutOfRange (-1) 0)).
Proof.
  pose proof pop_push as Hpop.
  assert (Hempty : pop newStack = Panic (IndexOutOfRange (-1) 0))
    by reflexivity.
  split; [ | split ].
  - intros s a b fn. unfold VM.binary.
    rewrite Hpop. cbn [bind]. rewrite Hpop. reflexivity.
  - intros s v fn. unfold VM.unary. rewrite Hpop. reflexivity.
  - intros s v fn. unfold VM.binary.
    rewrite Hpop. cbn [bind]. rewrite Hempty. reflexivity.
Qed.

(** X5.  [addVal] appends: the index it returns is the old length of the
    pool, the value is found there, every older constant stays where it
    was, and the code is untouched. *)
Theorem addVal_then_index (c : Chunk) (val : Value) :
  let '(c', i) := addVal c val in
  i = Z.of_nat (List.length (ch_vals c))
  /\ index (ch_vals c') i = Ok val
  /\ List.length (ch_vals c') = S (List.length (ch_vals c))
  /\ ch_code c' = ch_code c
  /\ (forall (j : Z) (x : Value),
        index (ch_vals c) j = Ok x -> index (ch_vals c') j = Ok x).
Proof.
  unfold addVal. cbn [ch_vals ch_code].
  rewrite length_app. cbn [List.length].
  split; [ lia | split; [ | split; [ lia | split; [ reflexivity | ] ] ] ].
  - replace (Z.of_nat (List.length (ch_vals c) + 1) - 1)
      with (Z.of_nat (List.length (ch_vals c))) by lia.
    apply index_Ok. rewrite nth_error_app2 by lia.
    rewrite Nat.sub_diag. reflexivity.
  - intros j x. unfold index.
    destruct (j <? 0); [ discriminate | ].
    destruct (nth_error (ch_vals c) (Z.to_nat j)) as [y |] eqn:E;
      [ | discriminate ].
    intro H. injection H as ->.
    rewrite nth_error_app1 by (apply nth_error_Some; congruence).
    rewrite E. reflexivity.
Qed.

(** ** More on the value model *)

(** X13.  On values as the constructors build them, [a > b] is [b < a]:
    [valueGreater a b] and [valueLess b a] give the same result, the same
    error included. *)
Theorem greater_is_less_swapped (a b : Value) :
  wellformed a -> wellformed b -> valueGreater a b = valueLess b a.
Proof.
  unfold wellformed, valueGreater, valueLess, bothNumbers, asNumber.
  destruct a as [[] []], b as [[] []]; simpl; intros Ha Hb;
    try contradiction; reflexivity.
Qed.

Lemma greater_is_less_swapped_at_1_2 :
  valueGreater (numberValue 2) (numberValue 1) = Ok (boolValue true)
  /\ valueLess (numberValue 1) (numberValue 2) = Ok (boolValue true)
  /\ valueGreater (numberValue 2) (numberValue 1)
     = valueLess (numberValue 1) (numberValue 2).
Proof.
  split; [ reflexivity | split; [ reflexivity | ] ].
  apply (greater_is_less_swapped (numberValue 2) (numberValue 1)); exact I.
Defined.

(** X14.  [notValue] never fails on a value as the constructors build it
    and answers with a boolean: [nil] and [false] are the only values
    whose negation is [true]; every number, zero and NaN included,
    negates to [false]; and negating twice gives the truth value of the
    operand. *)
Theorem notValue_truthiness (v : Value) :
  wellformed v ->
  exists b : bool,
    notValue v = Ok (boolValue b)
    /\ (b = true <-> v = nilValue \/ v = boolValue false)
    /\ (v_typ v = ValueNumber -> b = false)
    /\ (r <- notValue v ;; notValue r) = Ok (boolValue (negb b))
    /\ asBool v = Ok (negb b).
Proof.
  unfold wellformed. destruct v as [[] []]; simpl; intro H;
    try contradiction.
  - exists true.
    split; [ reflexivity | ].
    split; [ split; [ intros _; left; reflexivity | reflexivity ] | ].
    split; [ discriminate | ].
    split; reflexivity.
  - exists (negb b).
    split; [ reflexivity | ].
    split.
    { split.
      - intro Hb. right. destruct b; [ discriminate Hb | reflexivity ].
      - intros [Hv | Hv]; [ discriminate Hv | ].
        injection Hv as ->. reflexivity. }
    split; [ discriminate | ].
    split; [ reflexivity | rewrite negb_involutive; reflexivity ].
  - exists false.
    split; [ reflexivity | ].
    split; [ split; [ discriminate | intros [Hv | Hv]; discriminate Hv ] | ].
    split; [ reflexivity | ].
    split; reflexivity.
Qed.

Lemma notValue_truthiness_of_zero :
  wellformed (numberValue 0)
  /\ notValue (numberValue 0) = Ok (boolValue false).
Proof.
  split; [ exact I | ].
  destruct (notValue_truthiness (numberValue 0) I) as [b [H [_ [Hn _]]]].
  rewrite H, (Hn eq_refl). reflexivity.
Defined.

(** ** The cursor of the scanner *)

Lemma string_drop_length (n : nat) (s : string) :
  String.length (string_drop n s) = (String.length s - n)%nat.
Proof.
  revert s. induction n as [| n IH]; intro s.
  - simpl. lia.
  - destruct s as [| c t]; simpl; [ reflexivity | apply IH ].
Qed.

Lemma DecodeRuneInString_size (s : string) (r : Z) (size : nat) :
  DecodeRuneInString s = (r, size) -> (size <= String.length s)%nat.
Proof.
  unfold DecodeRuneInString. intro H.
  destruct s as [| c0 t0]; [ injection H as _ <-; simpl; lia | ].
  repeat
    match type of H with
    | (if ?c then _ else _) = _ => destruct c
    | (let '(_, _) := ?p in _) = _ => destruct p
    | match ?t with EmptyString => _ | String _ _ => _ end = _ => destruct t
    end;
    injection H as _ <-; simpl; lia.
Qed.

Lemma runeAt_size (s : scanner) (i : nat) (r : Z) (size : nat) :
  Scanner.runeAt s i = (r, size) ->
  (i <= String.length (s_source s))%nat ->
  (i + size <= String.length (s_source s))%nat.
Proof.
  unfold Scanner.runeAt. intros H Hi.
  destruct (RuneCountInString (s_source s) <=? i)%nat.
  - injection H as _ <-. lia.
  - apply DecodeRuneInString_size in H.
    rewrite string_drop_length in H. lia.
Qed.

Lemma extends_refl (s : scanner) : inbounds s -> extends s s.
Proof. unfold inbounds, extends. intro H. repeat split; lia. Qed.

Lemma extends_trans (s1 s2 s3 : scanner) :
  extends s1 s2 -> extends s2 s3 -> extends s1 s3.
Proof.
  unfold extends. intros [A1 [A2 [A3 [A4 A5]]]] [B1 [B2 [B3 [B4 B5]]]].
  rewrite A1 in *. repeat split; try congruence; lia.
Qed.

Lemma extends_inbounds (s s' : scanner) : extends s s' -> inbounds s'.
Proof.
  unfold extends, inbounds. intros [A1 [_ [_ [A4 _]]]]. rewrite A1. exact A4.
Qed.

Lemma bump_extends (s : scanner) (r : Z) (size : nat) :
  inbounds s -> Scanner.currentRune s = (r, size) ->
  extends s (Scanner.bump s size).
Proof.
  unfold inbounds, Scanner.currentRune. intros Hin H.
  pose proof (runeAt_size s _ r size H Hin).
  unfold extends, Scanner.bump. simpl. repeat split; lia.
Qed.

Lemma skipUntilNewLine_loop_extends (fuel : nat) :
  forall s s' : scanner,
    inbounds s -> Scanner.skipUntilNewLine_loop fuel s = Ok s' -> extends s s'.
Proof.
  induction fuel as [| fuel IH]; intros s s' Hin H;
    cbn [Scanner.skipUntilNewLine_loop] in H.
  - discriminate H.
  - destruct (Scanner.currentRune s) as [r size] eqn:E.
    pose proof (bump_extends s r size Hin E) as Hb.
    destruct (negb (r =? rune_newline) && negb (Scanner.isEOF s)).
    + apply (extends_trans _ _ _ Hb).
      apply IH; [ exact (extends_inbounds _ _ Hb) | exact H ].
    + injection H as <-. apply extends_refl, Hin.
Qed.

Lemma skipWhitespace_loop_extends (fuel : nat) :
  forall s s' : scanner,
    inbounds s -> Scanner.skipWhitespace_loop fuel s = Ok s' -> extends s s'.
Proof.
  induction fuel as [| fuel IH]; intros s s' Hin H;
    cbn [Scanner.skipWhitespace_loop] in H.
  - discriminate H.
  - destruct (Scanner.currentRune s) as [r size] eqn:E.
    pose proof (bump_extends s r size Hin E) as Hb.
    destruct ((r =? rune " ") || (r =? rune_return) || (r =? rune_tab)).
    { apply (extends_trans _ _ _ Hb).
      apply IH; [ exact (extends_inbounds _ _ Hb) | exact H ]. }
    destruct (r =? rune_newline).
    { set (s1 := Scanner.bump
                   (mkScanner (s_source s) (s_start s) (s_current s)
                      (s_line s + 1)) size) in H.
      assert (H1 : extends s s1).
      { destruct Hb as [B1 [B2 [B3 [B4 B5]]]].
        unfold extends, s1, Scanner.bump in *. simpl in *.
        repeat split; lia. }
      apply (extends_trans _ _ _ H1).
      apply IH; [ exact (extends_inbounds _ _ H1) | exact H ]. }
    destruct (r =? rune "/").
    { destruct (Scanner.runeAt s (s_current s + size)) as [n k].
      destruct (n =? rune "/").
      - exact (skipUntilNewLine_loop_extends _ _ _ Hin H).
      - injection H as <-. apply extends_refl, Hin. }
    injection H as <-. apply extends_refl, Hin.
Qed.

Section ScannerCursor.
Context {U : UnicodeTables}.

Lemma string_loop_extends (fuel : nat) :
  forall s s' : scanner,
    inbounds s -> Scanner.string_loop fuel s = Ok s' -> extends s s'.
Proof.
  induction fuel as [| fuel IH]; intros s s' Hin H;
    cbn [Scanner.string_loop] in H.
  - discriminate H.
  - destruct (Scanner.currentRune s) as [r size] eqn:E.
    pose proof (bump_extends s r size Hin E) as Hb.
    destruct ((r =? rune_quote) || Scanner.isEOF s).
    + injection H as <-. apply extends_refl, Hin.
    + apply (extends_trans _ _ _ Hb).
      apply IH; [ exact (extends_inbounds _ _ Hb) | exact H ].
Qed.

Lemma digits_loop_extends (fuel : nat) :
  forall s s' : scanner,
    inbounds s -> Scanner.digits_loop fuel s = Ok s' -> extends s s'.
Proof.
  induction fuel as [| fuel IH]; intros s s' Hin H;
    cbn [Scanner.digits_loop] in H.
  - discriminate H.
  - destruct (Scanner.currentRune s) as [r size] eqn:E.
    pose proof (bump_extends s r size Hin E) as Hb.
    destruct (Scanner.isDigit r).
    + apply (extends_trans _ _ _ Hb).
      apply IH; [ exact (extends_inbounds _ _ Hb) | exact H ].
    + injection H as <-. apply extends_refl, Hin.
Qed.

Lemma number_loop_extends (fuel : nat) :
  forall s s' : scanner,
    inbounds s -> Scanner.number_loop fuel s = Ok s' -> extends s s'.
Proof.
  induction fuel as [| fuel IH]; intros s s' Hin H;
    cbn [Scanner.number_loop] in H.
  - discriminate H.
  - destruct (Scanner.currentRune s) as [r size] eqn:E.
    pose proof (bump_extends s r size Hin E) as Hb.
    destruct (Scanner.isDigit r).
    { apply (extends_trans _ _ _ Hb).
      apply IH; [ exact (extends_inbounds _ _ Hb) | exact H ]. }
    destruct (r =? rune ".").
    { apply (extends_trans _ _ _ Hb).
      exact (digits_loop_extends _ _ _ (extends_inbounds _ _ Hb) H). }
    injection H as <-. apply extends_refl, Hin.
Qed.

Lemma identifier_loop_extends (fuel : nat) :
  forall s s' : scanner,
    inbounds s -> Scanner.identifier_loop fuel s = Ok s' -> extends s s'.
Proof.
  induction fuel as [| fuel IH]; intros s s' Hin H;
    cbn [Scanner.identifier_loop] in H.
  - discriminate H.
  - destruct (Scanner.currentRune s) as [r size] eqn:E.
    pose proof (bump_extends s r size Hin E) as Hb.
    destruct (Scanner.isAlpha r || Scanner.isDigit r).
    + apply (extends_trans _ _ _ Hb).
      apply IH; [ exact (extends_inbounds _ _ Hb) | exact H ].
    + injection H as <-. apply extends_refl, Hin.
Qed.

Lemma match_extends (s s' : scanner) (expected : Z) (m : bool) :
  inbounds s -> Scanner.match_ s expected = (m, s') -> extends s s'.
Proof.
  unfold Scanner.match_. intros Hin H.
  destruct (Scanner.isEOF s).
  - injection H as _ <-. apply extends_refl, Hin.
  - destruct (Scanner.currentRune s) as [r size] eqn:E.
    destruct (negb (r =? expected)).
    + injection H as _ <-. apply extends_refl, Hin.
    + injection H as _ <-. exact (bump_extends s r size Hin E).
Qed.

End ScannerCursor.


Lemma substring_empty (s : string) (n : nat) : substring n 0 s = "".
Proof.
  revert n. induction s as [| c t IH]; intro n; destruct n; simpl;
    try reflexivity. apply IH.
Qed.

Section ScannerTokens.
Context {U : UnicodeTables}.

Lemma makeToken_Ok (s : scanner) (typ : TokenType) (t : Token) :
  Scanner.makeToken s typ = Ok t ->
  t = mkToken typ (s_line s + 1)
        (substring (s_start s) (s_current s - s_start s) (s_source s)).
Proof.
  unfold Scanner.makeToken.
  destruct ((s_current s <? s_start s)%nat
            || (String.length (s_source s) <? s_current s)%nat);
    intro H; [ discriminate H | ].
  injection H as <-. reflexivity.
Qed.

(** The slice of [makeToken] is in bounds when the token start is not
    after the cursor and the cursor inside the source. *)
Lemma makeToken_in_bounds (s : scanner) (typ : TokenType) :
  (s_start s <= s_current s)%nat -> inbounds s ->
  Scanner.makeToken s typ
  = Ok (mkToken typ (s_line s + 1)
          (substring (s_start s) (s_current s - s_start s) (s_source s))).
Proof.
  unfold inbounds, Scanner.makeToken. intros H1 H2.
  destruct (Nat.ltb_spec (s_current s) (s_start s)); [ lia | ].
  destruct (Nat.ltb_spec (String.length (s_source s)) (s_current s));
    [ lia | reflexivity ].
Qed.

Lemma return_token_Ok (s : scanner) (typ : TokenType) (t : Token)
  (s' : scanner) :
  Scanner.return_token s typ = Ok (t, s') ->
  s' = s /\ token_of t s /\ t_typ t = typ.
Proof.
  unfold Scanner.return_token. intro H. bind_inv H.
  injection H as <- <-. rewrite (makeToken_Ok _ _ _ Ha).
  unfold token_of. simpl. auto.
Qed.

(** The steps of [nextToken]: whitespace is skipped up to [s1], the token
    starts there, and either this is the end of the input, or the first
    rune is taken and the rest of the token after it. *)
Lemma nextToken_steps (s : scanner) (t : Token) (s' : scanner) :
  inbounds s -> Scanner.nextToken s = Ok (t, s') ->
  exists s1 : scanner,
    extends s s1
    /\ token_of t s'
    /\ let s2 := mkScanner (s_source s1) (s_current s1) (s_current s1)
                   (s_line s1) in
       (Scanner.isEOF s2 = true /\ t_typ t = TokenEOF /\ s' = s2)
       \/ (Scanner.isEOF s2 = false
           /\ extends (Scanner.bump s2 (snd (Scanner.currentRune s2))) s').
Proof.
  intros Hin H. unfold Scanner.nextToken in H.
  bind_inv H. rename a into s1.
  assert (E1 : extends s s1) by exact (skipWhitespace_loop_extends _ _ _ Hin Ha).
  exists s1. split; [ exact E1 | ].
  cbv zeta.
  set (s2 := mkScanner (s_source s1) (s_current s1) (s_current s1) (s_line s1))
    in *.
  assert (Hin2 : inbounds s2).
  { pose proof (extends_inbounds _ _ E1) as Hi. unfold inbounds, s2 in *.
    exact Hi. }
  destruct (Scanner.isEOF s2) eqn:He.
  { apply return_token_Ok in H. destruct H as [Hs' [Htok Htyp]].
    rewrite Hs'. split; [ exact Htok | left; auto ]. }
  destruct (Scanner.currentRune s2) as [r size] eqn:Er.
  pose proof (bump_extends s2 r size Hin2 Er) as E3.
  pose proof (extends_inbounds _ _ E3) as Hin3.
  cbn [snd].
  set (s3 := Scanner.bump s2 size) in *.
  pose proof (extends_refl s3 Hin3) as E33.
  destruct (Scanner.isDigit r).
  { unfold Scanner.number in H. bind_inv H.
    apply return_token_Ok in H. destruct H as [Hs' [Htok Htyp]]. rewrite Hs'.
    split; [ exact Htok | right; split; [ reflexivity | ] ].
    exact (number_loop_extends _ _ _ Hin3 Ha0). }
  destruct (Scanner.isAlpha r).
  { unfold Scanner.identifier in H. bind_inv H. bind_inv H.
    injection H as <- <-. rewrite (makeToken_Ok _ _ _ Ha1).
    split; [ unfold token_of; simpl; auto | ].
    right; split; [ reflexivity | ].
    exact (identifier_loop_extends _ _ _ Hin3 Ha0). }
  repeat
    match type of H with
    | (if ?c then _ else _) = _ =>
        destruct c;
        [ first
            [ apply return_token_Ok in H;
              destruct H as [Hs' [Htok Htyp]]; rewrite Hs';
              split; [ exact Htok
                     | right; split; [ reflexivity | exact E33 ] ]
            | destruct (Scanner.match_ s3 (rune "=")) as [m s4] eqn:Em;
              apply return_token_Ok in H;
              destruct H as [Hs' [Htok Htyp]]; rewrite Hs';
              split; [ exact Htok
                     | right; split;
                       [ reflexivity
                       | exact (match_extends _ _ _ _ Hin3 Em) ] ]
            | idtac ]
        | ]
    end.
  - (* a string *)
    unfold Scanner.string_ in H. bind_inv H.
    assert (E4 : extends s3 a)
      by exact (string_loop_extends _ _ _ Hin3 Ha0).
    destruct (Scanner.isEOF a).
    + apply return_token_Ok in H. destruct H as [Hs' [Htok Htyp]]. rewrite Hs'.
      split; [ exact Htok | right; split; [ reflexivity | exact E4 ] ].
    + destruct (Scanner.currentRune a) as [r' size'] eqn:Er'.
      apply return_token_Ok in H. destruct H as [Hs' [Htok Htyp]]. rewrite Hs'.
      split; [ exact Htok | right; split; [ reflexivity | ] ].
      apply (extends_trans _ _ _ E4).
      exact (bump_extends a r' size' (extends_inbounds _ _ E4) Er').
  - apply return_token_Ok in H. destruct H as [Hs' [Htok Htyp]]. rewrite Hs'.
    split; [ exact Htok | right; split; [ reflexivity | exact E33 ] ].
Qed.


Lemma string_loop_stop (fuel : nat) :
  forall s s' : scanner,
    Scanner.string_loop fuel s = Ok s' ->
    s_line s' = s_line s
    /\ (Scanner.isEOF s' = true
        \/ (Scanner.isEOF s' = false
            /\ fst (Scanner.currentRune s') = rune_quote)).
Proof.
  induction fuel as [| fuel IH]; intros s s' H;
    cbn [Scanner.string_loop] in H.
  - discriminate H.
  - destruct (Scanner.currentRune s) as [r size] eqn:E.
    destruct (r =? rune_quote) eqn:Hq; cbn [orb] in H.
    + injection H as <-. split; [ reflexivity | ].
      destruct (Scanner.isEOF s) eqn:He; [ left; reflexivity | right ].
      split; [ reflexivity | ]. rewrite E. apply Z.eqb_eq. exact Hq.
    + destruct (Scanner.isEOF s) eqn:He.
      * injection H as <-. split; [ reflexivity | left; exact He ].
      * destruct (IH _ _ H) as [Hl Hs]. split; [ exact Hl | exact Hs ].
Qed.

(** X15.  [string] never touches the line counter, whatever newlines the
    string holds; it returns a String token when it stopped on a closing
    quote, which it steps over, and an Error token when it reached the
    end of the input first, where the cursor then stands. *)
Theorem string_token_or_unterminated (s : scanner) (t : Token) (s' : scanner) :
  Scanner.string_ s = Ok (t, s') ->
  s_line s' = s_line s
  /\ t_line t = (s_line s + 1)%nat
  /\ ((t_typ t = TokenError /\ Scanner.isEOF s' = true)
      \/ (t_typ t = TokenString
          /\ exists (q : scanner) (size : nat),
               Scanner.currentRune q = (rune_quote, size)
               /\ Scanner.isEOF q = false
               /\ s' = Scanner.bump q size)).
Proof.
  unfold Scanner.string_. intro H. bind_inv H.
  destruct (string_loop_stop _ _ _ Ha) as [Hl Hs].
  destruct (Scanner.isEOF a) eqn:He.
  - apply return_token_Ok in H. destruct H as [-> [[Htl _] Htyp]].
    rewrite Htl, Hl. split; [ reflexivity | split; [ reflexivity | ] ].
    left. split; [ exact Htyp | exact He ].
  - destruct Hs as [Hs | [_ Hs]]; [ discriminate Hs | ].
    destruct (Scanner.currentRune a) as [r size] eqn:E.
    cbn [fst] in Hs. subst r.
    apply return_token_Ok in H. destruct H as [-> [[Htl _] Htyp]].
    rewrite Htl. cbn [Scanner.bump s_line].
    rewrite Hl. split; [ reflexivity | split; [ reflexivity | ] ].
    right. split; [ exact Htyp | ].
    exists a, size. split; [ exact E | split; [ exact He | reflexivity ] ].
Qed.


End ScannerTokens.


(** X15 at work on a string that holds a newline and has no end. *)
Lemma unterminated_string_keeps_line :
  Scanner.string_
    (mkScanner (String (ascii_of_nat 34) (String (ascii_of_nat 10) "a")) 0 1 0)
  = Ok (mkToken TokenError 1 (String (ascii_of_nat 34) (String (ascii_of_nat 10) "a")),
        mkScanner (String (ascii_of_nat 34) (String (ascii_of_nat 10) "a")) 0 3 0)
  /\ s_line (mkScanner (String (ascii_of_nat 34) (String (ascii_of_nat 10) "a")) 0 3 0)
     = 0%nat.
Proof.
  split; [ reflexivity | ].
  exact (proj1 (string_token_or_unterminated
                  (mkScanner (String (ascii_of_nat 34)
                                (String (ascii_of_nat 10) "a")) 0 1 0)
                  _ _ eq_refl)).
Defined.

(** ** The end of the input, and where the scanner cannot stop *)

Lemma runeAt_past_count (s : scanner) (i : nat) :
  (RuneCountInString (s_source s) <= i)%nat -> Scanner.runeAt s i = (-1, 0%nat).
Proof.
  intro H. unfold Scanner.runeAt.
  destruct (Nat.leb_spec (RuneCountInString (s_source s)) i); [ reflexivity | lia ].
Qed.

Lemma isEOF_true (s : scanner) :
  Scanner.isEOF s = true <-> (String.length (s_source s) <= s_current s)%nat.
Proof. unfold Scanner.isEOF. apply Nat.leb_le. Qed.

Lemma isEOF_false (s : scanner) :
  Scanner.isEOF s = false <-> (s_current s < String.length (s_source s))%nat.
Proof. unfold Scanner.isEOF. apply Nat.leb_gt. Qed.

Lemma skipWhitespace_at_end (s : scanner) :
  Scanner.currentRune s = (-1, 0%nat) -> Scanner.skipWhitespace s = Ok s.
Proof.
  intro H. unfold Scanner.skipWhitespace, Scanner.scanFuel.
  cbn [Scanner.skipWhitespace_loop]. rewrite H. reflexivity.
Qed.

Section ScannerEnd.
Context {U : UnicodeTables}.

(** X6.  With the cursor at the end of the source [nextToken] returns
    the EOF token, with an empty text and the current line, moves nothing
    but the token start, and returns the same token again on every later
    call.  With the cursor past the end there is no token: the slice of
    [makeToken] is out of range. *)
Theorem nextToken_at_end_of_input (s : scanner) :
  s_current s = String.length (s_source s) ->
  let s' := mkScanner (s_source s) (s_current s) (s_current s) (s_line s) in
  let eof := mkToken TokenEOF (s_line s + 1) "" in
  Scanner.isEOF s = true
  /\ Scanner.nextToken s = Ok (eof, s')
  /\ Scanner.nextToken s' = Ok (eof, s')
  /\ (forall fuel : nat, Scanner.tokens_from (S fuel) s = Ok [eof])
  /\ (forall x : scanner,
        (String.length (s_source x) < s_current x)%nat ->
        Scanner.isEOF x = true
        /\ Scanner.nextToken x
           = Panic (SliceOutOfRange (s_current x) (s_current x)
                      (String.length (s_source x)))).
Proof.
  intros Hcur s' eof.
  assert (Heof : Scanner.isEOF s = true) by (apply isEOF_true; lia).
  assert (Hskip : forall x : scanner,
             (String.length (s_source x) <= s_current x)%nat ->
             Scanner.skipWhitespace x = Ok x).
  { intros x Hx. apply skipWhitespace_at_end, runeAt_past_count.
    pose proof (RuneCountInString_le_length (s_source x)). lia. }
  assert (Hend : forall x : scanner,
             s_source x = s_source s -> s_current x = s_current s ->
             s_line x = s_line s ->
             Scanner.nextToken x = Ok (eof, s')).
  { intros x Hsrc Hc Hline.
    assert (Hx : Scanner.isEOF x = true).
    { apply isEOF_true. rewrite Hsrc, Hc. lia. }
    unfold Scanner.nextToken.
    rewrite (Hskip x) by (rewrite Hsrc, Hc; lia).
    cbn [bind].
    replace (Scanner.isEOF
               (mkScanner (s_source x) (s_current x) (s_current x) (s_line x)))
      with true by (symmetry; exact Hx).
    unfold Scanner.return_token.
    rewrite makeToken_in_bounds
      by (unfold inbounds; cbn [s_start s_current s_source];
          rewrite ?Hsrc, ?Hc; lia).
    cbn [bind s_line s_start s_current s_source].
    rewrite Nat.sub_diag, substring_empty.
    unfold eof, s'. rewrite Hsrc, Hc, Hline. reflexivity. }
  assert (H1 : Scanner.nextToken s = Ok (eof, s')) by (apply Hend; reflexivity).
  split; [ exact Heof | ].
  split; [ exact H1 | split; [ apply Hend; reflexivity | split ] ].
  - intro fuel. cbn [Scanner.tokens_from]. rewrite H1. reflexivity.
  - intros x Hx.
    assert (Hxe : Scanner.isEOF x = true) by (apply isEOF_true; lia).
    split; [ exact Hxe | ].
    unfold Scanner.nextToken. rewrite (Hskip x) by lia.
    cbn [bind].
    replace (Scanner.isEOF
               (mkScanner (s_source x) (s_current x) (s_current x) (s_line x)))
      with true by (symmetry; exact Hxe).
    unfold Scanner.return_token, Scanner.makeToken.
    cbn [s_line s_start s_current s_source].
    rewrite Nat.ltb_irrefl.
    destruct (Nat.ltb_spec (String.length (s_source x)) (s_current x));
      [ reflexivity | lia ].
Qed.

Lemma bump_0 (s : scanner) : Scanner.bump s 0 = s.
Proof. destruct s. unfold Scanner.bump. simpl. rewrite Nat.add_0_r. reflexivity. Qed.

(** X8.  Where the cursor stands on a byte offset that is not below the
    rune count of the source and yet before its end, [currentRune]
    reports the end of the input with width 0 while [isEOF] is false:
    the loops of [skipUntilNewLine] and of [string] go round without
    moving the cursor, whatever the number of turns they are given, and
    [nextToken] returns an Error token of no text without moving. *)
Theorem scanner_stuck_before_end (s : scanner) :
  (RuneCountInString (s_source s) <= s_current s)%nat ->
  (s_current s < String.length (s_source s))%nat ->
  (forall fuel : nat, Scanner.skipUntilNewLine_loop fuel s = OutOfFuel)
  /\ (forall fuel : nat, Scanner.string_loop fuel s = OutOfFuel)
  /\ Scanner.nextToken s
     = Ok (mkToken TokenError (s_line s + 1) "",
           mkScanner (s_source s) (s_current s) (s_current s) (s_line s)).
Proof.
  intros Hcount Hlen.
  assert (Hr : Scanner.currentRune s = (-1, 0%nat))
    by (apply runeAt_past_count; exact Hcount).
  assert (He : Scanner.isEOF s = false) by (apply isEOF_false; exact Hlen).
  split; [ | split ].
  - induction fuel as [| fuel IH]; [ reflexivity | ].
    cbn [Scanner.skipUntilNewLine_loop]. rewrite Hr, He, bump_0. exact IH.
  - induction fuel as [| fuel IH]; [ reflexivity | ].
    cbn [Scanner.string_loop]. rewrite Hr, He, bump_0. exact IH.
  - unfold Scanner.nextToken. rewrite (skipWhitespace_at_end s Hr).
    cbn [bind].
    set (s2 := mkScanner (s_source s) (s_current s) (s_current s) (s_line s)).
    assert (He2 : Scanner.isEOF s2 = false) by exact He.
    assert (Hr2 : Scanner.currentRune s2 = (-1, 0%nat)) by exact Hr.
    rewrite He2, Hr2, bump_0.
    assert (Hmk : forall typ : TokenType,
               Scanner.makeToken s2 typ
               = Ok (mkToken typ (s_line s + 1) "")).
    { intro typ. rewrite makeToken_in_bounds
        by (unfold inbounds, s2; cbn [s_start s_current s_source]; lia).
      unfold s2. cbn [s_line s_start s_current s_source].
      rewrite Nat.sub_diag, substring_empty. reflexivity. }
    unfold Scanner.return_token. rewrite !Hmk. reflexivity.
Qed.

End ScannerEnd.

(** X8 at work: in [comment_of_two_e_acute] the comment is never left. *)
Lemma scanner_stuck_in_comment :
  (RuneCountInString comment_of_two_e_acute <= 4)%nat
  /\ (4 < String.length comment_of_two_e_acute)%nat
  /\ (forall fuel : nat,
        Scanner.skipUntilNewLine_loop fuel
          (mkScanner comment_of_two_e_acute 0 4 0) = OutOfFuel)
  /\ Scanner.nextToken (U := latin1_tables)
       (Scanner.newScanner comment_of_two_e_acute) = OutOfFuel.
Proof.
  assert (H1 : (RuneCountInString comment_of_two_e_acute <= 4)%nat)
    by (vm_compute; lia).
  assert (H2 : (4 < String.length comment_of_two_e_acute)%nat)
    by (vm_compute; lia).
  split; [ exact H1 | split; [ exact H2 | split ] ].
  - exact (proj1 (@scanner_stuck_before_end latin1_tables
                    (mkScanner comment_of_two_e_acute 0 4 0) H1 H2)).
  - vm_compute. reflexivity.
Defined.

(** X6 at work on the empty source, and past the end of ["ab"]. *)
Lemma nextToken_at_end_of_empty_source :
  s_current (Scanner.newScanner "") = String.length ""
  /\ Scanner.nextToken (U := latin1_tables) (Scanner.newScanner "")
     = Ok (mkToken TokenEOF 1 "", Scanner.newScanner "")
  /\ Scanner.nextToken (U := latin1_tables) (mkScanner "ab" 0 5 0)
     = Panic (SliceOutOfRange 5 5 2).
Proof.
  split; [ reflexivity | ].
  pose proof (@nextToken_at_end_of_input latin1_tables
                (Scanner.newScanner "") eq_refl) as H.
  split; [ exact (proj1 (proj2 H)) | ].
  refine (proj2 (proj2 (proj2 (proj2 (proj2 H))) (mkScanner "ab" 0 5 0) _)).
  simpl. lia.
Defined.

(** ** The scanner on ASCII sources *)

Lemma is_ascii_drop (n : nat) :
  forall s : string, is_ascii s = true -> is_ascii (string_drop n s) = true.
Proof.
  induction n as [| n IH]; intros s H; [ exact H | ].
  destruct s as [| c t]; [ reflexivity | ].
  simpl in H. apply andb_true_iff in H. simpl. apply IH. apply H.
Qed.

Lemma byte_val_nonneg (c : ascii) : 0 <= byte_val c.
Proof. unfold byte_val. lia. Qed.

Lemma DecodeRuneInString_ascii (c : ascii) (t : string) :
  (byte_val c <? 0x80) = true ->
  DecodeRuneInString (String c t) = (byte_val c, 1%nat).
Proof.
  intro H. unfold DecodeRuneInString, first. rewrite H.
  change (0xF0 <=? 0xF0) with true. cbv iota.
  change (Z.testbit 0xF0 0) with false. cbv iota.
  change (Z.lnot 0) with (-1).
  rewrite Z.land_m1_r, Z.land_0_r, Z.lor_0_r. reflexivity.
Qed.

Lemma countRunes_ascii (fuel : nat) :
  forall s : string,
    is_ascii s = true -> (String.length s <= fuel)%nat ->
    countRunes fuel s = String.length s.
Proof.
  induction fuel as [| fuel IH]; intros s H Hlen.
  - destruct s; [ reflexivity | simpl in Hlen; lia ].
  - destruct s as [| c t]; [ reflexivity | ].
    simpl in H. apply andb_true_iff in H. destruct H as [Hc Ht].
    cbn [countRunes]. rewrite (DecodeRuneInString_ascii c t Hc).
    cbn [snd string_drop String.length]. f_equal.
    apply IH; [ exact Ht | simpl in Hlen; lia ].
Qed.

Lemma string_drop_nonempty (n : nat) :
  forall s : string,
    (n < String.length s)%nat ->
    exists (c : ascii) (t : string), string_drop n s = String c t.
Proof.
  induction n as [| n IH]; intros s H.
  - destruct s as [| c t]; [ simpl in H; lia | ]. exists c, t. reflexivity.
  - destruct s as [| c t]; [ simpl in H; lia | ].
    simpl in *. apply IH. lia.
Qed.

(** On an ASCII source [runeAt] reads one byte, or reports the end of the
    input from the end of the source on. *)
Lemma runeAt_ascii (s : scanner) (i : nat) (r : Z) (size : nat) :
  is_ascii (s_source s) = true ->
  Scanner.runeAt s i = (r, size) ->
  (size = 1%nat /\ (i < String.length (s_source s))%nat /\ 0 <= r)
  \/ (r = -1 /\ size = 0%nat /\ (String.length (s_source s) <= i)%nat).
Proof.
  intros Hascii H. unfold Scanner.runeAt, RuneCountInString in H.
  rewrite (countRunes_ascii _ _ Hascii (Nat.le_refl _)) in H.
  destruct (Nat.leb_spec (String.length (s_source s)) i) as [Hge | Hlt].
  - injection H as <- <-. right. auto.
  - destruct (string_drop_nonempty i _ Hlt) as [c [t Hd]].
    pose proof (is_ascii_drop i _ Hascii) as Ha. rewrite Hd in *.
    simpl in Ha. apply andb_true_iff in Ha. destruct Ha as [Hc _].
    rewrite (DecodeRuneInString_ascii c t Hc) in H.
    injection H as <- <-. left. repeat split; [ exact Hlt | apply byte_val_nonneg ].
Qed.

(** A turn of a loop that goes on with a rune other than [-1], or before
    the end of the source, moves the cursor by one byte. *)
Lemma currentRune_ascii_step (s : scanner) (r : Z) (size : nat) :
  is_ascii (s_source s) = true ->
  Scanner.currentRune s = (r, size) ->
  r <> -1 \/ Scanner.isEOF s = false ->
  size = 1%nat /\ (s_current s < String.length (s_source s))%nat.
Proof.
  intros Hascii H Hgo.
  destruct (runeAt_ascii s _ r size Hascii H) as [[Hs [Hlt _]] | [Hr [_ Hge]]].
  - split; assumption.
  - exfalso. destruct Hgo as [Hne | He]; [ exact (Hne Hr) | ].
    apply isEOF_false in He. lia.
Qed.

Ltac ascii_step Hascii E Hfuel IH :=
  match goal with
  | |- exists s', ?loop ?fuel (Scanner.bump ?s ?size) = Ok s' =>
      let Hs := fresh "Hs" in
      let Hlt := fresh "Hlt" in
      assert (Hs : size = 1%nat /\ (s_current s < String.length (s_source s))%nat);
      [ apply (currentRune_ascii_step s _ size Hascii E)
      | destruct Hs as [Hs Hlt]; subst size;
        apply IH; [ exact Hascii | unfold Scanner.bump; simpl; lia ] ]
  end.

Lemma skipUntilNewLine_loop_ascii (fuel : nat) :
  forall s : scanner,
    is_ascii (s_source s) = true ->
    (String.length (s_source s) - s_current s < fuel)%nat ->
    exists s' : scanner, Scanner.skipUntilNewLine_loop fuel s = Ok s'.
Proof.
  induction fuel as [| fuel IH]; intros s Hascii Hfuel; [ lia | ].
  cbn [Scanner.skipUntilNewLine_loop].
  destruct (Scanner.currentRune s) as [r size] eqn:E.
  destruct (negb (r =? rune_newline) && negb (Scanner.isEOF s)) eqn:Hgo;
    [ | eexists; reflexivity ].
  apply andb_true_iff in Hgo. destruct Hgo as [_ He].
  apply negb_true_iff in He.
  ascii_step Hascii E Hfuel IH. right. exact He.
Qed.

Lemma skipWhitespace_loop_ascii (fuel : nat) :
  forall s : scanner,
    is_ascii (s_source s) = true ->
    (String.length (s_source s) - s_current s < fuel)%nat ->
    exists s' : scanner, Scanner.skipWhitespace_loop fuel s = Ok s'.
Proof.
  induction fuel as [| fuel IH]; intros s Hascii Hfuel; [ lia | ].
  cbn [Scanner.skipWhitespace_loop].
  destruct (Scanner.currentRune s) as [r size] eqn:E.
  destruct ((r =? rune " ") || (r =? rune_return) || (r =? rune_tab)) eqn:Hws.
  { ascii_step Hascii E Hfuel IH. left. intros ->. discriminate Hws. }
  destruct (r =? rune_newline) eqn:Hnl.
  { assert (Hs : size = 1%nat /\ (s_current s < String.length (s_source s))%nat).
    { apply (currentRune_ascii_step s r size Hascii E).
      left. intros ->. discriminate Hnl. }
    destruct Hs as [-> Hlt].
    apply IH; [ exact Hascii | unfold Scanner.bump; simpl; lia ]. }
  destruct (r =? rune "/"); [ | eexists; reflexivity ].
  destruct (Scanner.runeAt s (s_current s + size)) as [n k].
  destruct (n =? rune "/"); [ | eexists; reflexivity ].
  apply skipUntilNewLine_loop_ascii; [ exact Hascii | ].
  unfold Scanner.scanFuel. lia.
Qed.

Section ScannerAscii.
Context {U : UnicodeTables}.

Lemma isDigit_end : Scanner.isDigit (-1) = false.
Proof. reflexivity. Qed.

Lemma isAlpha_end : Scanner.isAlpha (-1) = false.
Proof. reflexivity. Qed.

Lemma string_loop_ascii (fuel : nat) :
  forall s : scanner,
    is_ascii (s_source s) = true ->
    (String.length (s_source s) - s_current s < fuel)%nat ->
    exists s' : scanner, Scanner.string_loop fuel s = Ok s'.
Proof.
  induction fuel as [| fuel IH]; intros s Hascii Hfuel; [ lia | ].
  cbn [Scanner.string_loop].
  destruct (Scanner.currentRune s) as [r size] eqn:E.
  destruct ((r =? rune_quote) || Scanner.isEOF s) eqn:Hstop;
    [ eexists; reflexivity | ].
  apply orb_false_iff in Hstop. destruct Hstop as [_ He].
  ascii_step Hascii E Hfuel IH. right. exact He.
Qed.

Lemma digits_loop_ascii (fuel : nat) :
  forall s : scanner,
    is_ascii (s_source s) = true ->
    (String.length (s_source s) - s_current s < fuel)%nat ->
    exists s' : scanner, Scanner.digits_loop fuel s = Ok s'.
Proof.
  induction fuel as [| fuel IH]; intros s Hascii Hfuel; [ lia | ].
  cbn [Scanner.digits_loop].
  destruct (Scanner.currentRune s) as [r size] eqn:E.
  destruct (Scanner.isDigit r) eqn:Hd; [ | eexists; reflexivity ].
  ascii_step Hascii E Hfuel IH. left. intros ->.
  rewrite isDigit_end in Hd. discriminate Hd.
Qed.

Lemma number_loop_ascii (fuel : nat) :
  forall s : scanner,
    is_ascii (s_source s) = true ->
    (String.length (s_source s) - s_current s < fuel)%nat ->
    exists s' : scanner, Scanner.number_loop fuel s = Ok s'.
Proof.
  induction fuel as [| fuel IH]; intros s Hascii Hfuel; [ lia | ].
  cbn [Scanner.number_loop].
  destruct (Scanner.currentRune s) as [r size] eqn:E.
  destruct (Scanner.isDigit r) eqn:Hd.
  { ascii_step Hascii E Hfuel IH. left. intros ->.
    rewrite isDigit_end in Hd. discriminate Hd. }
  destruct (r =? rune ".") eqn:Hdot; [ | eexists; reflexivity ].
  apply digits_loop_ascii; [ exact Hascii | ].
  unfold Scanner.scanFuel, Scanner.bump. simpl. lia.
Qed.

Lemma identifier_loop_ascii (fuel : nat) :
  forall s : scanner,
    is_ascii (s_source s) = true ->
    (String.length (s_source s) - s_current s < fuel)%nat ->
    exists s' : scanner, Scanner.identifier_loop fuel s = Ok s'.
Proof.
  induction fuel as [| fuel IH]; intros s Hascii Hfuel; [ lia | ].
  cbn [Scanner.identifier_loop].
  destruct (Scanner.currentRune s) as [r size] eqn:E.
  destruct (Scanner.isAlpha r || Scanner.isDigit r) eqn:Hd;
    [ | eexists; reflexivity ].
  ascii_step Hascii E Hfuel IH. left. intros ->.
  rewrite isAlpha_end, isDigit_end in Hd. discriminate Hd.
Qed.

(** A token can be made wherever the scanner has only moved forward
    from a place where the token start was not after the cursor. *)
Lemma makeToken_extends (s s' : scanner) (typ : TokenType) :
  (s_start s <= s_current s)%nat -> extends s s' ->
  exists t : Token, Scanner.makeToken s' typ = Ok t.
Proof.
  intros Hs [A1 [A2 [A3 [A4 A5]]]].
  rewrite makeToken_in_bounds;
    [ eexists; reflexivity | lia | unfold inbounds; rewrite A1; lia ].
Qed.

Lemma return_token_extends (s s' : scanner) (typ : TokenType) :
  (s_start s <= s_current s)%nat -> extends s s' ->
  exists (t : Token) (s'' : scanner),
    Scanner.return_token s' typ = Ok (t, s'').
Proof.
  intros Hs E. destruct (makeToken_extends s s' typ Hs E) as [t Ht].
  exists t, s'. unfold Scanner.return_token. rewrite Ht. reflexivity.
Qed.

(** On an ASCII source [nextToken] returns a token: none of its loops
    spins, and the token text is a slice of the source. *)
Lemma nextToken_ascii (s : scanner) :
  is_ascii (s_source s) = true -> inbounds s ->
  exists (t : Token) (s' : scanner), Scanner.nextToken s = Ok (t, s').
Proof.
  intros Hascii Hin. unfold Scanner.nextToken.
  destruct (skipWhitespace_loop_ascii (Scanner.scanFuel s) s Hascii)
    as [s1 H1]; [ unfold Scanner.scanFuel; lia | ].
  unfold Scanner.skipWhitespace. rewrite H1. cbn [bind].
  pose proof (skipWhitespace_loop_extends _ _ _ Hin H1) as E1.
  assert (Hsrc : s_source s1 = s_source s) by exact (proj1 E1).
  set (s2 := mkScanner (s_source s1) (s_current s1) (s_current s1) (s_line s1)).
  assert (Hascii2 : is_ascii (s_source s2) = true)
    by (unfold s2; simpl; rewrite Hsrc; exact Hascii).
  assert (Hin2 : inbounds s2).
  { pose proof (extends_inbounds _ _ E1) as Hi. unfold inbounds, s2 in *.
    exact Hi. }
  assert (Hst2 : (s_start s2 <= s_current s2)%nat) by (unfold s2; simpl; lia).
  destruct (Scanner.isEOF s2);
    [ exact (return_token_extends s2 s2 _ Hst2 (extends_refl s2 Hin2)) | ].
  destruct (Scanner.currentRune s2) as [r size] eqn:Er.
  pose proof (bump_extends s2 r size Hin2 Er) as E3.
  pose proof (extends_inbounds _ _ E3) as Hin3.
  set (s3 := Scanner.bump s2 size) in *.
  assert (Hascii3 : is_ascii (s_source s3) = true) by exact Hascii2.
  destruct (Scanner.isDigit r).
  { destruct (number_loop_ascii (Scanner.scanFuel s3) s3 Hascii3) as [s4 H4];
      [ unfold Scanner.scanFuel; lia | ].
    unfold Scanner.number. rewrite H4. cbn [bind].
    apply (return_token_extends s2 s4 _ Hst2).
    exact (extends_trans _ _ _ E3 (number_loop_extends _ _ _ Hin3 H4)). }
  destruct (Scanner.isAlpha r).
  { destruct (identifier_loop_ascii (Scanner.scanFuel s3) s3 Hascii3) as [s4 H4];
      [ unfold Scanner.scanFuel; lia | ].
    unfold Scanner.identifier. rewrite H4. cbn [bind].
    destruct (makeToken_extends s2 s4 TokenIdentifier Hst2
                (extends_trans _ _ _ E3
                   (identifier_loop_extends _ _ _ Hin3 H4))) as [t Ht].
    rewrite Ht. eexists; eexists; reflexivity. }
  repeat
    match goal with
    | |- exists t s', (if ?c then _ else _) = _ =>
        destruct c;
        [ first
            [ exact (return_token_extends s2 s3 _ Hst2 E3)
            | destruct (Scanner.match_ s3 (rune "=")) as [m s4] eqn:Em;
              apply (return_token_extends s2 s4 _ Hst2);
              exact (extends_trans _ _ _ E3 (match_extends _ _ _ _ Hin3 Em))
            | idtac ]
        | ]
    end.
  - destruct (string_loop_ascii (Scanner.scanFuel s3) s3 Hascii3) as [s4 H4];
      [ unfold Scanner.scanFuel; lia | ].
    unfold Scanner.string_. rewrite H4. cbn [bind].
    pose proof (extends_trans _ _ _ E3 (string_loop_extends _ _ _ Hin3 H4))
      as E4.
    destruct (Scanner.isEOF s4);
      [ exact (return_token_extends s2 s4 _ Hst2 E4) | ].
    destruct (Scanner.currentRune s4) as [r' size'] eqn:Er'.
    apply (return_token_extends s2 _ _ Hst2).
    apply (extends_trans _ _ _ E4).
    exact (bump_extends s4 r' size' (extends_inbounds _ _ E4) Er').
  - exact (return_token_extends s2 s3 _ Hst2 E3).
Qed.

Lemma TokenType_eqb_EOF (typ : TokenType) :
  TokenType_eqb typ TokenEOF = true -> typ = TokenEOF.
Proof. destruct typ; intro H; try reflexivity; discriminate H. Qed.

(** The tokens of an ASCII source from [s] on: a token other than the
    last takes a byte or more, and the last is the EOF token. *)
Lemma tokens_from_ascii (fuel : nat) :
  forall s : scanner,
    is_ascii (s_source s) = true -> inbounds s ->
    (String.length (s_source s) - s_current s < fuel)%nat ->
    exists (ts : list Token) (eof : Token),
      Scanner.tokens_from fuel s = Ok (ts ++ [eof])%list
      /\ t_typ eof = TokenEOF
      /\ Forall (fun t => t_typ t <> TokenEOF) ts
      /\ (List.length ts <= String.length (s_source s) - s_current s)%nat.
Proof.
  induction fuel as [| fuel IH]; intros s Hascii Hin Hfuel; [ lia | ].
  cbn [Scanner.tokens_from].
  destruct (nextToken_ascii s Hascii Hin) as [t [s' Hnext]].
  rewrite Hnext. cbn [bind].
  destruct (TokenType_eqb (t_typ t) TokenEOF) eqn:Heof.
  - exists [], t. split; [ reflexivity | ].
    split; [ exact (TokenType_eqb_EOF _ Heof) | ].
    split; [ constructor | simpl; lia ].
  - destruct (nextToken_steps s t s' Hin Hnext) as [s1 [E1 [_ Hcase]]].
    set (s2 := mkScanner (s_source s1) (s_current s1) (s_current s1)
                 (s_line s1)) in *.
    destruct Hcase as [[_ [Ht _]] | [He E3]].
    { rewrite Ht in Heof. discriminate Heof. }
    destruct E1 as [A1 [A2 [A3 [A4 A5]]]].
    assert (Hascii2 : is_ascii (s_source s2) = true)
      by (unfold s2; simpl; rewrite A1; exact Hascii).
    destruct (Scanner.currentRune s2) as [r size] eqn:Er.
    destruct (currentRune_ascii_step s2 r size Hascii2 Er (or_intror He))
      as [-> Hlt].
    cbn [snd] in E3.
    destruct E3 as [B1 [B2 [B3 [B4 B5]]]].
    unfold Scanner.bump, s2 in B1, B3, B4, Hlt. simpl in B1, B3, B4, Hlt.
    assert (Hsrc : s_source s' = s_source s) by congruence.
    destruct (IH s') as [ts [eof [Hts [Heof' [Hall Hlen]]]]].
    + rewrite Hsrc. exact Hascii.
    + unfold inbounds. rewrite B1. exact B4.
    + rewrite Hsrc. rewrite A1 in Hlt. lia.
    + rewrite Hts. cbn [bind].
      exists (t :: ts), eof. split; [ reflexivity | ].
      split; [ exact Heof' | ].
      split.
      * constructor; [ | exact Hall ].
        intro Ht. rewrite Ht in Heof. discriminate Heof.
      * rewrite Hsrc in Hlen. rewrite A1 in Hlt. simpl. lia.
Qed.

(** X9.  The scanner ends on every ASCII source: called again and again,
    [nextToken] returns a finite run of tokens, none of them EOF, each
    taking at least one byte of the source, and then the EOF token. *)
Theorem tokens_of_ascii_source (source : string) :
  is_ascii source = true ->
  exists (ts : list Token) (eof : Token),
    Scanner.tokens (S (String.length source)) source = Ok (ts ++ [eof])%list
    /\ t_typ eof = TokenEOF
    /\ Forall (fun t => t_typ t <> TokenEOF) ts
    /\ (List.length ts <= String.length source)%nat.
Proof.
  intro Hascii. unfold Scanner.tokens.
  destruct (tokens_from_ascii (S (String.length source))
              (Scanner.newScanner source) Hascii)
    as [ts [eof [H1 [H2 [H3 H4]]]]].
  - unfold inbounds. simpl. lia.
  - simpl. lia.
  - exists ts, eof. simpl in H4. rewrite Nat.sub_0_r in H4. auto.
Qed.

End ScannerAscii.

(** X9 at work on the source [1 + 2]. *)
Lemma tokens_of_one_plus_two :
  is_ascii "1 + 2" = true
  /\ exists (ts : list Token) (eof : Token),
       Scanner.tokens (U := latin1_tables) 6 "1 + 2" = Ok (ts ++ [eof])%list
       /\ t_typ eof = TokenEOF
       /\ Forall (fun t => t_typ t <> TokenEOF) ts
       /\ (List.length ts <= 5)%nat.
Proof.
  split; [ reflexivity | ].
  exact (@tokens_of_ascii_source latin1_tables "1 + 2" eq_refl).
Defined.

(** ** What a compiled chunk holds and prints *)

Lemma returns_in_app_op (n : nat) (code : list Z) (op : Op) :
  op <> OpConstant -> code_ok n code ->
  returns_in (code ++ [Op_byte op])
  = (returns_in code + match op with OpReturn => 1 | _ => 0 end)%nat.
Proof.
  intros Hop H. induction H.
  - destruct op; reflexivity.
  - cbn [app returns_in].
    destruct (Op_of_byte op0) as [[] |]; try congruence;
      rewrite IHcode_ok; reflexivity.
  - cbn [app returns_in].
    change (Op_of_byte (Op_byte OpConstant)) with (Some OpConstant).
    cbv iota. exact IHcode_ok.
Qed.

Lemma returns_in_app_constant (n : nat) (code : list Z) (operand : Z) :
  code_ok n code ->
  returns_in (code ++ [Op_byte OpConstant; operand]) = returns_in code.
Proof.
  intro H. induction H.
  - reflexivity.
  - cbn [app returns_in].
    destruct (Op_of_byte op) as [[] |]; try congruence;
      rewrite IHcode_ok; reflexivity.
  - cbn [app returns_in].
    change (Op_of_byte (Op_byte OpConstant)) with (Some OpConstant).
    cbv iota. exact IHcode_ok.
Qed.

Lemma building_addOp (chunk : Chunk) (op : Op) :
  op <> OpConstant -> op <> OpReturn ->
  building chunk -> building (addOp chunk op).
Proof.
  intros Hc Hr [Hok [Hret Hpool]].
  split; [ exact (addOp_ok chunk op Hc Hok) | split; [ | exact Hpool ] ].
  unfold addOp, addByte. cbn [ch_code].
  rewrite (returns_in_app_op _ _ op Hc Hok), Hret.
  destruct op; try reflexivity. congruence.
Qed.

Lemma literal_builds : builds Compiler.literal.
Proof.
  intros [c chunk] st' H Hb. unfold Compiler.literal in H.
  destruct (literalOps (t_typ (c_previous c))) as [op |] eqn:Eop;
    [ | discriminate H ].
  injection H as <-. simpl.
  apply building_addOp; [ | | exact Hb ];
    destruct (t_typ (c_previous c)); simpl in Eop; congruence.
Qed.

Lemma number_builds : builds Compiler.number.
Proof.
  intros [c chunk] st' H [Hok [Hret [Hlen Hall]]].
  pose proof (number_preserves _ _ H Hok) as Hok'.
  unfold Compiler.number in H.
  bind_inv H. unfold addVal in H.
  set (vals := (ch_vals chunk ++ [numberValue a])%list) in H.
  set (index := Z.of_nat (List.length vals) - 1) in H.
  destruct (Z.ltb_spec 255 index) as [Hbig | Hsmall]; [ discriminate H | ].
  injection H as <-.
  assert (Hvals : List.length vals = S (List.length (ch_vals chunk))).
  { unfold vals. rewrite length_app. simpl. lia. }
  split; [ exact Hok' | split; [ | split ] ].
  - unfold addOp, addByte. cbn [ch_code snd].
    rewrite <- app_assoc. cbn [app].
    rewrite (returns_in_app_constant _ _ _ Hok). exact Hret.
  - cbn [ch_vals snd addByte addOp]. unfold index in Hsmall. lia.
  - cbn [ch_vals snd addByte addOp]. unfold vals.
    apply Forall_app. split; [ exact Hall | ].
    constructor; [ exists a; reflexivity | constructor ].
Qed.

Section CompilerBuilds.
Context {U : UnicodeTables}.

Section HandlersBuild.
Variable parse : Z -> Compiler.state -> outcome Compiler.state.
Hypothesis parse_builds : forall prec : Z, builds (parse prec).

Lemma call_builds (fn : parseFn) : builds (Compiler.call parse fn).
Proof.
  destruct fn; cbn [Compiler.call].
  - exact literal_builds.
  - intros st st' H Hb. unfold Compiler.grouping, Compiler.expression in H.
    bind_inv H. destruct a as [c chunk].
    bind_inv H. injection H as <-.
    exact (parse_builds _ _ _ Ha Hb).
  - intros st st' H Hb. unfold Compiler.unary in H.
    bind_inv H. destruct a as [c chunk].
    destruct (unaryOps (t_typ (c_previous (fst st)))) as [op |] eqn:Eop;
      [ | discriminate H ].
    injection H as <-. cbn [snd].
    apply building_addOp;
      [ | | exact (parse_builds _ _ _ Ha Hb) ];
      destruct (t_typ (c_previous (fst st))); simpl in Eop; congruence.
  - intros st st' H Hb. unfold Compiler.binary in H.
    bind_inv H. bind_inv H. destruct a0 as [c chunk].
    destruct (binaryOps (t_typ (c_previous (fst st)))) as [op |] eqn:Eop;
      [ | discriminate H ].
    injection H as <-. cbn [snd].
    apply building_addOp;
      [ | | exact (parse_builds _ _ _ Ha0 Hb) ];
      destruct (t_typ (c_previous (fst st))); simpl in Eop; congruence.
  - exact number_builds.
Qed.

End HandlersBuild.

Lemma parse_and_loop_build (fuel : nat) :
  (forall prec : Z, builds (Compiler.parse fuel prec))
  /\ (forall prec : Z, builds (Compiler.parse_loop fuel prec)).
Proof.
  induction fuel as [| fuel [IHparse IHloop]].
  - split; intros prec st st' H; discriminate H.
  - split; intros prec [c chunk] st' H Hb; simpl in H.
    + bind_inv H. bind_inv H.
      destruct (prefix a0) as [fn |]; [ | discriminate H ].
      bind_inv H.
      apply (IHloop prec _ _ H).
      exact (call_builds (Compiler.parse fuel) IHparse fn _ _ Ha1 Hb).
    + bind_inv H.
      destruct (precedence a <? prec).
      * injection H as <-. exact Hb.
      * bind_inv H.
        destruct (infix a) as [fn |]; [ | discriminate H ].
        bind_inv H.
        apply (IHloop prec _ _ H).
        exact (call_builds (Compiler.parse fuel) IHparse fn _ _ Ha1 Hb).
Qed.

Lemma compile_loop_builds (turns fuel : nat) :
  builds (Compiler.compile_loop turns fuel).
Proof.
  induction turns as [| turns IH]; intros st st' H Hb; simpl in H.
  - discriminate H.
  - destruct (t_typ (c_current (fst st)));
      try discriminate H;
      try (injection H as <-; exact Hb);
      (unfold Compiler.expression in H; bind_inv H;
       apply (IH _ _ H);
       exact (proj1 (parse_and_loop_build fuel) _ _ _ Ha Hb)).
Qed.

(** A compiled chunk is a code without [OpReturn], then [OpReturn]. *)
Lemma compile_builds (fuel : nat) (source : string) (chunk : Chunk) :
  Compiler.compile fuel source = Ok chunk ->
  exists body : Chunk,
    building body /\ chunk = addOp body OpReturn.
Proof.
  unfold Compiler.compile. intro H.
  bind_inv H. bind_inv H. destruct a0 as [c chunk'].
  injection H as <-. exists chunk'. split; [ | reflexivity ].
  apply (compile_loop_builds fuel fuel _ _ Ha0).
  split; [ constructor | split; [ reflexivity | ] ].
  split; [ simpl; lia | constructor ].
Qed.

(** X10.  Whatever the source, a chunk that [compile] returns ends with
    its one and only [OpReturn], holds at most 256 constants, and every
    constant is a number. *)
Theorem compiled_chunk_shape (fuel : nat) (source : string) (chunk : Chunk) :
  Compiler.compile fuel source = Ok chunk ->
  (exists body : list Z,
      ch_code chunk = (body ++ [Op_byte OpReturn])%list
      /\ returns_in body = 0%nat)
  /\ returns_in (ch_code chunk) = 1%nat
  /\ (List.length (ch_vals chunk) <= 256)%nat
  /\ Forall (fun v => exists f : float, v = numberValue f) (ch_vals chunk).
Proof.
  intro H. destruct (compile_builds fuel source chunk H)
    as [body [[Hok [Hret [Hlen Hall]]] ->]].
  split; [ exists (ch_code body); split; [ reflexivity | exact Hret ] | ].
  split; [ | split; [ exact Hlen | exact Hall ] ].
  unfold addOp, addByte. cbn [ch_code].
  rewrite (returns_in_app_op _ _ OpReturn (fun E => ltac:(discriminate E)) Hok).
  rewrite Hret. reflexivity.
Qed.

End CompilerBuilds.

(** X10 at work on the source [1 + 1]: the literal is stored twice. *)
Lemma compiled_chunk_shape_of_one_plus_one :
  Compiler.compile (U := latin1_tables) 5 "1 + 1"
  = Ok (mkChunk [0; 0; 0; 1; 6; 13] [numberValue 1; numberValue 1])
  /\ returns_in [0; 0; 0; 1; 6; 13] = 1%nat.
Proof.
  split; [ reflexivity | ].
  exact (proj1 (proj2 (@compiled_chunk_shape latin1_tables 5%nat "1 + 1"
                         (mkChunk [0; 0; 0; 1; 6; 13]
                            [numberValue 1; numberValue 1]) eq_refl))).
Defined.

(** ** How the run of a compiled program ends *)

Lemma bind_within {A B : Type} (P : A -> Prop) (Q : B -> Prop)
  (m : outcome A) (k : A -> outcome B) :
  within P m -> (forall a : A, P a -> within Q (k a)) -> within Q (bind m k).
Proof.
  intros Hm Hk. destruct m as [a | msg | p |]; simpl in *.
  - apply Hk, Hm.
  - exact Hm.
  - exact Hm.
  - exact I.
Qed.

Lemma index_within {A : Type} (P : A -> Prop) (a : list A) (i : Z) :
  (forall x : A, In x a -> P x) -> within P (index a i).
Proof.
  intro H. unfold index. destruct (i <? 0); [ exact I | ].
  destruct (nth_error a (Z.to_nat i)) as [x |] eqn:E; [ | exact I ].
  simpl. apply H. exact (nth_error_In _ _ E).
Qed.

Lemma pop_within (s : Stack) :
  Forall wellformed s ->
  within (fun r => wellformed (fst r) /\ Forall wellformed (snd r)) (pop s).
Proof.
  intro H. unfold pop.
  destruct (Z.of_nat (List.length s) - 1 <? 0); [ exact I | ].
  set (n := Z.to_nat (Z.of_nat (List.length s) - 1)).
  destruct (nth_error s n) as [v |] eqn:E; [ | exact I ].
  simpl. split.
  - exact (proj1 (Forall_forall _ _) H v (nth_error_In _ _ E)).
  - rewrite <- (firstn_skipn n s) in H. apply Forall_app in H. exact (proj1 H).
Qed.

Lemma push_wellformed (s : Stack) (v : Value) :
  Forall wellformed s -> wellformed v -> Forall wellformed (push s v).
Proof.
  intros Hs Hv. unfold push. apply Forall_app. split; [ exact Hs | ].
  constructor; [ exact Hv | constructor ].
Qed.

Lemma asNumber_within (v : Value) : within (fun _ => True) (asNumber v).
Proof.
  unfold asNumber. destruct (v_data v); simpl; auto.
Qed.

Lemma asBool_within (v : Value) :
  wellformed v -> within (fun _ => True) (asBool v).
Proof.
  unfold wellformed, asBool.
  destruct (v_typ v); destruct (v_data v); simpl; intro H;
    first [ exact I | contradiction ].
Qed.

Lemma negateValue_within (v : Value) : within wellformed (negateValue v).
Proof.
  unfold negateValue.
  apply (bind_within (fun _ => True)); [ apply asNumber_within | ].
  intros f _. exact I.
Qed.

Lemma notValue_within (v : Value) :
  wellformed v -> within wellformed (notValue v).
Proof.
  intro H. unfold notValue.
  apply (bind_within (fun _ => True)); [ exact (asBool_within v H) | ].
  intros b _. exact I.
Qed.

Lemma guarded_within (A : Type) (wrap : A -> Value) (f : float -> float -> A)
  (v w : Value) :
  (forall x : A, wellformed (wrap x)) ->
  within wellformed (guarded A wrap f v w).
Proof.
  intro Hwrap. unfold guarded.
  destruct (bothNumbers v w); [ | reflexivity ].
  apply (bind_within (fun _ => True)); [ apply asNumber_within | ].
  intros a _.
  apply (bind_within (fun _ => True)); [ apply asNumber_within | ].
  intros b _. apply Hwrap.
Qed.

Lemma valuesEqual_within (v w : Value) :
  wellformed v -> wellformed w -> within wellformed (valuesEqual v w).
Proof.
  intros Hv Hw. unfold valuesEqual.
  destruct (ValueType_eqb (v_typ v) (v_typ w)); [ | exact I ].
  destruct (v_typ v).
  - exact I.
  - apply (bind_within (fun _ => True)); [ exact (asBool_within v Hv) | ].
    intros a _.
    apply (bind_within (fun _ => True)); [ exact (asBool_within w Hw) | ].
    intros b _. exact I.
  - apply (bind_within (fun _ => True)); [ apply asNumber_within | ].
    intros a _.
    apply (bind_within (fun _ => True)); [ apply asNumber_within | ].
    intros b _. exact I.
Qed.

Lemma unary_within (stack : Stack) (fn : Value -> outcome Value) :
  (forall v : Value, wellformed v -> within wellformed (fn v)) ->
  Forall wellformed stack ->
  within (Forall wellformed) (VM.unary stack fn).
Proof.
  intros Hfn Hs. unfold VM.unary.
  apply (bind_within _ _ _ _ (pop_within stack Hs)).
  intros [v s1] [Hv Hs1]. simpl in Hv, Hs1.
  apply (bind_within _ _ _ _ (Hfn v Hv)).
  intros res Hres. exact (push_wellformed s1 res Hs1 Hres).
Qed.

Lemma binary_within (stack : Stack) (fn : Value -> Value -> outcome Value) :
  (forall a b : Value,
      wellformed a -> wellformed b -> within wellformed (fn a b)) ->
  Forall wellformed stack ->
  within (Forall wellformed) (VM.binary stack fn).
Proof.
  intros Hfn Hs. unfold VM.binary.
  apply (bind_within _ _ _ _ (pop_within stack Hs)).
  intros [b s1] [Hb Hs1]. simpl in Hb, Hs1.
  apply (bind_within _ _ _ _ (pop_within s1 Hs1)).
  intros [a s2] [Ha Hs2]. simpl in Ha, Hs2.
  apply (bind_within _ _ _ _ (Hfn a b Ha Hb)).
  intros res Hres. exact (push_wellformed s2 res Hs2 Hres).
Qed.

(** One instruction on a stack and a pool of well-formed values: the
    values left on the stack are well formed, an error is a "type
    mismatch", and a failed assertion is one to [float64]. *)
Lemma dispatch_within (chunk : Chunk) (ip : nat) (stack : Stack)
  (b : Z) (rest : list Z) (op : Op) :
  skipn ip (ch_code chunk) = b :: rest ->
  Op_of_byte b = Some op ->
  Forall wellformed (ch_vals chunk) ->
  Forall wellformed stack ->
  within (fun r => Forall wellformed (snd (fst r)))
    (VM.dispatch chunk ip stack).
Proof.
  intros Hskip Hop Hpool Hs.
  destruct (skipn_cons _ _ _ _ Hskip) as [Hnth _].
  unfold VM.dispatch. rewrite (index_Ok _ _ _ Hnth).
  cbn [bind]. rewrite Hop.
  assert (Hlit : forall v : Value,
             wellformed v ->
             within (fun r : nat * Stack * list string =>
                       Forall wellformed (snd (fst r)))
               (s <- VM.literal stack v ;; Ok (ip, s, []))).
  { intros v Hv. simpl. exact (push_wellformed stack v Hs Hv). }
  assert (Hun : forall fn : Value -> outcome Value,
             (forall v : Value, wellformed v -> within wellformed (fn v)) ->
             within (fun r : nat * Stack * list string =>
                       Forall wellformed (snd (fst r)))
               (s <- VM.unary stack fn ;; Ok (ip, s, []))).
  { intros fn Hfn.
    apply (bind_within _ _ _ _ (unary_within stack fn Hfn Hs)).
    intros s' Hs'. exact Hs'. }
  assert (Hbin : forall fn : Value -> Value -> outcome Value,
             (forall x y : Value,
                 wellformed x -> wellformed y -> within wellformed (fn x y)) ->
             within (fun r : nat * Stack * list string =>
                       Forall wellformed (snd (fst r)))
               (s <- VM.binary stack fn ;; Ok (ip, s, []))).
  { intros fn Hfn.
    apply (bind_within _ _ _ _ (binary_within stack fn Hfn Hs)).
    intros s' Hs'. exact Hs'. }
  destruct op.
  - (* OpConstant *)
    apply (bind_within (fun _ => True));
      [ apply index_within; intros; exact I | ].
    intros operand _.
    apply (bind_within wellformed);
      [ apply index_within; exact (proj1 (Forall_forall _ _) Hpool) | ].
    intros v Hv. simpl. exact (push_wellformed stack v Hs Hv).
  - apply Hlit. exact I.
  - apply Hlit. exact I.
  - apply Hlit. exact I.
  - apply Hun. intros v _. apply negateValue_within.
  - apply Hun. exact notValue_within.
  - apply Hbin. intros x y _ _.
    exact (guarded_within _ numberValue _ x y (fun _ => I)).
  - apply Hbin. intros x y _ _.
    exact (guarded_within _ numberValue _ x y (fun _ => I)).
  - apply Hbin. intros x y _ _.
    exact (guarded_within _ numberValue _ x y (fun _ => I)).
  - apply Hbin. intros x y _ _.
    exact (guarded_within _ numberValue _ x y (fun _ => I)).
  - apply Hbin. exact valuesEqual_within.
  - apply Hbin. intros x y _ _.
    exact (guarded_within _ boolValue (fun a b => (b <? a)%float) x y
             (fun _ => I)).
  - apply Hbin. intros x y _ _.
    exact (guarded_within _ boolValue (fun a b => (a <? b)%float) x y
             (fun _ => I)).
  - (* OpReturn *)
    apply (bind_within _ _ _ _ (pop_within stack Hs)).
    intros [v s1] [_ Hs1]. exact Hs1.
Qed.

(** With its stack effect defined, over a pool and a stack of well-formed
    values, the code from [ip] on fails only with "type mismatch" and
    panics on an assertion only on one to [float64]. *)
Lemma run_loop_within (chunk : Chunk) (fuel : nat) :
  forall (ip : nat) (stack : Stack) (out : list output) (d' : nat),
    stack_effect (List.length (ch_vals chunk)) (skipn ip (ch_code chunk))
      (List.length stack) = Some d' ->
    Forall wellformed (ch_vals chunk) ->
    Forall wellformed stack ->
    within (fun _ => True) (snd (VM.run_loop fuel chunk ip stack out)).
Proof.
  induction fuel as [| fuel IH]; intros ip stack out d' Heff Hpool Hs.
  - simpl. destruct (List.length (ch_code chunk) <=? ip)%nat; exact I.
  - cbn [VM.run_loop].
    destruct (Nat.leb_spec (List.length (ch_code chunk)) ip) as [Hend | Hin];
      [ exact I | ].
    destruct (skipn ip (ch_code chunk)) as [| b rest] eqn:Hskip.
    { apply (f_equal (@List.length Z)) in Hskip.
      rewrite length_skipn in Hskip. simpl in Hskip. lia. }
    destruct (dumpOp_safe chunk ip b rest _ _ Hskip Heff) as [line [w Hdump]].
    rewrite Hdump. cbn [bind_logged].
    destruct (dispatch_safe chunk ip stack b rest d' Hskip Heff) as [_ Hnext].
    assert (Hop : exists op : Op, Op_of_byte b = Some op).
    { cbn [stack_effect] in Heff.
      destruct (Op_of_byte b) as [op |]; [ exists op; reflexivity | ].
      discriminate Heff. }
    destruct Hop as [op Hop].
    pose proof (dispatch_within chunk ip stack b rest op Hskip Hop Hpool Hs)
      as Hw.
    destruct (VM.dispatch chunk ip stack) as [[[ip' stack'] printed] | msg | p |];
      cbn [bind_logged snd]; try exact Hw.
    apply (IH (ip' + 1)%nat stack' _ d');
      [ exact (Hnext ip' stack' printed eq_refl) | exact Hpool | exact Hw ].
Qed.

Lemma numberValue_pool_wellformed (vals : list Value) :
  Forall (fun v => exists f : float, v = numberValue f) vals ->
  Forall wellformed vals.
Proof.
  intro H. apply Forall_forall. intros v Hv.
  destruct (proj1 (Forall_forall _ _) H v Hv) as [f ->]. exact I.
Qed.

Section CompiledRuns.
Context {U : UnicodeTables}.

(** X1.  A program of one expression or more never pops an empty stack,
    and its run ends in one of four ways: well, on the error "type
    mismatch" of an operator, or on the failed assertion of [negateValue]
    on a [nil] or on a [bool].  It fails no index expression, that of
    [pop] included. *)
Theorem compiled_program_never_underflows
  (fuel : nat) (source : string) (chunk : Chunk) :
  Compiler.compile fuel source = Ok chunk ->
  ch_code chunk <> [Op_byte OpReturn] ->
  (snd (VM.run chunk) = Ok tt
   \/ snd (VM.run chunk) = Err "type mismatch"
   \/ snd (VM.run chunk) = Panic (InterfaceConversion "nil" "float64")
   \/ snd (VM.run chunk) = Panic (InterfaceConversion "bool" "float64"))
  /\ benign (snd (VM.run chunk))
  /\ no_index_panic (snd (VM.run chunk)).
Proof.
  intros H Hne.
  destruct (compile_stack_effect fuel source chunk H Hne) as [d Hd].
  assert (Hb : benign (snd (VM.run chunk))).
  { unfold VM.run. apply (run_loop_safe chunk _ 0%nat newStack [] d).
    - lia.
    - exact Hd. }
  assert (Hpool : Forall wellformed (ch_vals chunk)).
  { destruct (compile_builds fuel source chunk H)
      as [body [[_ [_ [_ Hall]]] ->]].
    exact (numberValue_pool_wellformed _ Hall). }
  assert (Hw : within (fun _ => True) (snd (VM.run chunk))).
  { unfold VM.run.
    apply (run_loop_within chunk _ 0%nat newStack [] d Hd Hpool).
    constructor. }
  split; [ | split; [ exact Hb | ] ].
  - destruct (snd (VM.run chunk)) as [[] | msg | p |]; simpl in Hb, Hw.
    + left. reflexivity.
    + right. left. rewrite Hw. reflexivity.
    + destruct p as [i k | held wanted | | lo hi k]; try contradiction.
      destruct Hw as [[-> | ->] ->].
      * right. right. left. reflexivity.
      * right. right. right. reflexivity.
    + contradiction.
  - intros i k E. rewrite E in Hb. exact Hb.
Qed.

End CompiledRuns.

(** X1 at work on the source [-nil]: it compiles, its run panics, on the
    type assertion of [negateValue] and not on an index; and the three
    other endings, on [1 + 2], [1 + nil] and [-true]. *)
Lemma negate_nil_panics_on_assertion :
  Compiler.compile (U := latin1_tables) 5 "-nil" = Ok (mkChunk [1; 4; 13] [])
  /\ snd (VM.run (mkChunk [1; 4; 13] []))
     = Panic (InterfaceConversion "nil" "float64")
  /\ no_index_panic (snd (VM.run (mkChunk [1; 4; 13] [])))
  /\ snd (Compiler.interpret (U := latin1_tables) 5 "1 + 2") = Ok tt
  /\ snd (Compiler.interpret (U := latin1_tables) 5 "1 + nil")
     = Err "type mismatch"
  /\ snd (Compiler.interpret (U := latin1_tables) 5 "-true")
     = Panic (InterfaceConversion "bool" "float64").
Proof.
  split; [ reflexivity | split; [ reflexivity | ] ].
  split; [ | split; [ reflexivity | split; reflexivity ] ].
  apply (@compiled_program_never_underflows latin1_tables 5%nat "-nil").
  - reflexivity.
  - discriminate.
Defined.

Lemma printed_app_trace (out : list output) (line : string) :
  VM.printed (out ++ [Trace line]) = VM.printed out.
Proof. unfold VM.printed. rewrite flat_map_app. simpl. apply app_nil_r. Qed.

Lemma printed_app_printed (out : list output) (lines : list string) :
  VM.printed (out ++ map Printed lines) = (VM.printed out ++ lines)%list.
Proof.
  unfold VM.printed. rewrite flat_map_app. f_equal.
  induction lines as [| l lines IH]; [ reflexivity | ].
  simpl. f_equal. exact IH.
Qed.

(** What the [switch] does to [ip] and prints, opcode by opcode. *)
Lemma dispatch_shape (chunk : Chunk) (ip ip' : nat) (stack stack' : Stack)
  (printed : list string) (b : Z) (rest : list Z) :
  skipn ip (ch_code chunk) = b :: rest ->
  VM.dispatch chunk ip stack = Ok (ip', stack', printed) ->
  match Op_of_byte b with
  | Some OpConstant => ip' = (ip + 1)%nat /\ printed = []
  | Some OpReturn => ip' = ip /\ exists line : string, printed = [line]
  | _ => ip' = ip /\ printed = []
  end.
Proof.
  intros Hskip H.
  destruct (skipn_cons _ _ _ _ Hskip) as [Hnth _].
  unfold VM.dispatch in H. rewrite (index_Ok _ _ _ Hnth) in H.
  cbn [bind] in H.
  destruct (Op_of_byte b) as [[] |]; try discriminate H;
    repeat (let x := fresh "x" in
            let Hx := fresh "Hx" in
            apply bind_Ok in H; destruct H as [x [Hx H]];
            try (destruct x as [? ?]));
    injection H as <- _ <-; split; try reflexivity.
  eexists. reflexivity.
Qed.

(** The run of a code without [OpReturn] followed by [OpReturn]: it ends
    well and has printed one line, or it fails and has printed none. *)
Lemma run_loop_prints_once (chunk : Chunk) (fuel : nat) :
  forall (ip : nat) (stack : Stack) (out : list output) (body : list Z),
    (List.length (ch_code chunk) - ip <= fuel)%nat ->
    skipn ip (ch_code chunk) = (body ++ [Op_byte OpReturn])%list ->
    code_ok (List.length (ch_vals chunk)) body ->
    returns_in body = 0%nat ->
    let r := VM.run_loop fuel chunk ip stack out in
    (snd r = Ok tt
     /\ exists line : string, VM.printed (fst r) = (VM.printed out ++ [line])%list)
    \/ (snd r <> Ok tt /\ VM.printed (fst r) = VM.printed out).
Proof.
  induction fuel as [| fuel IH]; intros ip stack out body Hfuel Hskip Hok Hret.
  - exfalso.
    apply (f_equal (@List.length Z)) in Hskip.
    rewrite length_skipn, length_app in Hskip. simpl in Hskip. lia.
  - cbn zeta. cbn [VM.run_loop].
    destruct (Nat.leb_spec (List.length (ch_code chunk)) ip) as [Hend | Hin].
    { exfalso. apply (f_equal (@List.length Z)) in Hskip.
      rewrite length_skipn, length_app in Hskip. simpl in Hskip. lia. }
    destruct (dumpOp chunk ip) as [line w].
    destruct w as [w | msg | p |]; cbn [bind_logged fst snd];
      try (right; split; [ discriminate | apply printed_app_trace ]).
    pose proof (fun b rest ip' s' p E =>
                  dispatch_shape chunk ip ip' stack s' p b rest E) as Hshape.
    destruct (VM.dispatch chunk ip stack)
      as [[[ip' stack'] printed] | msg | p |];
      cbn [bind_logged fst snd];
      try (right; split; [ discriminate | apply printed_app_trace ]).
    destruct body as [| b body'].
    + (* the final OpReturn *)
      cbn [app] in Hskip.
      specialize (Hshape _ _ ip' stack' printed Hskip eq_refl).
      change (Op_of_byte (Op_byte OpReturn)) with (Some OpReturn) in Hshape.
      destruct Hshape as [-> [l ->]].
      destruct (skipn_cons _ _ _ _ Hskip) as [_ [Hrest _]].
      assert (Hlen : (List.length (ch_code chunk) <= ip + 1)%nat).
      { apply (f_equal (@List.length Z)) in Hrest.
        rewrite length_skipn in Hrest. simpl in Hrest. lia. }
      left. destruct fuel as [| fuel']; cbn [VM.run_loop];
        destruct (Nat.leb_spec (List.length (ch_code chunk)) (ip + 1));
        try lia; cbn [fst snd];
        (split; [ reflexivity | ]; exists l;
         rewrite printed_app_printed, printed_app_trace; reflexivity).
    + cbn [app] in Hskip.
      specialize (Hshape _ _ ip' stack' printed Hskip eq_refl).
      destruct (skipn_cons _ _ _ _ Hskip) as [_ [Hrest _]].
      inversion Hok as [| op rest Hop Hok' Heq | operand rest Hrange Hok' Heq];
        subst.
      * (* an instruction without operand, and not OpReturn *)
        cbn [returns_in] in Hret.
        destruct (Op_of_byte b) as [[] |] eqn:Eb; try congruence;
          try discriminate Hret;
          destruct Hshape as [-> ->];
          (destruct (IH (ip + 1)%nat stack'
                       ((out ++ [Trace line]) ++ map Printed [])%list body')
             as [[Hr [l Hl]] | [Hr Hl]];
           [ lia | exact Hrest | exact Hok' | exact Hret
           | left; split; [ exact Hr | exists l; rewrite Hl ]
           | right; split; [ exact Hr | rewrite Hl ] ];
           rewrite printed_app_printed, printed_app_trace, app_nil_r;
           reflexivity).
      * (* OpConstant and its operand *)
        change (Op_of_byte (Op_byte OpConstant)) with (Some OpConstant)
          in Hshape.
        destruct Hshape as [-> ->].
        cbn [returns_in] in Hret.
        change (Op_of_byte (Op_byte OpConstant)) with (Some OpConstant) in Hret.
        cbv iota in Hret.
        assert (Hrest2 : skipn (ip + 1 + 1) (ch_code chunk)
                         = (rest ++ [Op_byte OpReturn])%list).
        { destruct (skipn_cons _ _ _ _ Hrest) as [_ [H2 _]]. exact H2. }
        assert (Hlen : (ip + 1 < List.length (ch_code chunk))%nat).
        { destruct (skipn_cons _ _ _ _ Hrest) as [_ [_ H3]]. exact H3. }
        destruct (IH (ip + 1 + 1)%nat stack'
                    ((out ++ [Trace line]) ++ map Printed [])%list rest)
          as [[Hr [l Hl]] | [Hr Hl]];
          [ lia | exact Hrest2 | exact Hok' | exact Hret
          | left; split; [ exact Hr | exists l; rewrite Hl ]
          | right; split; [ exact Hr | rewrite Hl ] ];
          rewrite printed_app_printed, printed_app_trace, app_nil_r;
          reflexivity.
Qed.

Section CompiledPrints.
Context {U : UnicodeTables}.

Lemma compiled_program_prints_once
  (fuel : nat) (source : string) (chunk : Chunk) :
  Compiler.compile fuel source = Ok chunk ->
  (snd (VM.run chunk) = Ok tt
   /\ exists line : string, VM.printed (fst (VM.run chunk)) = [line])
  \/ (snd (VM.run chunk) <> Ok tt /\ VM.printed (fst (VM.run chunk)) = []).
Proof.
  intro H.
  destruct (compile_builds fuel source chunk H)
    as [body [[Hok [Hret _]] ->]].
  unfold VM.run.
  apply (run_loop_prints_once (addOp body OpReturn) _ 0%nat newStack []
           (ch_code body)).
  - lia.
  - reflexivity.
  - exact Hok.
  - exact Hret.
Qed.

(** X11.  Whatever the source, [interpret] prints the value of one
    expression and no more: when it ends without error it has printed
    exactly one line, and when it fails (a compile error, an error of an
    operator, a panic) it has printed none. *)
Theorem interpret_prints_once (fuel : nat) (source : string) :
  let r := Compiler.interpret fuel source in
  (snd r = Ok tt /\ exists line : string, VM.printed (fst r) = [line])
  \/ (snd r <> Ok tt /\ VM.printed (fst r) = []).
Proof.
  cbv zeta. unfold Compiler.interpret.
  pose proof (compiled_program_prints_once fuel source) as H.
  destruct (Compiler.compile fuel source) as [chunk | msg | p |];
    cbn [bind_logged fst snd].
  - exact (H chunk eq_refl).
  - right. split; [ discriminate | reflexivity ].
  - right. split; [ discriminate | reflexivity ].
  - right. split; [ discriminate | reflexivity ].
Qed.

End CompiledPrints.

(** ** The listing of a chunk *)

Lemma dumpOp_code_ok (c : Chunk) (i : nat) (b : Z) (rest : list Z) :
  skipn i (ch_code c) = b :: rest ->
  code_ok (List.length (ch_vals c)) (b :: rest) ->
  exists (line : string) (w : nat),
    dumpOp c i = (line, Ok w)
    /\ code_ok (List.length (ch_vals c)) (skipn (i + w) (ch_code c))
    /\ instructions (b :: rest) = S (instructions (skipn (i + w) (ch_code c)))
    /\ (1 <= w)%nat.
Proof.
  intros Hskip Hok.
  inversion Hok as [| op rest0 Hop Hok' Heq | operand rest0 Hrange Hok' Heq];
    subst;
    destruct (skipn_cons _ _ _ _ Hskip) as [Hnth [Hrest _]];
    unfold dumpOp; rewrite (index_Ok _ _ _ Hnth); cbn [bind_logged].
  - exists (pad_left 4 "0" (itoa i) ++ " " ++ Op_String b), 1%nat.
    cbn [instructions].
    destruct (Op_of_byte b) as [[] |]; try congruence;
      (split; [ reflexivity | ]; rewrite Hrest;
       split; [ exact Hok' | split; [ reflexivity | lia ] ]).
  - change (Op_of_byte (Op_byte OpConstant)) with (Some OpConstant).
    cbv iota.
    destruct (skipn_cons _ _ _ _ Hrest) as [Hnth1 [Hrest1 _]].
    replace (Z.of_nat i + 1) with (Z.of_nat (i + 1)) by lia.
    rewrite (index_Ok _ _ _ Hnth1). cbn [bind_logged].
    destruct (index_in_range (ch_vals c) operand Hrange) as [v Hv].
    rewrite Hv. cbn [bind_logged].
    eexists. exists 2%nat. split; [ reflexivity | ].
    replace (i + 2)%nat with (i + 1 + 1)%nat by lia. rewrite Hrest1.
    split; [ exact Hok' | split; [ | lia ] ].
    cbn [instructions].
    change (Op_of_byte (Op_byte OpConstant)) with (Some OpConstant).
    reflexivity.
Qed.

Lemma dumpChunk_loop_code_ok (c : Chunk) (fuel : nat) :
  forall (i : nat) (out : list string),
    (List.length (ch_code c) - i <= fuel)%nat ->
    code_ok (List.length (ch_vals c)) (skipn i (ch_code c)) ->
    exists lines : list string,
      dumpChunk_loop fuel c i out = ((out ++ lines)%list, Ok tt)
      /\ List.length lines = instructions (skipn i (ch_code c)).
Proof.
  induction fuel as [| fuel IH]; intros i out Hfuel Hok.
  - exists []. cbn [dumpChunk_loop].
    destruct (Nat.leb_spec (List.length (ch_code c)) i); [ | lia ].
    rewrite app_nil_r, skipn_all2 by lia. split; reflexivity.
  - cbn [dumpChunk_loop].
    destruct (Nat.leb_spec (List.length (ch_code c)) i) as [Hend | Hin].
    { exists []. rewrite app_nil_r, skipn_all2 by lia. split; reflexivity. }
    destruct (skipn i (ch_code c)) as [| b rest] eqn:Hskip.
    { apply (f_equal (@List.length Z)) in Hskip.
      rewrite length_skipn in Hskip. simpl in Hskip. lia. }
    destruct (dumpOp_code_ok c i b rest Hskip Hok)
      as [line [w [Hdump [Hok' [Hcount Hw]]]]].
    rewrite Hdump. cbn [bind_logged].
    destruct (IH (i + w)%nat (out ++ [line])%list) as [lines [Hl Hn]];
      [ lia | exact Hok' | ].
    exists (line :: lines). rewrite Hl, <- app_assoc. split; [ reflexivity | ].
    cbn [List.length]. rewrite Hn, Hcount. reflexivity.
Qed.

Section Listing.
Context {U : UnicodeTables}.

(** X12.  [dumpChunk] lists every compiled chunk to its end: it fails no
    index expression, and prints the title and one line for each
    instruction.  On a chunk whose last [OpConstant] lacks its operand it
    panics. *)
Theorem dumpChunk_of_compiled_chunk
  (fuel : nat) (source title : string) (chunk : Chunk) :
  Compiler.compile fuel source = Ok chunk ->
  exists lines : list string,
    dumpChunk chunk title = (("== " ++ title) :: lines, Ok tt)
    /\ List.length lines = instructions (ch_code chunk)
    /\ (1 <= List.length lines)%nat.
Proof.
  intro H. pose proof (compile_chunk_ok fuel source chunk H) as Hok.
  unfold dumpChunk.
  destruct (dumpChunk_loop_code_ok chunk (List.length (ch_code chunk)) 0%nat
              ["== " ++ title]) as [lines [Hl Hn]];
    [ lia | exact Hok | ].
  exists lines. cbn [skipn] in Hn.
  split; [ exact Hl | split; [ exact Hn | ] ].
  rewrite Hn.
  destruct (compile_builds fuel source chunk H) as [body [_ ->]].
  unfold addOp, addByte. cbn [ch_code].
  destruct (ch_code body) as [| b rest]; cbn [app instructions].
  - change (Op_of_byte (Op_byte OpReturn)) with (Some OpReturn).
    cbv iota. lia.
  - destruct (Op_of_byte b) as [[] |]; try lia.
    destruct (rest ++ [Op_byte OpReturn])%list; lia.
Qed.

End Listing.

(** X12 at work on the source [1 + 2], and a chunk that cannot be
    listed. *)
Lemma dumpChunk_of_one_plus_two :
  Compiler.compile (U := latin1_tables) 5 "1 + 2"
  = Ok (mkChunk [0; 0; 0; 1; 6; 13] [numberValue 1; numberValue 2])
  /\ dumpChunk (mkChunk [0; 0; 0; 1; 6; 13] [numberValue 1; numberValue 2]) "t"
     = (["== t"; "0000 OpConstant   0 [1.000000]";
         "0002 OpConstant   1 [2.000000]"; "0004 OpAdd"; "0005 OpReturn"],
        Ok tt)
  /\ dumpChunk (mkChunk [0] []) "t"
     = (["== t"; "0000 OpConstant"], Panic (IndexOutOfRange 1 1))
  /\ exists lines : list string,
       dumpChunk (mkChunk [0; 0; 0; 1; 6; 13] [numberValue 1; numberValue 2]) "t"
       = ("== t" :: lines, Ok tt)
       /\ List.length lines
          = instructions
              (ch_code (mkChunk [0; 0; 0; 1; 6; 13] [numberValue 1; numberValue 2]))
       /\ (1 <= List.length lines)%nat.
Proof.
  split; [ reflexivity | split; [ reflexivity | split; [ reflexivity | ] ] ].
  exact (@dumpChunk_of_compiled_chunk latin1_tables 5%nat "1 + 2" "t" _ eq_refl).
Defined.
